(** * Translation of x86 machine code to LLVM IR: a model of the lifter

    This development embeds the function/block assembler, the instruction and
    terminator translators, the operand resolver, the register and status-flag
    store and the global memory model of the lifter (the Go file defining
    [translateFunc] and the functions it reaches), and proves properties of
    them.

    Conventions of the embedding.
    - [bin.Address] is a [uint64]: a [Z] kept in [0, 2^64) by [wrap64];
      [int64] values are kept in range by [swrap64].
    - Go pointers to blocks, functions and globals are the keys under which
      the object is stored in its map; the maps are stdpp [gmap]s.
    - A translation function that mutates [*function] is a state transformer
      over [function]; it ends in a value ([Ok]), in a returned [error]
      ([Err], the mutations made so far persist, as in Go) or in a [panic]
      ([Panic], which aborts the run).
    - An LLVM IR instruction value is identified by its operation and its
      operands. *)

From Stdlib Require Import ZArith Lia Ascii String.
From stdpp Require Import base option list gmap strings pretty sorting.

Set Warnings "-register-all".

Local Open Scope Z_scope.

(** ** Machine integers *)

Abbreviation Address := Z (only parsing).

Definition wrap64 (x : Z) : Z := x mod 2 ^ 64.

Definition swrap64 (x : Z) : Z := (x + 2 ^ 63) mod 2 ^ 64 - 2 ^ 63.

(** [a + b] on [bin.Address]. *)
Definition addr_add (a b : Address) : Address := wrap64 (a + b).

(** [a - b] on [bin.Address]. *)
Definition addr_sub (a b : Address) : Address := wrap64 (a - b).

(** [x + y] on [int64]. *)
Definition add64 (x y : Z) : Z := swrap64 (x + y).

(** ** The decoded x86 instruction (package x86asm) *)

(** [x86asm.Reg] is a [uint8] enumeration; the constants below are the ones
    the translator names, with their position in the enumeration
    (AL = 1, ..., TR7 = 154). *)
Abbreviation Reg := N (only parsing).

Module x86asm.
Definition AL : Reg := 1%N.
Definition R15B : Reg := 20%N.
Definition AX : Reg := 21%N.
Definition R15W : Reg := 36%N.
Definition EAX : Reg := 37%N.
Definition ECX : Reg := 38%N.
Definition EDX : Reg := 39%N.
Definition R15L : Reg := 52%N.
Definition RAX : Reg := 53%N.
Definition R15 : Reg := 68%N.
Definition IP : Reg := 69%N.
Definition EIP : Reg := 70%N.
Definition RIP : Reg := 71%N.
Definition F0 : Reg := 72%N.
Definition TR7 : Reg := 154%N.

(** The register names in enumeration order, starting at AL. *)
Definition regNames : list string :=
  ["AL"; "CL"; "DL"; "BL"; "AH"; "CH"; "DH"; "BH"; "SPB"; "BPB"; "SIB"; "DIB";
   "R8B"; "R9B"; "R10B"; "R11B"; "R12B"; "R13B"; "R14B"; "R15B"; "AX"; "CX";
   "DX"; "BX"; "SP"; "BP"; "SI"; "DI"; "R8W"; "R9W"; "R10W"; "R11W"; "R12W";
   "R13W"; "R14W"; "R15W"; "EAX"; "ECX"; "EDX"; "EBX"; "ESP"; "EBP"; "ESI";
   "EDI"; "R8L"; "R9L"; "R10L"; "R11L"; "R12L"; "R13L"; "R14L"; "R15L"; "RAX";
   "RCX"; "RDX"; "RBX"; "RSP"; "RBP"; "RSI"; "RDI"; "R8"; "R9"; "R10"; "R11";
   "R12"; "R13"; "R14"; "R15"; "IP"; "EIP"; "RIP"; "F0"; "F1"; "F2"; "F3";
   "F4"; "F5"; "F6"; "F7"; "M0"; "M1"; "M2"; "M3"; "M4"; "M5"; "M6"; "M7";
   "X0"; "X1"; "X2"; "X3"; "X4"; "X5"; "X6"; "X7"; "X8"; "X9"; "X10"; "X11";
   "X12"; "X13"; "X14"; "X15"; "ES"; "CS"; "SS"; "DS"; "FS"; "GS"; "GDTR";
   "IDTR"; "LDTR"; "MSW"; "TASK"; "CR0"; "CR1"; "CR2"; "CR3"; "CR4"; "CR5";
   "CR6"; "CR7"; "CR8"; "CR9"; "CR10"; "CR11"; "CR12"; "CR13"; "CR14"; "CR15";
   "DR0"; "DR1"; "DR2"; "DR3"; "DR4"; "DR5"; "DR6"; "DR7"; "DR8"; "DR9";
   "DR10"; "DR11"; "DR12"; "DR13"; "DR14"; "DR15"; "TR0"; "TR1"; "TR2"; "TR3";
   "TR4"; "TR5"; "TR6"; "TR7"]%string.

(** [Reg.String]: the name of the register, or ["Reg(%d)"] for a value
    outside the enumeration. *)
Definition Reg_String (r : Reg) : string :=
  match r with
  | 0%N => "Reg(0)"
  | _ => default ("Reg(" +:+ pretty r +:+ ")")%string
           (regNames !! N.to_nat (N.pred r))
  end.

(** The opcodes the translator dispatches on; every other opcode of the
    decoder is [OtherOp]. *)
Inductive Op : Set :=
| ADD | AND | CALL | CMP | IMUL | INC | MOV | PUSH | POP | XOR
| JA | JAE | JB | JBE | JCXZ | JE | JECXZ | JG | JGE | JL | JLE | JNE
| JNO | JNP | JNS | JO | JP | JRCXZ | JS
| JMP | RET
| OtherOp (code : N).

(** [x86asm.Mem]: Segment:[Base+Scale*Index+Disp]. *)
Record Mem : Set := {
  Segment : Reg;
  Base : Reg;
  Scale : N;
  Index : Reg;
  Disp : Z                  (* int64 *)
}.

(** [x86asm.Arg]; [ArgNil] is an unused slot of [Inst.Args]. *)
Inductive Arg : Set :=
| ArgReg (r : Reg)
| ArgMem (m : Mem)
| ArgImm (i : Z)            (* int64 *)
| ArgRel (r : Z)            (* int32 *)
| ArgNil.
End x86asm.

Import x86asm.

(** The translator's [instruction]: an [x86asm.Inst] and its address. *)
Record instruction : Set := {
  Op_ : Op;
  Args : list Arg;            (* [4]Arg, unused slots nil *)
  Len : Z;
  inst_addr : Address
}.

(** [inst.Args[i]], an index below 4. *)
Definition arg_at (inst : instruction) (i : nat) : Arg :=
  default ArgNil (Args inst !! i).

(** ** LLVM IR (package llir/llvm) *)

Inductive type : Set :=
| Void
| IntType (bits : N)
| PointerType (elem : type)
| ArrayType (len : Z) (elem : type)
| StructType (fields : list type)
| FuncType (ret : type) (params : list type).

Definition I1 := IntType 1.
Definition I8 := IntType 8.
Definition I16 := IntType 16.
Definition I32 := IntType 32.
Definition I64 := IntType 64.

Inductive IntPred : Set := IntEQ | IntNE | IntSLT.

(** [ir.InstAlloca]: a local variable, with the name set by [SetName]. *)
Record InstAlloca : Set := { alloca_name : string; alloca_elem : type }.

Inductive value : Set :=
| ConstInt (x : Z) (typ : type)           (* constant.NewInt *)
| Param (i : nat) (typ : type)            (* f.Sig.Params[i] *)
| FuncRef (a : Address)                   (* the *function at d.funcs[a] *)
| GlobalRef (a : Address)                 (* the *ir.Global at d.globals[a] *)
| Alloca (v : InstAlloca)
| Load (src : value)
| Add (x y : value)
| And (x y : value)
| Mul (x y : value)
| Xor (x y : value)
| ICmp (pred : IntPred) (x y : value)
| Call (callee : Address) (args : list value)
| GetElementPtr (src : value) (indices : list value).

(** [constant.False]. *)
Definition ConstFalse : value := ConstInt 0 I1.

(** A non-terminator instruction of a block: an instruction with a result,
    or a store. *)
Inductive inst : Set :=
| InstValue (v : value)
| InstStore (src dst : value).

(** A pointer to an [ir.BasicBlock]: the block stored in [f.blocks] under a
    key, or the synthetic entry block. *)
Inductive blockRef : Set :=
| EntryBlock
| BlockAt (key : Address).

Inductive terminator : Set :=
| TermBr (target : blockRef)
| TermCondBr (cond : value) (targetTrue targetFalse : blockRef)
| TermRet (x : option value).

Record irBasicBlock : Set := { Insts : list inst; Term : option terminator }.

Inductive CallConv : Set := CallConvNone | CallConvX86FastCall | CallConvOther (n : N).

Record FuncSig : Set := { Ret : type; Params : list type }.

Record irFunction : Set := {
  Name : string;
  Sig : FuncSig;
  Conv : CallConv;
  Blocks : list (blockRef * irBasicBlock)
}.

(** ** The translator's data *)

Record basicBlock : Set := {
  BasicBlock : irBasicBlock;
  addr : Address;
  insts : list instruction;
  term : instruction
}.

(** [StatusFlag] is a [uint] enumeration. *)
Abbreviation StatusFlag := N (only parsing).
Definition CF : StatusFlag := 0%N.
Definition PF : StatusFlag := 1%N.
Definition AF : StatusFlag := 2%N.
Definition ZF : StatusFlag := 3%N.
Definition SF : StatusFlag := 4%N.
Definition OF : StatusFlag := 5%N.

Record function : Type := {
  Function : option irFunction;             (* embedded *ir.Function *)
  entry : Address;
  blocks : gmap Z basicBlock;
  regs : gmap N InstAlloca;
  status : gmap N InstAlloca
}.

(** [ir.Global]: its type is a pointer to the content type. *)
Record Global : Set := { global_elem : type }.

Definition Global_Typ (g : Global) : type := PointerType (global_elem g).

(** ** Outcomes of a translation step *)

(** The values built by [errors.New] and [errors.Errorf]; [errors.WithStack]
    only attaches a stack trace and is the identity here. *)
Inductive error : Set :=
| ErrMissingBody              (* invalid function definition; missing function body *)
| ErrInvalidCallee (c : value) (* invalid callee type; expected *main.function, got %T *)
| ErrTrueBranches (n : nat)   (* invalid number of true branches; expected 1, got %d *)
| ErrNoBlock (a : Address).   (* unable to locate basic block at %v *)

(** The arguments of [panic], and the run-time panics of Go. *)
Inductive abort : Set :=
| PanicInstOp (op : Op)       (* support for instruction opcode %v not yet implemented *)
| PanicTermOp (op : Op)       (* support for terminator opcode %v not yet implemented *)
| PanicCondBranch (op : Op)   (* support for conditional branch instruction ... *)
| PanicArgType (arg : Arg)    (* support for argument type %T not yet implemented *)
| PanicReg (r : Reg)          (* support for register %v not yet implemented *)
| PanicGlobal (a : Address)   (* unable to locate global variable at %v *)
| PanicSrcType (t : type)     (* invalid source address type *)
| PanicIndexPointer           (* unable to index into element of pointer type *)
| PanicIndexType (t : type)   (* support for indexing element type %T not yet implemented *)
| PanicNilDeref               (* nil pointer dereference *)
| PanicIndexRange.            (* index out of range *)

Inductive result (A : Type) : Type :=
| Ok (f : function) (a : A)
| Err (f : function) (e : error)
| Panic (p : abort).

Arguments Ok {A} f a.
Arguments Err {A} f e.
Arguments Panic {A} p.

Definition M (A : Type) : Type := function → result A.

Global Instance M_ret : MRet M := λ A a f, Ok f a.

Global Instance M_bind : MBind M := λ A B k c f,
  match c f with
  | Ok f' a => k a f'
  | Err f' e => Err f' e
  | Panic p => Panic p
  end.

Definition throw {A} (e : error) : M A := λ f, Err f e.

Definition panic {A} (p : abort) : M A := λ _, Panic p.

Definition get : M function := λ f, Ok f f.

(** ** Updates of the function and of its blocks *)

Definition set_Function (F : option irFunction) (f : function) : function :=
  {| Function := F; entry := entry f; blocks := blocks f;
     regs := regs f; status := status f |}.

Definition set_blocks (m : gmap Z basicBlock) (f : function) : function :=
  {| Function := Function f; entry := entry f; blocks := m;
     regs := regs f; status := status f |}.

Definition set_regs (m : gmap N InstAlloca) (f : function) : function :=
  {| Function := Function f; entry := entry f; blocks := blocks f;
     regs := m; status := status f |}.

Definition set_status (m : gmap N InstAlloca) (f : function) : function :=
  {| Function := Function f; entry := entry f; blocks := blocks f;
     regs := regs f; status := m |}.

Definition ir_append (i : inst) (b : irBasicBlock) : irBasicBlock :=
  {| Insts := Insts b ++ [i]; Term := Term b |}.

Definition ir_setTerm (t : terminator) (b : irBasicBlock) : irBasicBlock :=
  {| Insts := Insts b; Term := Some t |}.

Definition on_ir (g : irBasicBlock → irBasicBlock) (b : basicBlock) : basicBlock :=
  {| BasicBlock := g (BasicBlock b); addr := addr b; insts := insts b;
     term := term b |}.

(** The block under [block] with one more instruction, or with the
    terminator [t]. *)
Definition append_inst (block : Address) (i : inst) (f : function) : function :=
  set_blocks (alter (on_ir (ir_append i)) block (blocks f)) f.

Definition set_term (block : Address) (t : terminator) (f : function) : function :=
  set_blocks (alter (on_ir (ir_setTerm t)) block (blocks f)) f.

(** The function with the cell [v] recorded for a register or a flag. *)
Definition alloc_reg (r : Reg) (v : InstAlloca) (f : function) : function :=
  set_regs (<[r := v]> (regs f)) f.

Definition alloc_status (s : StatusFlag) (v : InstAlloca) (f : function)
    : function :=
  set_status (<[s := v]> (status f)) f.

(** The methods of [ir.BasicBlock] used by the translator, on the block
    stored under [block]. *)
Definition AppendInst (block : Address) (i : inst) : M unit := λ f,
  Ok (append_inst block i f) tt.

Definition setTerm (block : Address) (t : terminator) : M unit := λ f,
  Ok (set_term block t f) tt.

Definition NewInst (block : Address) (v : value) : M value :=
  AppendInst block (InstValue v);; mret v.

Definition NewLoad (block : Address) (src : value) : M value :=
  NewInst block (Load src).

Definition NewStore (block : Address) (src dst : value) : M unit :=
  AppendInst block (InstStore src dst).

Definition NewBr (block : Address) (target : blockRef) : M unit :=
  setTerm block (TermBr target).

Definition NewCondBr (block : Address) (cond : value) (t e : blockRef) : M unit :=
  setTerm block (TermCondBr cond t e).

Definition NewRet (block : Address) (x : option value) : M unit :=
  setTerm block (TermRet x).

(** [types.Equal(t, types.Void)]. *)
Definition is_void (t : type) : bool :=
  match t with Void => true | _ => false end.

(** [f.Sig] and [f.CallConv] dereference the embedded [*ir.Function]. *)
Definition getFunction : M irFunction := λ f,
  match Function f with
  | Some F => Ok f F
  | None => Panic PanicNilDeref
  end.

(** ** Registers and status flags *)

Definition lower_ascii (c : ascii) : ascii :=
  let n := N_of_ascii c in
  if ((65 <=? n) && (n <=? 90))%N then ascii_of_N (n + 32) else c.

Fixpoint ToLower (s : string) : string :=
  match s with
  | EmptyString => EmptyString
  | String c s' => String (lower_ascii c) (ToLower s')
  end.

(** The type chosen by the switch of [reg]: [None] where it panics. *)
Definition reg_type (r : Reg) : option type :=
  if ((AL <=? r) && (r <=? R15B))%N then Some I8
  else if ((AX <=? r) && (r <=? R15W))%N then Some I16
  else if ((EAX <=? r) && (r <=? R15L))%N then Some I32
  else if ((RAX <=? r) && (r <=? R15))%N then Some I64
  else if (r =? IP)%N then Some I16
  else if (r =? EIP)%N then Some I32
  else if (r =? RIP)%N then Some I64
  else None.

Definition reg_cell (r : Reg) (typ : type) : InstAlloca :=
  {| alloca_name := ToLower (Reg_String r); alloca_elem := typ |}.

Definition reg (r : Reg) : M value := λ f,
  match regs f !! r with
  | Some v => Ok f (Alloca v)
  | None =>
      match reg_type r with
      | Some typ =>
          let v := reg_cell r typ in
          Ok (alloc_reg r v f) (Alloca v)
      | None => Panic (PanicReg r)
      end
  end.

Definition StatusFlag_String (s : StatusFlag) : string :=
  match s with
  | 0%N => "CF"
  | 1%N => "PF"
  | 2%N => "AF"
  | 3%N => "ZF"
  | 4%N => "SF"
  | 5%N => "OF"
  | _ => "unknown status flag " +:+ pretty s
  end.

Definition status_cell (s : StatusFlag) : InstAlloca :=
  {| alloca_name := ToLower (StatusFlag_String s); alloca_elem := I1 |}.

Definition status_ (s : StatusFlag) : M value := λ f,
  match status f !! s with
  | Some v => Ok f (Alloca v)
  | None =>
      let v := status_cell s in
      Ok (alloc_status s v f) (Alloca v)
  end.

Definition useStatus (block : Address) (s : StatusFlag) : M value :=
  src ← status_ s; NewLoad block src.

Definition defStatus (block : Address) (s : StatusFlag) (v : value) : M unit :=
  dst ← status_ s; NewStore block v dst.

(** ** The disassembler *)

(** The function table and the table of global variables.  The table of
    functions is keyed by entry address. *)
Record disassembler : Type := {
  funcs : gmap Z function;
  globals : gmap Z Global
}.

(** [sort.Search]: binary search for the least index in [0, n) at which [f]
    holds; the loop halves the interval, so [n] iterations are enough. *)
Fixpoint Search_loop (fuel : nat) (f : Z → bool) (i j : Z) : Z :=
  match fuel with
  | O => i
  | S fuel' =>
      if i <? j then
        let h := Z.shiftr (i + j) 1 in
        if negb (f h) then Search_loop fuel' f (h + 1) j
        else Search_loop fuel' f i h
      else i
  end.

Definition Search (n : Z) (f : Z → bool) : Z :=
  Search_loop (Z.to_nat n) f 0 n.

(** [sort.Sort(bin.Addresses(l))]. *)
Definition sortAddresses (l : list Address) : list Address :=
  merge_sort Z.le l.

(** [l[i]] for an index known to be in range. *)
Definition at_index (l : list Address) (i : Z) : Address :=
  default 0 (l !! Z.to_nat i).

(** [for ; j < t.Len; j++] of [getElementPtr], with [n] iterations left:
    the final [j] and [total]. *)
Fixpoint arrayLoop (n : nat) (elemSize offset j total : Z) : Z * Z :=
  match n with
  | O => (j, total)
  | S n' =>
      if offset <? add64 total elemSize then (j, total)
      else arrayLoop n' elemSize offset (j + 1) (add64 total elemSize)
  end.

Definition cons_index (j : Z) (r : abort + list value) : abort + list value :=
  match r with
  | inl p => inl p
  | inr l => inr (ConstInt j I64 :: l)
  end.

(** ["f_%06X"] of the entry address. *)
Definition hex_digit (n : N) : ascii :=
  default "0"%char (list_ascii_of_string "0123456789ABCDEF" !! N.to_nat n).

Fixpoint hex_loop (fuel : nat) (n : N) (acc : string) : string :=
  match fuel with
  | O => acc
  | S fuel' =>
      let acc' := String (hex_digit (n mod 16)) acc in
      if (n / 16 =? 0)%N then acc' else hex_loop fuel' (n / 16) acc'
  end.

Fixpoint zeros (n : nat) : string :=
  match n with O => EmptyString | S n' => String "0" (zeros n') end.

Definition func_name (entry : Address) : string :=
  let digits := hex_loop 16 (Z.to_N entry) EmptyString in
  "f_" +:+ zeros (6 - String.length digits) +:+ digits.

(** [for _, x := range l { if err := k(x); err != nil { return err } }]. *)
Fixpoint forM_ {A} (l : list A) (k : A → M unit) : M unit :=
  match l with
  | [] => mret tt
  | x :: l' => k x;; forM_ l' k
  end.

(** The registers AL..TR7 and the status flags CF..OF in enumeration
    order. *)
Definition all_regs : list Reg := N.of_nat <$> seq 1 154.
Definition all_status : list StatusFlag := N.of_nat <$> seq 0 6.

Section translator.

Context (d : disassembler).

(** Methods of the disassembler and of [instruction] defined in other
    files of the package: the byte size of a type, the target addresses
    of a branch operand, the tail-call test and the test for the
    synthetic fall-through terminator. *)
Variable sizeOfType : type → Z.
Variable getAddrs : Address → Arg → list Address.
Variable isTailCall : Address → instruction → bool.
Variable isDummyTerm : instruction → bool.

(** *** Global memory model *)

(** The loop of [getElementPtr] from its second iteration on: the
    structural indices that lead from [e] to byte [offset], [total] bytes
    being accounted for.  The field loop of the struct case continues
    with the field at which it stops. *)
Fixpoint gepWalk (e : type) (total offset : Z) {struct e} : abort + list value :=
  if offset <=? total then inr []
  else
    match e with
    | PointerType _ => inl PanicIndexPointer
    | ArrayType len elem =>
        let elemSize := sizeOfType elem in
        let '(j, total') := arrayLoop (Z.to_nat len) elemSize offset 0 total in
        cons_index j (gepWalk elem total' offset)
    | StructType fields =>
        (fix fieldLoop (fs : list type) (j total : Z) {struct fs} :=
           match fs with
           | [] => inl PanicIndexRange
           | t :: fs' =>
               let fieldSize := sizeOfType t in
               if offset <? add64 total fieldSize
               then cons_index j (gepWalk t total offset)
               else fieldLoop fs' (j + 1) (add64 total fieldSize)
           end) fields 0 total
    | t => inl (PanicIndexType t)
    end.

(** [srcType] is [src.Type()]. *)
Definition getElementPtr (block : Address) (src : value) (srcType : type)
    (offset : Z) : M value :=
  match srcType with
  | PointerType elem =>
      if offset <=? 0 then NewInst block (GetElementPtr src [])
      else
        match gepWalk elem 0 offset with
        | inr indices =>
            NewInst block (GetElementPtr src (ConstInt 0 I64 :: indices))
        | inl p => panic p
        end
  | t => panic (PanicSrcType t)
  end.

Definition globalAddrs : list Address :=
  sortAddresses (map_to_list (globals d)).*1.

Definition global (block : Address) (a : Address) : M value :=
  match globals d !! a with
  | Some _ => mret (GlobalRef a)
  | None =>
      let n := Z.of_nat (length globalAddrs) in
      let index := Search n (λ i, a <? at_index globalAddrs i) - 1 in
      if (0 <=? index) && (index <? n) then
        let start := at_index globalAddrs index in
        match globals d !! start with
        | Some g =>
            let size := sizeOfType (global_elem g) in
            let end_ := addr_add start (wrap64 size) in
            if (start <=? a) && (a <? end_) then
              let offset := swrap64 (addr_sub a start) in
              getElementPtr block (GlobalRef start) (Global_Typ g) offset
            else panic (PanicGlobal a)
        | None => panic PanicNilDeref
        end
      else panic (PanicGlobal a)
  end.

Definition useGlobal (block : Address) (a : Address) : M value :=
  src ← global block a; NewLoad block src.

Definition defGlobal (block : Address) (a : Address) (v : value) : M unit :=
  dst ← global block a; NewStore block v dst.

(** *** Operand resolver *)

Definition bare_disp (m : Mem) : bool :=
  ((Segment m =? 0) && (Base m =? 0) && (Scale m =? 0) && (Index m =? 0))%N.

(** [inst] is [None] where the caller passes a nil instruction. *)
Definition useArg (block : Address) (inst : option instruction) (arg : Arg)
    : M value :=
  match arg with
  | ArgReg r => src ← reg r; NewLoad block src
  | ArgMem m =>
      if bare_disp m then useGlobal block (wrap64 (Disp m))
      else panic (PanicArgType arg)
  | ArgImm i => mret (ConstInt i I32)
  | ArgRel r =>
      match inst with
      | Some inst =>
          let a := addr_add (addr_add (inst_addr inst) (wrap64 (Len inst)))
                            (wrap64 r) in
          match funcs d !! a with
          | Some _ => mret (FuncRef a)
          | None => useGlobal block a
          end
      | None => panic PanicNilDeref
      end
  | ArgNil => panic (PanicArgType arg)
  end.

Definition defArg (block : Address) (inst : option instruction) (arg : Arg)
    (v : value) : M unit :=
  match arg with
  | ArgReg r => dst ← reg r; NewStore block v dst
  | ArgMem m =>
      if bare_disp m then defGlobal block (wrap64 (Disp m)) v
      else panic (PanicArgType arg)
  | _ => panic (PanicArgType arg)
  end.

(** *** Status flags of a comparison *)

Definition updateStatusFlags (block : Address) (x y : value) : M unit :=
  zf ← NewInst block (ICmp IntEQ x y);
  defStatus block ZF zf;;
  sf ← NewInst block (ICmp IntSLT x y);
  defStatus block SF sf.

(** *** Instruction translator *)

(** The [*ir.Function] of the callee [d.funcs[a]]; the function under
    translation is its own entry of the table. *)
Definition calleeFunction (a : Address) : M irFunction := λ f,
  if bool_decide (a = entry f) then getFunction f
  else
    match funcs d !! a ≫= Function with
    | Some F => Ok f F
    | None => Panic PanicNilDeref
    end.

Definition instADD (block : Address) (inst : instruction) : M unit :=
  x ← useArg block (Some inst) (arg_at inst 0);
  y ← useArg block (Some inst) (arg_at inst 1);
  result ← NewInst block (Add x y);
  defArg block (Some inst) (arg_at inst 0) result.

Definition instAND (block : Address) (inst : instruction) : M unit :=
  x ← useArg block (Some inst) (arg_at inst 0);
  y ← useArg block (Some inst) (arg_at inst 1);
  result ← NewInst block (And x y);
  defArg block (Some inst) (arg_at inst 0) result.

Definition instCALL (block : Address) (inst : instruction) : M unit :=
  c ← useArg block (Some inst) (arg_at inst 0);
  match c with
  | FuncRef callee =>
      F ← calleeFunction callee;
      args ←
        match Conv F with
        | CallConvX86FastCall =>
            let params := Params (Sig F) in
            args0 ← (if (0 <? length params)%nat
                     then arg ← useArg block None (ArgReg ECX); mret [arg]
                     else mret []);
            args1 ← (if (1 <? length params)%nat
                     then arg ← useArg block None (ArgReg EDX); mret [arg]
                     else mret []);
            mret (args0 ++ args1)
        | _ => mret []
        end;
      result ← NewInst block (Call callee args);
      if negb (is_void (Ret (Sig F)))
      then defArg block None (ArgReg EAX) result
      else mret tt
  | _ => throw (ErrInvalidCallee c)
  end.

Definition instCMP (block : Address) (inst : instruction) : M unit :=
  x ← useArg block (Some inst) (arg_at inst 0);
  y ← useArg block (Some inst) (arg_at inst 1);
  updateStatusFlags block x y.

Definition instIMUL (block : Address) (inst : instruction) : M unit :=
  x ← useArg block (Some inst) (arg_at inst 1);
  y ← useArg block (Some inst) (arg_at inst 2);
  result ← NewInst block (Mul x y);
  defArg block (Some inst) (arg_at inst 0) result.

Definition instINC (block : Address) (inst : instruction) : M unit :=
  x ← useArg block (Some inst) (arg_at inst 0);
  let one := ConstInt 1 I32 in
  result ← NewInst block (Add x one);
  defArg block (Some inst) (arg_at inst 0) result.

Definition instMOV (block : Address) (inst : instruction) : M unit :=
  y ← useArg block (Some inst) (arg_at inst 1);
  defArg block (Some inst) (arg_at inst 0) y.

Definition instXOR (block : Address) (inst : instruction) : M unit :=
  x ← useArg block (Some inst) (arg_at inst 0);
  y ← useArg block (Some inst) (arg_at inst 1);
  result ← NewInst block (Xor x y);
  defArg block (Some inst) (arg_at inst 0) result.

Definition translateInst (block : Address) (inst : instruction) : M unit :=
  match Op_ inst with
  | ADD => instADD block inst
  | AND => instAND block inst
  | CALL => instCALL block inst
  | CMP => instCMP block inst
  | IMUL => instIMUL block inst
  | INC => instINC block inst
  | MOV => instMOV block inst
  | PUSH | POP => mret tt
  | XOR => instXOR block inst
  | op => panic (PanicInstOp op)
  end.

(** *** Terminator translator *)

Definition termCondBranch (block : Address) (term : instruction) : M unit :=
  let next := addr_add (inst_addr term) (wrap64 (Len term)) in
  let targetTrueAddrs := getAddrs next (arg_at term 0) in
  match targetTrueAddrs with
  | [targetTrueAddr] =>
      f ← get;
      match blocks f !! targetTrueAddr with
      | None => throw (ErrNoBlock targetTrueAddr)
      | Some _ =>
          let targetFalseAddr := next in
          match blocks f !! targetFalseAddr with
          | None => throw (ErrNoBlock targetTrueAddr)
          | Some _ =>
              cond ←
                match Op_ term with
                | JL =>
                    sf ← useStatus block SF;
                    of_ ← useStatus block OF;
                    NewInst block (ICmp IntNE sf of_)
                | JG =>
                    sf ← useStatus block SF;
                    of_ ← useStatus block OF;
                    zf ← useStatus block ZF;
                    cond1 ← NewInst block (ICmp IntEQ zf ConstFalse);
                    cond2 ← NewInst block (ICmp IntEQ sf of_);
                    NewInst block (And cond1 cond2)
                | JNE =>
                    zf ← useStatus block ZF;
                    NewInst block (ICmp IntEQ zf ConstFalse)
                | op => panic (PanicCondBranch op)
                end;
              NewCondBr block cond (BlockAt targetTrueAddr)
                        (BlockAt targetFalseAddr)
          end
      end
  | _ => throw (ErrTrueBranches (length targetTrueAddrs))
  end.

(** The return of a function: the value of EAX unless the function
    returns void. *)
Definition termRET (block : Address) (term : instruction) : M unit :=
  F ← getFunction;
  if negb (is_void (Ret (Sig F))) then
    result ← useArg block None (ArgReg EAX);
    NewRet block (Some result)
  else NewRet block None.

Definition termJMP (block : Address) (term : instruction) : M unit :=
  f ← get;
  if isTailCall (entry f) term then
    instCALL block term;;
    F ← getFunction;
    if negb (is_void (Ret (Sig F))) then
      result ← useArg block None (ArgReg EAX);
      NewRet block (Some result)
    else NewRet block None
  else panic (PanicTermOp (Op_ term)).

Definition translateTerm (block : Address) (term : instruction) : M unit :=
  if isDummyTerm term then
    f ← get;
    match blocks f !! inst_addr term with
    | None => throw (ErrNoBlock (inst_addr term))
    | Some _ => NewBr block (BlockAt (inst_addr term))
    end
  else
    match Op_ term with
    | JA | JAE | JB | JBE | JCXZ | JE | JECXZ | JG | JGE | JL | JLE | JNE
    | JNO | JNP | JNS | JO | JP | JRCXZ | JS => termCondBranch block term
    | JMP => termJMP block term
    | RET => termRET block term
    | op => panic (PanicTermOp op)
    end.

(** *** Function/block assembler *)

(** [block] is the key of the block in [f.blocks]; a key without a block
    is a nil [*basicBlock]. *)
Definition translateBlock (block : Address) : M unit :=
  f ← get;
  match blocks f !! block with
  | None => panic PanicNilDeref
  | Some b =>
      forM_ (insts b) (translateInst block);;
      translateTerm block (term b)
  end.

(** [blocks[i].addr] for the block stored under [key]. *)
Definition addr_of (f : function) (key : Address) : Address :=
  default 0 (addr <$> blocks f !! key).

Definition addr_le (f : function) (k1 k2 : Address) : Prop :=
  addr_of f k1 ≤ addr_of f k2.

Global Instance addr_le_dec f : RelDecision (addr_le f).
Proof. intros k1 k2. unfold addr_le. apply _. Defined.

(** [sort.Slice(blocks, less)]. *)
Definition sortBlocks (f : function) (keys : list Address) : list Address :=
  merge_sort (addr_le f) keys.

(** The [ir.Function] created for a function without signature: void, no
    parameters, default calling convention.  Its metadata node, which
    records the address and which no translation step reads, is left
    out. *)
Definition new_Function (entry : Address) : irFunction :=
  {| Name := func_name entry;
     Sig := {| Ret := Void; Params := [] |};
     Conv := CallConvNone;
     Blocks := [] |}.

(** The synthetic entry block. *)
Definition entry_allocas (f : function) : list inst :=
  ((InstValue ∘ Alloca) <$> omap (λ r, regs f !! r) all_regs)
  ++ ((InstValue ∘ Alloca) <$> omap (λ s, status f !! s) all_status).

Definition entry_param (F : irFunction) (i : nat) (r : Reg) (f : function)
    : list inst :=
  match Params (Sig F) !! i, regs f !! r with
  | Some typ, Some cell => [InstStore (Param i typ) (Alloca cell)]
  | _, _ => []
  end.

Definition entry_stores (F : irFunction) (f : function) : list inst :=
  match Conv F with
  | CallConvX86FastCall => entry_param F 0 ECX f ++ entry_param F 1 EDX f
  | _ => []
  end.

Definition entry_block (F : irFunction) (f : function) (target : Address)
    : irBasicBlock :=
  {| Insts := entry_allocas f ++ entry_stores F f;
     Term := Some (TermBr (BlockAt target)) |}.

Definition ir_of (f : function) (key : Address) : irBasicBlock :=
  default {| Insts := []; Term := None |} (BasicBlock <$> blocks f !! key).

Definition AppendBlocks (bs : list (blockRef * irBasicBlock)) : M unit := λ f,
  match Function f with
  | Some F =>
      Ok (set_Function
            (Some {| Name := Name F; Sig := Sig F; Conv := Conv F;
                     Blocks := Blocks F ++ bs |}) f) tt
  | None => Panic PanicNilDeref
  end.

Definition init_Function : M unit := λ f,
  match Function f with
  | Some _ => Ok f tt
  | None => Ok (set_Function (Some (new_Function (entry f))) f) tt
  end.

Definition translateFunc : M unit :=
  init_Function;;
  f0 ← get;
  let blockAddrs := sortAddresses (addr <$> (map_to_list (blocks f0)).*2) in
  forM_ blockAddrs translateBlock;;
  let blocks_ := blockAddrs in
  match blocks_ with
  | [] => throw ErrMissingBody
  | _ =>
      f ← get;
      F ← getFunction;
      let blocks_ := sortBlocks f blocks_ in
      let real := (λ k, (BlockAt k, ir_of f k)) <$> blocks_ in
      if (0 <? size (regs f))%nat || (0 <? size (status f))%nat then
        let target := default 0 (head blocks_) in
        AppendBlocks ((EntryBlock, entry_block F f target) :: real)
      else AppendBlocks real
  end.

End translator.

(** ** Observations on a function *)

(** The blocks appended so far to the IR function body. *)
Definition body (f : function) : list (blockRef * irBasicBlock) :=
  match Function f with
  | Some F => Blocks F
  | None => []
  end.

(** The fields of a block the translation reads but never writes. *)
Definition static (b : basicBlock) : Address * list instruction * instruction :=
  (addr b, insts b, term b).

(** [f'] is [f] after some translation steps inside blocks: the signature
    and the body are untouched, cells are only added, blocks only receive
    IR. *)
Record grows (f f' : function) : Prop := {
  grows_Function : Function f' = Function f;
  grows_entry : entry f' = entry f;
  grows_regs : regs f ⊆ regs f';
  grows_status : status f ⊆ status f';
  grows_blocks : static <$> blocks f' = static <$> blocks f
}.

(** Every cell is the one [reg] or [status] allocates for its key. *)
Definition wf_cells (f : function) : Prop :=
  (∀ r v, regs f !! r = Some v →
          ∃ typ, reg_type r = Some typ ∧ v = reg_cell r typ) ∧
  (∀ s v, status f !! s = Some v → (s ≤ OF)%N ∧ v = status_cell s).

Record step (f f' : function) : Prop := {
  step_grows : grows f f';
  step_wf : wf_cells f → wf_cells f'
}.

(** A computation is [sound] when every state it ends in, with a value or
    with an error, is a [step] from the state it started in. *)
Definition sound {A} (c : M A) : Prop :=
  ∀ f, match c f with
       | Ok f' _ | Err f' _ => step f f'
       | Panic _ => True
       end.

Definition is_store (i : inst) : bool :=
  match i with InstStore _ _ => true | InstValue _ => false end.

(** Every key of the block map is the address of its block. *)
Definition wf_blocks (f : function) : Prop :=
  map_Forall (λ k b, addr b = k) (blocks f).

(** ** Inputs used in the examples *)

Definition mkInst (op : Op) (args : list Arg) (len : Z) (a : Address)
    : instruction :=
  {| Op_ := op; Args := args; Len := len; inst_addr := a |}.

Definition emptyIR : irBasicBlock := {| Insts := []; Term := None |}.

Definition mkBlock (a : Address) (ins : list instruction) (t : instruction)
    : basicBlock :=
  {| BasicBlock := emptyIR; addr := a; insts := ins; term := t |}.

Definition mkFunction (F : option irFunction) (e : Address)
    (bs : gmap Z basicBlock) : function :=
  {| Function := F; entry := e; blocks := bs; regs := ∅; status := ∅ |}.

Definition mkSig (ret : type) (params : list type) (cc : CallConv)
    : irFunction :=
  {| Name := "f"; Sig := {| Ret := ret; Params := params |}; Conv := cc;
     Blocks := [] |}.

(** Modelled from the spec: the size in bytes of a type, which the missing
    method [sizeOfType] computes; integers take their width in bytes, an
    array the sum of its elements and a structure the sum of its fields. *)
Fixpoint sizeOfType_model (t : type) : Z :=
  match t with
  | IntType bits => Z.of_N bits / 8
  | PointerType _ => 4
  | ArrayType len elem => len * sizeOfType_model elem
  | StructType fields =>
      (fix sum (fs : list type) : Z :=
         match fs with
         | [] => 0
         | t :: fs' => sizeOfType_model t + sum fs'
         end) fields
  | _ => 0
  end.

(** Modelled from the spec: the missing method [getAddrs], for a relative
    operand: the address following the branch plus the displacement. *)
Definition getAddrs_model (next : Address) (arg : Arg) : list Address :=
  match arg with
  | ArgRel r => [addr_add next (wrap64 r)]
  | _ => []
  end.

(** Modelled from the spec: the missing method [isDummyTerm]; a synthetic
    fall-through terminator has no real opcode. *)
Definition isDummyTerm_model (term : instruction) : bool :=
  match Op_ term with OtherOp 0 => true | _ => false end.

Definition no_tail_call (entry : Address) (term : instruction) : bool := false.
Definition all_tail_calls (entry : Address) (term : instruction) : bool := true.

Definition no_tables : disassembler := {| funcs := ∅; globals := ∅ |}.

(** A function of three blocks: a comparison and a conditional branch, an
    addition that falls through, and a return. *)
Definition demo_sig : irFunction := mkSig I32 [I32; I32] CallConvX86FastCall.

Definition demo_cmp : instruction := mkInst CMP [ArgReg EAX; ArgImm 5] 3 4096.
Definition demo_jne : instruction := mkInst JNE [ArgRel 16] 2 4110.
Definition demo_add : instruction := mkInst ADD [ArgReg EAX; ArgReg ECX] 2 4112.
Definition demo_fall : instruction := mkInst (OtherOp 0) [] 0 4128.
Definition demo_ret : instruction := mkInst RET [] 1 4128.

Definition demo_blocks : gmap Z basicBlock :=
  {[ 4096 := mkBlock 4096 [demo_cmp] demo_jne;
     4112 := mkBlock 4112 [demo_add] demo_fall;
     4128 := mkBlock 4128 [] demo_ret ]}.

Definition demo : function := mkFunction (Some demo_sig) 4096 demo_blocks.

Definition translate_demo (f : function) : result unit :=
  translateFunc no_tables sizeOfType_model getAddrs_model no_tail_call
    isDummyTerm_model f.

Definition final (f : function) : function :=
  match translate_demo f with
  | Ok f' _ | Err f' _ => f'
  | Panic _ => f
  end.

(** A function whose second block branches to an address that is not a
    block. *)
Definition stray_jne : instruction := mkInst JNE [ArgRel 100] 2 4126.
Definition stray_fall : instruction := mkInst (OtherOp 0) [] 0 4112.

Definition stray : function :=
  mkFunction (Some demo_sig) 4096
    {[ 4096 := mkBlock 4096 [demo_cmp] stray_fall;
       4112 := mkBlock 4112 [] stray_jne;
       4128 := mkBlock 4128 [] demo_ret ]}.

(** A function with blocks at 4096 and 4128 only: the branch [demo_jne]
    has its true target, 4128, but not the block that follows it, 4112. *)
Definition gap : function :=
  mkFunction (Some demo_sig) 4096
    {[ 4096 := mkBlock 4096 [demo_cmp] demo_jne;
       4128 := mkBlock 4128 [] demo_ret ]}.

(** A function without blocks. *)
Definition hollow : function := mkFunction None 4096 ∅.

(** An array of four 32-bit integers at 8192 and an integer at 8300. *)
Definition demo_tables : disassembler :=
  {| funcs := ∅;
     globals := {[ 8192 := {| global_elem := ArrayType 4 I32 |};
                   8300 := {| global_elem := I32 |} ]} |}.

(** ** The phases of [translateFunc] *)

(** The function once [f.Function] is set. *)
Definition init (f : function) : function :=
  match Function f with
  | Some _ => f
  | None => set_Function (Some (new_Function (entry f))) f
  end.

(** The keys in the order in which the blocks are translated. *)
Definition blockAddrs_of (f : function) : list Address :=
  sortAddresses (addr <$> (map_to_list (blocks f)).*2).

Definition uses_cells (f : function) : bool :=
  (0 <? size (regs f))%nat || (0 <? size (status f))%nat.

(** The real blocks of the body, for the translated keys. *)
Definition real_blocks (f : function) (keys : list Address)
    : list (blockRef * irBasicBlock) :=
  (λ k, (BlockAt k, ir_of f k)) <$> sortBlocks f keys.

(** The blocks appended to the body. *)
Definition emitted_blocks (F : irFunction) (f : function) (keys : list Address)
    : list (blockRef * irBasicBlock) :=
  if uses_cells f
  then (EntryBlock, entry_block F f (default 0 (head (sortBlocks f keys))))
         :: real_blocks f keys
  else real_blocks f keys.

Definition with_Blocks (F : irFunction) (bs : list (blockRef * irBasicBlock))
    : irFunction :=
  {| Name := Name F; Sig := Sig F; Conv := Conv F; Blocks := bs |}.

(** The keys of a map of cells that occur in an enumeration, in the order
    of the enumeration. *)
Definition used (m : gmap N InstAlloca) (enum : list N) : list N :=
  filter (λ k, is_Some (m !! k)) enum.

Definition declare (m : gmap N InstAlloca) (keys : list N) : list inst :=
  (InstValue ∘ Alloca) <$> omap (λ k, m !! k) keys.

(** The IR of the block under [block]. *)
Definition ir_at (f : function) (block : Address) : option irBasicBlock :=
  BasicBlock <$> blocks f !! block.

(** The cell [status] returns for a flag, and the cell [reg] returns for a
    register of known width. *)
Definition status_cell_of (f : function) (s : StatusFlag) : InstAlloca :=
  default (status_cell s) (status f !! s).

Definition reg_cell_of (f : function) (r : Reg) (typ : type) : InstAlloca :=
  default (reg_cell r typ) (regs f !! r).

(** The address that follows a terminator. *)
Definition next_addr (term : instruction) : Address :=
  addr_add (inst_addr term) (wrap64 (Len term)).

(** The block [b] with the instructions [l] appended. *)
Definition extends_ir (l : list inst) (b : irBasicBlock) : irBasicBlock :=
  {| Insts := Insts b ++ l; Term := Term b |}.

(** [f'] is [f] with the instructions [l], none of them a store, appended
    to the block under [block], and possibly with more register cells. *)
Record loads (block : Address) (l : list inst) (f f' : function) : Prop := {
  loads_ir : ir_at f' block = extends_ir l <$> ir_at f block;
  loads_pure : Forall (λ i, is_store i = false) l;
  loads_status : status f' = status f
}.


(** ** What a translation step writes *)

(** The cell [c] is recorded for a register or for a status flag. *)
Definition declared (f : function) (c : InstAlloca) : Prop :=
  (∃ r : Reg, regs f !! r = Some c) ∨ (∃ s : StatusFlag, status f !! s = Some c).

(** Every cell that occurs in a value, an instruction, a terminator or a
    block satisfies [D]. *)
Fixpoint val_cells (D : InstAlloca → Prop) (v : value) : Prop :=
  match v with
  | ConstInt _ _ | Param _ _ | FuncRef _ | GlobalRef _ => True
  | Alloca c => D c
  | Load src => val_cells D src
  | Add x y | And x y | Mul x y | Xor x y | ICmp _ x y =>
      val_cells D x ∧ val_cells D y
  | Call _ args =>
      (fix all (l : list value) : Prop :=
         match l with
         | [] => True
         | a :: l' => val_cells D a ∧ all l'
         end) args
  | GetElementPtr src indices =>
      val_cells D src ∧
      (fix all (l : list value) : Prop :=
         match l with
         | [] => True
         | a :: l' => val_cells D a ∧ all l'
         end) indices
  end.

Definition inst_cells (D : InstAlloca → Prop) (i : inst) : Prop :=
  match i with
  | InstValue v => val_cells D v
  | InstStore src dst => val_cells D src ∧ val_cells D dst
  end.

Definition term_cells (D : InstAlloca → Prop) (t : terminator) : Prop :=
  match t with
  | TermBr _ => True
  | TermCondBr cond _ _ => val_cells D cond
  | TermRet (Some x) => val_cells D x
  | TermRet None => True
  end.

Definition ir_cells (D : InstAlloca → Prop) (b : irBasicBlock) : Prop :=
  Forall (inst_cells D) (Insts b) ∧
  match Term b with Some t => term_cells D t | None => True end.

(** The code of every block refers to recorded cells only. *)
Definition decl (f : function) : Prop :=
  map_Forall (λ _ b, ir_cells (declared f) (BasicBlock b)) (blocks f).

(** [f'] is [f] after steps that write into the block under [block] only:
    cells are added, the other blocks are the same, the block has its
    instructions followed by new ones, and the fields read by the
    translation are the same. *)
Record writes (block : Address) (f f' : function) : Prop := {
  writes_regs : regs f ⊆ regs f';
  writes_status : status f ⊆ status f';
  writes_frame : ∀ k, k ≠ block → blocks f' !! k = blocks f !! k;
  writes_prefix :
    ∀ b, ir_at f block = Some b →
         ∃ b', ir_at f' block = Some b' ∧ Insts b `prefix_of` Insts b'
}.

(** The outcome of [c] from any state: it writes into [block] only; an
    error it returns satisfies [E]; if the state satisfied [P] and its code
    referred to recorded cells only, so does the code of the state it ends
    in, and the value returned satisfies [Q]. *)
Definition triple {A} (block : Address) (P : function → Prop) (c : M A)
    (Q : A → function → Prop) (E : error → Prop) : Prop :=
  ∀ f,
    match c f with
    | Ok f' a => writes block f f' ∧ (P f → decl f → decl f' ∧ Q a f')
    | Err f' e => writes block f f' ∧ E e ∧ (P f → decl f → decl f')
    | Panic _ => True
    end.

(** [P] survives the steps that write into [block]. *)
Definition mono (block : Address) (P : function → Prop) : Prop :=
  ∀ f f', writes block f f' → P f → P f'.

(** The value refers to recorded cells only. *)
Definition recorded (v : value) (f : function) : Prop :=
  val_cells (declared f) v.

(** The errors of an instruction: a call whose operand is no function. *)
Definition invalid_callee (e : error) : Prop :=
  ∃ c, e = ErrInvalidCallee c ∧ ∀ a, c ≠ FuncRef a.

(** The errors of a conditional branch or of a dummy terminator: a target
    that is no block of the function, or a number of true branches other
    than one. *)
Definition branch_error (e : error) : Prop :=
  (∃ a, e = ErrNoBlock a) ∨ (∃ n, e = ErrTrueBranches n ∧ n ≠ 1%nat).


(** The arguments of a call of [F]: for the fastcall convention the
    values of ECX and EDX, as many as the callee has parameters; none for
    the other conventions.  The cells are the ones of [f]. *)
Definition call_args (F : irFunction) (f : function) : list value :=
  match Conv F with
  | CallConvX86FastCall =>
      take (length (Params (Sig F)))
        [Load (Alloca (reg_cell_of f ECX I32));
         Load (Alloca (reg_cell_of f EDX I32))]
  | _ => []
  end.

(** The store of the result of a call into EAX, unless the callee returns
    void. *)
Definition call_result (F : irFunction) (f : function) (result : value)
    : list inst :=
  if is_void (Ret (Sig F)) then []
  else [InstStore result (Alloca (reg_cell_of f EAX I32))].

(** The name that an instruction of the entry block defines. *)
Definition inst_name (i : inst) : option string :=
  match i with
  | InstValue (Alloca c) => Some (alloca_name c)
  | _ => None
  end.

(** The value of a hexadecimal digit, and of a string of digits read from
    the left, [v] being the value of the digits already read. *)
Definition digit_value (c : ascii) : N :=
  let n := N_of_ascii c in
  if (n <? 58)%N then n - 48 else n - 55.

Fixpoint unhex (s : string) (v : N) : N :=
  match s with
  | EmptyString => v
  | String c s' => unhex s' (16 * v + digit_value c)
  end.

(** The address in the name of a function: the hexadecimal number after
    the prefix ["f_"]. *)
Definition name_address (name : string) : N :=
  match name with
  | String _ (String _ digits) => unhex digits 0
  | _ => 0
  end.

(** ** The control-flow graph *)

(** The blocks a terminator branches to. *)
Definition term_targets (t : terminator) : list blockRef :=
  match t with
  | TermBr target => [target]
  | TermCondBr _ targetTrue targetFalse => [targetTrue; targetFalse]
  | TermRet _ => []
  end.

(** The reference names a block of the function. *)
Definition is_block (f : function) (r : blockRef) : Prop :=
  match r with
  | BlockAt a => is_Some (blocks f !! a)
  | EntryBlock => False
  end.

(** The block under [k] has a terminator, and the terminator branches to
    blocks of the function. *)
Definition terminated (f : function) (k : Address) : Prop :=
  ∃ b t, ir_at f k = Some b ∧ Term b = Some t
         ∧ Forall (is_block f) (term_targets t).

(** The cell is allocated by an instruction of the first block of [bs],
    the entry block. *)
Definition allocated (bs : list (blockRef * irBasicBlock)) (c : InstAlloca)
    : Prop :=
  ∃ e, head bs = Some (EntryBlock, e) ∧ InstValue (Alloca c) ∈ Insts e.

(** ** Element paths *)

(** The field loop of [getElementPtr] on the fields [fs], the first of
    them at position [j], with [total] bytes accounted for. *)
Fixpoint fieldLoop (sizeOfType : type → Z) (offset : Z) (fs : list type)
    (j total : Z) : abort + list value :=
  match fs with
  | [] => inl PanicIndexRange
  | t :: fs' =>
      let fieldSize := sizeOfType t in
      if offset <? add64 total fieldSize
      then cons_index j (gepWalk sizeOfType t total offset)
      else fieldLoop sizeOfType offset fs' (j + 1) (add64 total fieldSize)
  end.

Definition sum_sizes (sizeOfType : type → Z) (ts : list type) : Z :=
  foldr Z.add 0 (sizeOfType <$> ts).

(** The byte offset of the element that the structural indices [path]
    select in a value of type [e]: index [j] of an array skips [j]
    elements, index [j] of a structure skips its first [j] fields. *)
Fixpoint path_offset (sizeOfType : type → Z) (e : type) (path : list value)
    : option Z :=
  match path with
  | [] => Some 0
  | ConstInt j _ :: rest =>
      if j <? 0 then None
      else
        match e with
        | ArrayType _ elem =>
            (λ o, j * sizeOfType elem + o) <$> path_offset sizeOfType elem rest
        | StructType fields =>
            match fields !! Z.to_nat j with
            | Some t =>
                (λ o, sum_sizes sizeOfType (take (Z.to_nat j) fields) + o)
                <$> path_offset sizeOfType t rest
            | None => None
            end
        | _ => None
        end
  | _ => None
  end.

(** The sizes of the components of a type are non-negative and below
    [2^62]. *)
Fixpoint fits (sizeOfType : type → Z) (e : type) : Prop :=
  match e with
  | ArrayType _ elem => 0 ≤ sizeOfType elem < 2 ^ 62 ∧ fits sizeOfType elem
  | StructType fields =>
      (fix all (fs : list type) : Prop :=
         match fs with
         | [] => True
         | t :: fs' => (0 ≤ sizeOfType t < 2 ^ 62 ∧ fits sizeOfType t) ∧ all fs'
         end) fields
  | _ => True
  end.

(** A structural index: a 64-bit integer constant. *)
Definition is_index (v : value) : Prop := ∃ j, v = ConstInt j I64.

(** ** Further inputs used in the examples *)

(** The state in which a run ended. *)
Definition state_of {A} (r : result A) (f : function) : function :=
  match r with
  | Ok f' _ | Err f' _ => f'
  | Panic _ => f
  end.

(** A structure of an integer, an array of four integers and an integer at
    12288. *)
Definition nested_tables : disassembler :=
  {| funcs := ∅;
     globals :=
       {[ 12288 := {| global_elem := StructType [I32; ArrayType 4 I32; I32] |} ]} |}.

(** A call whose operand is an immediate. *)
Definition bad_call : instruction := mkInst CALL [ArgImm 5] 5 4096.

Definition demo_mov : instruction := mkInst MOV [ArgReg EAX; ArgImm 7] 5 4096.
Definition demo_imul : instruction := mkInst IMUL [ArgReg EAX; ArgImm 21] 3 4096.

(** A fastcall function of two parameters at 8192, and a call of it from
    12288: the displacement is negative. *)
Definition callee : function := mkFunction (Some demo_sig) 8192 ∅.

Definition call_tables : disassembler :=
  {| funcs := {[ 8192 := callee ]}; globals := ∅ |}.

Definition back_call : instruction := mkInst CALL [ArgRel (-4101)] 5 12288.

(** The blocks of the example in a function without IR function. *)
Definition nameless : function := mkFunction None 4096 demo_blocks.

Definition translate_block_demo (block : Address) (f : function) : result unit :=
  translateBlock no_tables sizeOfType_model getAddrs_model no_tail_call
    isDummyTerm_model block f.

Definition translate_inst_demo (block : Address) (inst : instruction)
    (f : function) : result unit :=
  translateInst no_tables sizeOfType_model block inst f.

(** ** Functions that a block translation cannot tell apart *)

(** [f] and [g] agree on everything the translation of the block under
    [block] reads: the IR function, the entry address, the block itself
    and the set of block addresses; their cells are the ones [reg] and
    [status] create.  They may differ in the IR of the other blocks and in
    the cells recorded so far. *)
Record sim (block : Address) (f g : function) : Prop := {
  sim_wf_l : wf_cells f;
  sim_wf_r : wf_cells g;
  sim_Function : Function f = Function g;
  sim_entry : entry f = entry g;
  sim_block : blocks f !! block = blocks g !! block;
  sim_dom : ∀ k, is_Some (blocks f !! k) ↔ is_Some (blocks g !! k)
}.

(** The outcomes of two runs agree: the same value, error or abort, in
    states the translation of the block still cannot tell apart. *)
Definition same_outcome {A} (block : Address) (r1 r2 : result A) : Prop :=
  match r1, r2 with
  | Ok f' a, Ok g' b => a = b ∧ sim block f' g'
  | Err f' e, Err g' e' => e = e' ∧ sim block f' g'
  | Panic p, Panic q => p = q
  | _, _ => False
  end.

(** A computation that cannot tell such functions apart. *)
Definition agree {A} (block : Address) (c : M A) : Prop :=
  ∀ f g, sim block f g → same_outcome block (c f) (c g).

(** The example after the translation of its first block. *)
Definition first_done : function := state_of (translate_block_demo 4096 demo) demo.

(** The cause of a missing-block error that carries the address [a], at
    the terminator [term]: a fall-through terminator at [a], which is no
    block; or a conditional branch whose true target is [a], where [a] or
    the address that follows the branch is no block. *)
Definition missing_block (getAddrs : Address → Arg → list Address)
    (isDummyTerm : instruction → bool) (f : function) (term : instruction)
    (a : Address) : Prop :=
  (isDummyTerm term = true ∧ a = inst_addr term ∧ blocks f !! a = None)
  ∨ (isDummyTerm term = false
     ∧ getAddrs (next_addr term) (arg_at term 0) = [a]
     ∧ (blocks f !! a = None ∨ blocks f !! next_addr term = None)).

(** The IR function of the callee at [a]: the function under translation
    is its own entry of the table. *)
Definition callee_ir (d : disassembler) (f : function) (a : Address)
    : option irFunction :=
  if bool_decide (a = entry f) then Function f else funcs d !! a ≫= Function.

(** An array of four 32-bit integers at 8192 and, right behind it, an
    integer at 8208. *)
Definition adjacent_tables : disassembler :=
  {| funcs := ∅;
     globals := {[ 8192 := {| global_elem := ArrayType 4 I32 |};
                   8208 := {| global_elem := I32 |} ]} |}.

(** The function at 8192 without IR function. *)
Definition bare_tables : disassembler :=
  {| funcs := {[ 8192 := mkFunction None 8192 ∅ ]}; globals := ∅ |}.

(** ** The state only grows *)

Global Instance grows_refl : Reflexive grows.
Proof. intros f. by split. Qed.

Global Instance grows_trans : Transitive grows.
Proof.
  intros f1 f2 f3 [] []. split; try congruence; by etrans.
Qed.

Global Instance step_refl : Reflexive step.
Proof. intros f. split; [reflexivity | auto]. Qed.

Global Instance step_trans : Transitive step.
Proof. intros f1 f2 f3 [] []. split; [by etrans | auto]. Qed.

Lemma sound_ret {A} (a : A) : sound (mret a).
Proof. intros f. unfold mret, M_ret. reflexivity. Qed.

Lemma sound_throw {A} (e : error) : sound (@throw A e).
Proof. intros f. unfold throw. reflexivity. Qed.

Lemma sound_panic {A} (p : abort) : sound (@panic A p).
Proof. intros f. exact I. Qed.

Lemma sound_get : sound get.
Proof. intros f. unfold get. reflexivity. Qed.

Lemma sound_bind {A B} (c : M A) (k : A → M B) :
  sound c → (∀ a, sound (k a)) → sound (c ≫= k).
Proof.
  intros Hc Hk f. unfold mbind, M_bind. specialize (Hc f).
  destruct (c f) as [f1 a| |]; [|done..].
  specialize (Hk a f1). destruct (k a f1); [by etrans..|done].
Qed.

Lemma static_on_ir g b : static (on_ir g b) = static b.
Proof. done. Qed.

Lemma grows_alter g block f :
  grows f (set_blocks (alter (on_ir g) block (blocks f)) f).
Proof.
  split; try done. simpl. apply map_eq. intros k.
  rewrite !lookup_fmap, lookup_alter. case_decide; [subst|done].
  by destruct (blocks f !! k).
Qed.

Lemma step_alter g block f :
  step f (set_blocks (alter (on_ir g) block (blocks f)) f).
Proof. split; [apply grows_alter | done]. Qed.

Lemma sound_AppendInst block i : sound (AppendInst block i).
Proof. intros f. apply step_alter. Qed.

Lemma sound_setTerm block t : sound (setTerm block t).
Proof. intros f. apply step_alter. Qed.

Lemma sound_getFunction : sound getFunction.
Proof. intros f. unfold getFunction. by destruct (Function f). Qed.

Lemma sound_reg r : sound (reg r).
Proof.
  intros f. unfold reg. destruct (regs f !! r) eqn:Hr; [reflexivity|].
  destruct (reg_type r) as [typ|] eqn:Ht; [|done].
  split.
  - split; try done. by apply insert_subseteq.
  - intros [Hregs Hst]. split; [|done]. simpl. intros r' v.
    rewrite lookup_insert. case_decide; [|by auto].
    intros [= <-]. subst r'. eauto.
Qed.

Lemma sound_status s : (s ≤ OF)%N → sound (status_ s).
Proof.
  intros Hs f. unfold status_. destruct (status f !! s) eqn:Hr; [reflexivity|].
  split.
  - split; try done. by apply insert_subseteq.
  - intros [Hregs Hst]. split; [done|]. simpl. intros s' v.
    rewrite lookup_insert. case_decide; [|by auto].
    intros [= <-]. by subst s'.
Qed.

Create HintDb sound.

#[local] Hint Resolve sound_ret sound_throw sound_panic sound_get
  sound_AppendInst sound_setTerm sound_getFunction sound_reg : sound.

(** One step of a soundness proof: split a bind, or take the case the
    computation branches on. *)
Ltac sound_step :=
  match goal with
  | |- sound (_ ≫= _) => apply sound_bind; [|intros ?]
  | |- sound (match ?x with _ => _ end) => destruct x eqn:?
  | |- sound (let '(_, _) := ?x in _) => destruct x eqn:?
  | |- sound _ => solve [auto with sound]
  end.

Ltac sound_tac := repeat sound_step.

Lemma sound_NewInst block v : sound (NewInst block v).
Proof. unfold NewInst. sound_tac. Qed.

Lemma sound_NewStore block v dst : sound (NewStore block v dst).
Proof. unfold NewStore. sound_tac. Qed.

#[local] Hint Resolve sound_NewInst sound_NewStore : sound.

Lemma sound_useStatus block s : (s ≤ OF)%N → sound (useStatus block s).
Proof.
  intros. unfold useStatus, NewLoad. apply sound_bind; [by apply sound_status|].
  intros. sound_tac.
Qed.

Lemma sound_defStatus block s v : (s ≤ OF)%N → sound (defStatus block s v).
Proof.
  intros. unfold defStatus. apply sound_bind; [by apply sound_status|].
  intros. sound_tac.
Qed.

Section sound.
Context (d : disassembler) (sz : type → Z) (ga : Address → Arg → list Address)
  (tc : Address → instruction → bool) (dt : instruction → bool).

Lemma sound_getElementPtr block src t offset :
  sound (getElementPtr sz block src t offset).
Proof. unfold getElementPtr. sound_tac. Qed.

Lemma sound_global block a : sound (global d sz block a).
Proof. unfold global. sound_tac; apply sound_getElementPtr. Qed.

Hint Resolve sound_global : sound.

Lemma sound_useArg block i arg : sound (useArg d sz block i arg).
Proof. unfold useArg, useGlobal, NewLoad. sound_tac. Qed.

Lemma sound_defArg block i arg v : sound (defArg d sz block i arg v).
Proof. unfold defArg, defGlobal. sound_tac. Qed.

Lemma sound_calleeFunction a : sound (calleeFunction d a).
Proof.
  intros f. unfold calleeFunction. case_bool_decide.
  - apply sound_getFunction.
  - by destruct (funcs d !! a ≫= Function).
Qed.

Lemma sound_updateStatusFlags block x y :
  sound (updateStatusFlags block x y).
Proof.
  unfold updateStatusFlags. sound_tac; by apply sound_defStatus.
Qed.

Hint Resolve sound_useArg sound_defArg sound_calleeFunction
  sound_updateStatusFlags : sound.

Lemma sound_instCALL block i : sound (instCALL d sz block i).
Proof. unfold instCALL. sound_tac. Qed.

Hint Resolve sound_instCALL : sound.

Lemma sound_translateInst block i : sound (translateInst d sz block i).
Proof.
  unfold translateInst, instADD, instAND, instCMP, instIMUL, instINC,
    instMOV, instXOR.
  sound_tac.
Qed.

Lemma sound_termCondBranch block t : sound (termCondBranch ga block t).
Proof.
  unfold termCondBranch, NewCondBr.
  sound_tac; by apply sound_useStatus.
Qed.

Lemma sound_termRET block t : sound (termRET d sz block t).
Proof. unfold termRET, NewRet. sound_tac. Qed.

Lemma sound_termJMP block t : sound (termJMP d sz tc block t).
Proof. unfold termJMP, NewRet. sound_tac. Qed.

Hint Resolve sound_translateInst sound_termCondBranch sound_termRET
  sound_termJMP : sound.

Lemma sound_translateTerm block t : sound (translateTerm d sz ga tc dt block t).
Proof. unfold translateTerm, NewBr. sound_tac. Qed.

Lemma sound_forM_ {A} (l : list A) (k : A → M unit) :
  (∀ x, sound (k x)) → sound (forM_ l k).
Proof. intros Hk. induction l; simpl; sound_tac; auto. Qed.

Lemma sound_translateBlock block : sound (translateBlock d sz ga tc dt block).
Proof.
  unfold translateBlock. sound_tac.
  - apply sound_forM_. intros. apply sound_translateInst.
  - apply sound_translateTerm.
Qed.
End sound.

Section assembler.
Context (d : disassembler) (sz : type → Z) (ga : Address → Arg → list Address)
  (tc : Address → instruction → bool) (dt : instruction → bool).

Lemma translateFunc_eq f :
  translateFunc d sz ga tc dt f =
  match forM_ (blockAddrs_of f) (translateBlock d sz ga tc dt) (init f) with
  | Ok f1 _ =>
      match blockAddrs_of f with
      | [] => Err f1 ErrMissingBody
      | _ =>
          match Function f1 with
          | Some F =>
              Ok (set_Function
                    (Some (with_Blocks F
                       (Blocks F ++ emitted_blocks F f1 (blockAddrs_of f))))
                    f1) tt
          | None => Panic PanicNilDeref
          end
      end
  | Err f1 e => Err f1 e
  | Panic p => Panic p
  end.
Proof.
  unfold translateFunc, mbind, M_bind, init_Function, init, get, blockAddrs_of.
  assert (Hb : ∀ F, blocks (set_Function F f) = blocks f) by done.
  destruct (Function f) eqn:HF; rewrite ?Hb;
    (destruct (forM_ _ _ _) as [f1 []| |]; [|done..]);
    (destruct (sortAddresses _) eqn:Hs; [done|]);
    unfold getFunction, emitted_blocks, real_blocks, uses_cells, AppendBlocks;
    destruct (Function f1) eqn:HF1; try done;
    destruct (_ || _); simpl; by rewrite HF1.
Qed.

Lemma blocks_init f : blocks (init f) = blocks f.
Proof. unfold init. by destruct (Function f). Qed.

Lemma body_init f : body (init f) = body f.
Proof. unfold init, body. by destruct (Function f) eqn:E; simpl; rewrite ?E. Qed.

Lemma regs_init f : regs (init f) = regs f.
Proof. unfold init. by destruct (Function f). Qed.

Lemma status_init f : status (init f) = status f.
Proof. unfold init. by destruct (Function f). Qed.

Lemma Function_init f : is_Some (Function (init f)).
Proof. unfold init. destruct (Function f) eqn:E; simpl; rewrite ?E; eauto. Qed.

Lemma forM__app {A} (l1 l2 : list A) (k : A → M unit) f :
  forM_ (l1 ++ l2) k f =
  match forM_ l1 k f with
  | Ok f1 _ => forM_ l2 k f1
  | Err f1 e => Err f1 e
  | Panic p => Panic p
  end.
Proof.
  revert f. induction l1 as [|x l1 IH]; intros f; [done|].
  simpl. unfold mbind, M_bind. destruct (k x f); [apply IH|done..].
Qed.

Lemma sound_blocks keys :
  sound (forM_ keys (translateBlock d sz ga tc dt)).
Proof. apply sound_forM_. intros. apply sound_translateBlock. Qed.

Lemma body_grows f f' : grows f f' → body f' = body f.
Proof. intros H. unfold body. by rewrite (grows_Function _ _ H). Qed.

(** What a successful run returns. *)
Lemma translateFunc_Ok f f' :
  translateFunc d sz ga tc dt f = Ok f' () →
  ∃ f1 F,
    forM_ (blockAddrs_of f) (translateBlock d sz ga tc dt) (init f) = Ok f1 ()
    ∧ blockAddrs_of f ≠ []
    ∧ step (init f) f1
    ∧ Function f1 = Some F
    ∧ Blocks F = body f
    ∧ f' = set_Function
             (Some (with_Blocks F
                (Blocks F ++ emitted_blocks F f1 (blockAddrs_of f)))) f1.
Proof.
  rewrite translateFunc_eq.
  pose proof (sound_blocks (blockAddrs_of f) (init f)) as Hs.
  destruct (forM_ _ _ _) as [f1 []| |]; [|done..].
  destruct (blockAddrs_of f) eqn:Hk; [done|].
  destruct (Function f1) as [F|] eqn:HF; [|done].
  intros [= <-]. exists f1, F. split_and!; try done.
  rewrite <-body_init, <-(body_grows _ _ (step_grows _ _ Hs)).
  unfold body. by rewrite HF.
Qed.

(** What a failing run returns: the state in which the failing block, or
    the test for an empty body, left the function. *)
Lemma translateFunc_Err f f' e :
  translateFunc d sz ga tc dt f = Err f' e →
  forM_ (blockAddrs_of f) (translateBlock d sz ga tc dt) (init f) = Err f' e
  ∨ (blockAddrs_of f = [] ∧ f' = init f ∧ e = ErrMissingBody).
Proof.
  rewrite translateFunc_eq.
  destruct (forM_ _ _ _) as [f1 []| |] eqn:Hrun; [|auto|done].
  destruct (blockAddrs_of f) eqn:Hk.
  - intros [= <- <-]. right. simpl in Hrun. unfold mret, M_ret in Hrun.
    by simplify_eq.
  - by destruct (Function f1).
Qed.
End assembler.

(** ** Order of the blocks *)

Lemma StronglySorted_weaken {A} (R1 R2 : relation A) l :
  (∀ x y, x ∈ l → y ∈ l → R1 x y → R2 x y) →
  StronglySorted R1 l → StronglySorted R2 l.
Proof.
  intros HR Hl. induction Hl as [|x l Hl IH Hx]; constructor.
  - apply IH. intros ????. apply HR; by constructor.
  - rewrite Forall_forall in *. intros y Hy.
    apply HR; [by constructor|by constructor|by apply Hx].
Qed.

Lemma StronglySorted_le_lt (l : list Z) :
  NoDup l → StronglySorted Z.le l → StronglySorted Z.lt l.
Proof.
  intros Hnd Hl. induction Hl as [|x l Hl IH Hx]; constructor.
  - apply IH. by apply NoDup_cons in Hnd as [].
  - apply NoDup_cons in Hnd as [Hx' _]. rewrite Forall_forall in *.
    intros y Hy. specialize (Hx y Hy). assert (x ≠ y) by set_solver. lia.
Qed.

Lemma sortAddresses_sorted l : StronglySorted Z.le (sortAddresses l).
Proof. apply StronglySorted_merge_sort; apply _. Qed.

Lemma sortAddresses_perm l : sortAddresses l ≡ₚ l.
Proof. apply merge_sort_Permutation. Qed.

Global Instance addr_le_trans f : Transitive (addr_le f).
Proof. intros x y z. unfold addr_le. lia. Qed.

Global Instance addr_le_total f : Total (addr_le f).
Proof. intros x y. unfold addr_le. lia. Qed.

(** The keys of a well-formed block map, in translation order: the keys of
    the map in increasing order. *)
Lemma blockAddrs_of_keys f :
  wf_blocks f → blockAddrs_of f = sortAddresses (map_to_list (blocks f)).*1.
Proof.
  intros Hwf. unfold blockAddrs_of. f_equal.
  rewrite <-list_fmap_compose. apply list_fmap_ext.
  intros i [k b] Hkb. apply list_elem_of_lookup_2, elem_of_map_to_list in Hkb.
  simpl. by apply Hwf.
Qed.

Lemma elem_of_blockAddrs_of f k :
  wf_blocks f → k ∈ blockAddrs_of f ↔ is_Some (blocks f !! k).
Proof.
  intros Hwf. rewrite blockAddrs_of_keys by done.
  rewrite sortAddresses_perm, list_elem_of_fmap. split.
  - intros [[k' b] [-> Hkb]]. apply elem_of_map_to_list in Hkb. eauto.
  - intros [b Hb]. exists (k, b). split; [done|]. by apply elem_of_map_to_list.
Qed.

Lemma blockAddrs_of_sorted f :
  wf_blocks f → StronglySorted Z.lt (blockAddrs_of f).
Proof.
  intros Hwf. rewrite blockAddrs_of_keys by done.
  apply StronglySorted_le_lt; [|apply sortAddresses_sorted].
  rewrite sortAddresses_perm. apply NoDup_fst_map_to_list.
Qed.

Lemma wf_blocks_grows f f' : grows f f' → wf_blocks f → wf_blocks f'.
Proof.
  intros Hg Hwf k b' Hb'.
  pose proof (f_equal (.!! k) (grows_blocks _ _ Hg)) as Hk. simpl in Hk.
  rewrite !lookup_fmap, Hb' in Hk. destruct (blocks f !! k) as [b|] eqn:Hb; [|done].
  simpl in Hk. injection Hk as Ha _ _. rewrite Ha. by apply Hwf.
Qed.

Lemma is_Some_blocks_grows f f' k :
  grows f f' → is_Some (blocks f' !! k) ↔ is_Some (blocks f !! k).
Proof.
  intros Hg. pose proof (f_equal (.!! k) (grows_blocks _ _ Hg)) as Hk.
  simpl in Hk. rewrite !lookup_fmap in Hk.
  destruct (blocks f !! k), (blocks f' !! k); simplify_eq/=;
    split; intros [? ?]; eauto; done.
Qed.

Lemma addr_of_key f k : wf_blocks f → is_Some (blocks f !! k) → addr_of f k = k.
Proof. intros Hwf [b Hb]. unfold addr_of. rewrite Hb. simpl. by apply Hwf. Qed.

(** Sorting by block address leaves keys that are in increasing order
    where they are. *)
Lemma sortBlocks_sorted f keys :
  wf_blocks f → (∀ k, k ∈ keys → is_Some (blocks f !! k)) →
  StronglySorted Z.lt keys → sortBlocks f keys = keys.
Proof.
  intros Hwf Hkeys Hs. unfold sortBlocks.
  apply (StronglySorted_unique_strong (addr_le f)).
  - intros k1 k2 Hk1 Hk2. rewrite merge_sort_Permutation in Hk1.
    unfold addr_le. rewrite !addr_of_key by auto. lia.
  - apply StronglySorted_merge_sort; apply _.
  - eapply StronglySorted_weaken; [|done]. intros k1 k2 Hk1 Hk2 Hlt.
    unfold addr_le. rewrite !addr_of_key by auto. lia.
  - apply merge_sort_Permutation.
Qed.

(** ** The cells declared by the entry block *)

Lemma omap_filter_is_Some {A B} (g : A → option B) (l : list A) :
  omap g (filter (λ x, is_Some (g x)) l) = omap g l.
Proof.
  induction l as [|x l IH]; [done|].
  rewrite filter_cons. destruct (g x) eqn:Hx.
  - rewrite decide_True by eauto. change (omap g (x :: ?l)) with
      (match g x with Some y => y :: omap g l | None => omap g l end).
    by rewrite Hx, IH.
  - rewrite decide_False by (by intros [? ?]).
    change (omap g (x :: l)) with
      (match g x with Some y => y :: omap g l | None => omap g l end).
    by rewrite Hx.
Qed.

Lemma StronglySorted_filter {A} (R : relation A) (P : A → Prop)
    `{∀ x, Decision (P x)} l :
  StronglySorted R l → StronglySorted R (filter P l).
Proof.
  induction 1 as [|x l Hl IH Hx]; [constructor|].
  rewrite filter_cons. case_decide; [|done]. constructor; [done|].
  rewrite Forall_forall in *. intros y Hy. apply Hx.
  by apply list_elem_of_filter in Hy as [].
Qed.

Lemma all_regs_sorted : StronglySorted N.lt all_regs.
Proof. apply (bool_decide_unpack _). by vm_compute. Qed.

Lemma all_status_sorted : StronglySorted N.lt all_status.
Proof. apply (bool_decide_unpack _). by vm_compute. Qed.

Lemma elem_of_all_regs (r : Reg) : r ∈ all_regs ↔ (AL ≤ r ≤ TR7)%N.
Proof.
  unfold all_regs, AL, TR7. rewrite list_elem_of_fmap. split.
  - intros [n [-> Hn]]. apply elem_of_seq in Hn. lia.
  - intros Hr. exists (N.to_nat r). split; [lia|]. apply elem_of_seq. lia.
Qed.

Lemma elem_of_all_status (s : StatusFlag) : s ∈ all_status ↔ (s ≤ OF)%N.
Proof.
  unfold all_status, OF. rewrite list_elem_of_fmap. split.
  - intros [n [-> Hn]]. apply elem_of_seq in Hn. lia.
  - intros Hr. exists (N.to_nat s). split; [lia|]. apply elem_of_seq. lia.
Qed.

Lemma reg_type_range (r : Reg) typ : reg_type r = Some typ → (AL ≤ r ≤ RIP)%N.
Proof.
  unfold reg_type, AL, R15B, AX, R15W, EAX, R15L, RAX, R15, IP, EIP, RIP.
  intros Ht.
  repeat match type of Ht with
         | context [if ?b then _ else _] => destruct b eqn:?
         end; try done;
  repeat match goal with
         | H : _ && _ = true |- _ => apply andb_true_iff in H as []
         | H : (_ <=? _)%N = true |- _ => apply N.leb_le in H
         | H : (_ =? _)%N = true |- _ => apply N.eqb_eq in H
         end; lia.
Qed.

Lemma entry_allocas_used f :
  entry_allocas f =
  declare (regs f) (used (regs f) all_regs)
  ++ declare (status f) (used (status f) all_status).
Proof.
  unfold entry_allocas, declare, used.
  by rewrite !(omap_filter_is_Some (λ k, _ !! k)).
Qed.

Lemma used_regs f :
  wf_cells f →
  StronglySorted N.lt (used (regs f) all_regs) ∧
  ∀ r, r ∈ used (regs f) all_regs ↔ is_Some (regs f !! r).
Proof.
  intros [Hwf _]. split.
  - apply StronglySorted_filter, all_regs_sorted.
  - intros r. unfold used. rewrite list_elem_of_filter, elem_of_all_regs.
    split; [by intros []|]. intros [v Hv]. split; [eauto|].
    destruct (Hwf r v Hv) as (typ & Ht & _).
    apply reg_type_range in Ht. unfold AL, RIP, TR7 in *. lia.
Qed.

Lemma used_status f :
  wf_cells f →
  StronglySorted N.lt (used (status f) all_status) ∧
  ∀ s, s ∈ used (status f) all_status ↔ is_Some (status f !! s).
Proof.
  intros [_ Hwf]. split.
  - apply StronglySorted_filter, all_status_sorted.
  - intros s. unfold used. rewrite list_elem_of_filter, elem_of_all_status.
    split; [by intros []|]. intros [v Hv]. split; [eauto|].
    by destruct (Hwf s v Hv).
Qed.

Lemma uses_cells_false f : uses_cells f = false ↔ regs f = ∅ ∧ status f = ∅.
Proof.
  unfold uses_cells. rewrite orb_false_iff, !Nat.ltb_ge.
  rewrite <-!map_size_empty_iff. lia.
Qed.

Section assembler_properties.
Context (d : disassembler) (sz : type → Z) (ga : Address → Arg → list Address)
  (tc : Address → instruction → bool) (dt : instruction → bool).

Lemma blockAddrs_of_empty f : blocks f = ∅ → blockAddrs_of f = [].
Proof.
  intros Hb. unfold blockAddrs_of. rewrite Hb, map_to_list_empty. reflexivity.
Qed.

Lemma entry_block_set_Function F G f1 t :
  entry_block F (set_Function G f1) t = entry_block F f1 t.
Proof.
  unfold entry_block, entry_allocas, entry_stores, entry_param.
  cbn [set_Function regs status]. reflexivity.
Qed.

Lemma emitted_set_Function F G f1 t ks :
  (if uses_cells f1
   then (EntryBlock, entry_block F f1 t)
          :: ((λ k, (BlockAt k, ir_of f1 k)) <$> ks)
   else (λ k, (BlockAt k, ir_of f1 k)) <$> ks) =
  (if uses_cells (set_Function G f1)
   then [(EntryBlock, entry_block F (set_Function G f1) t)]
   else [])
  ++ ((λ k, (BlockAt k, ir_of (set_Function G f1) k)) <$> ks).
Proof.
  rewrite entry_block_set_Function.
  change (uses_cells (set_Function G f1)) with (uses_cells f1).
  destruct (uses_cells f1); reflexivity.
Qed.

(** The body of a successful run over a well-formed block map. *)
Lemma translateFunc_body f f' :
  translateFunc d sz ga tc dt f = Ok f' () → wf_blocks f →
  ∃ F,
    Function (init f) = Some F
    ∧ Function f' = Some (with_Blocks F (body f'))
    ∧ regs f ⊆ regs f' ∧ status f ⊆ status f'
    ∧ (wf_cells f → wf_cells f')
    ∧ blocks f' ≠ ∅
    ∧ blockAddrs_of f ≠ []
    ∧ body f' =
        body f ++
        (if uses_cells f'
         then [(EntryBlock,
                entry_block F f' (default 0 (head (blockAddrs_of f))))]
         else [])
        ++ ((λ k, (BlockAt k, ir_of f' k)) <$> blockAddrs_of f).
Proof.
  intros Hrun Hwf.
  destruct (translateFunc_Ok _ _ _ _ _ _ _ Hrun)
    as (f1 & F & _ & Hne & Hstep & HF & HB & ->).
  assert (Hwf1 : wf_blocks f1).
  { eapply wf_blocks_grows; [apply Hstep|]. intros k b.
    rewrite blocks_init. apply Hwf. }
  assert (Hsort : sortBlocks f1 (blockAddrs_of f) = blockAddrs_of f).
  { apply sortBlocks_sorted; [done| |by apply blockAddrs_of_sorted].
    intros k Hk. apply (is_Some_blocks_grows _ _ _ (step_grows _ _ Hstep)).
    rewrite blocks_init. by apply elem_of_blockAddrs_of. }
  destruct Hstep as [[HgF _ Hgr Hgs Hgb] Hw].
  rewrite regs_init in Hgr. rewrite status_init in Hgs.
  exists F. split_and!.
  - by rewrite <-HgF.
  - reflexivity.
  - exact Hgr.
  - exact Hgs.
  - intros Hwc. apply Hw. destruct Hwc. split; by rewrite ?regs_init, ?status_init.
  - simpl. intros Hb. rewrite Hb, fmap_empty, blocks_init in Hgb.
    symmetry in Hgb. apply fmap_empty_inv in Hgb.
    by apply Hne, blockAddrs_of_empty.
  - exact Hne.
  - unfold emitted_blocks, real_blocks. rewrite Hsort, <-HB.
    generalize (blockAddrs_of f). intros ks.
    unfold body. cbn [Function set_Function with_Blocks Blocks]. f_equal.
    apply emitted_set_Function.
Qed.
End assembler_properties.

(** ** Reading a function after an update *)

Lemma function_eta f :
  {| Function := Function f; entry := entry f; blocks := blocks f;
     regs := regs f; status := status f |} = f.
Proof. by destruct f. Qed.

Lemma alloc_status_id s v f : status f !! s = Some v → alloc_status s v f = f.
Proof.
  intros Hs. unfold alloc_status, set_status. rewrite insert_id by done.
  apply function_eta.
Qed.

Lemma alloc_reg_id r v f : regs f !! r = Some v → alloc_reg r v f = f.
Proof.
  intros Hr. unfold alloc_reg, set_regs. rewrite insert_id by done.
  apply function_eta.
Qed.

Lemma status__eq s f :
  status_ s f = Ok (alloc_status s (status_cell_of f s) f)
                   (Alloca (status_cell_of f s)).
Proof.
  unfold status_, status_cell_of. destruct (status f !! s) eqn:Hs; simpl; [|done].
  by rewrite alloc_status_id.
Qed.

Lemma reg_eq r typ f :
  reg_type r = Some typ →
  reg r f = Ok (alloc_reg r (reg_cell_of f r typ) f)
               (Alloca (reg_cell_of f r typ)).
Proof.
  intros Ht. unfold reg, reg_cell_of. rewrite Ht.
  destruct (regs f !! r) eqn:Hr; simpl; [|done]. by rewrite alloc_reg_id.
Qed.

Lemma ir_at_append_inst block i f :
  ir_at (append_inst block i f) block = ir_append i <$> ir_at f block.
Proof.
  unfold ir_at, append_inst. simpl. rewrite lookup_alter_eq.
  by destruct (blocks f !! block).
Qed.

Lemma ir_at_set_term block t f :
  ir_at (set_term block t f) block = ir_setTerm t <$> ir_at f block.
Proof.
  unfold ir_at, set_term. simpl. rewrite lookup_alter_eq.
  by destruct (blocks f !! block).
Qed.

Lemma ir_at_alloc_status s v f block :
  ir_at (alloc_status s v f) block = ir_at f block.
Proof. done. Qed.

Lemma ir_at_alloc_reg r v f block :
  ir_at (alloc_reg r v f) block = ir_at f block.
Proof. done. Qed.

Lemma status_append_inst block i f : status (append_inst block i f) = status f.
Proof. done. Qed.

Lemma status_set_term block t f : status (set_term block t f) = status f.
Proof. done. Qed.

Lemma status_alloc_reg r v f : status (alloc_reg r v f) = status f.
Proof. done. Qed.

Lemma status_alloc_status s v f :
  status (alloc_status s v f) = <[s := v]> (status f).
Proof. done. Qed.

Lemma regs_append_inst block i f : regs (append_inst block i f) = regs f.
Proof. done. Qed.

Lemma regs_set_term block t f : regs (set_term block t f) = regs f.
Proof. done. Qed.

Lemma regs_alloc_status s v f : regs (alloc_status s v f) = regs f.
Proof. done. Qed.

Lemma regs_alloc_reg r v f : regs (alloc_reg r v f) = <[r := v]> (regs f).
Proof. done. Qed.

Lemma Function_append_inst block i f :
  Function (append_inst block i f) = Function f.
Proof. done. Qed.

Lemma Function_set_term block t f : Function (set_term block t f) = Function f.
Proof. done. Qed.

Lemma Function_alloc_reg r v f : Function (alloc_reg r v f) = Function f.
Proof. done. Qed.

Lemma Function_alloc_status s v f : Function (alloc_status s v f) = Function f.
Proof. done. Qed.

Lemma status_cell_of_alloc (s s' : StatusFlag) v f :
  s ≠ s' → status_cell_of (alloc_status s v f) s' = status_cell_of f s'.
Proof.
  intros Hs. unfold status_cell_of. by rewrite status_alloc_status, lookup_insert_ne.
Qed.

Lemma status_cell_of_insts block i f s :
  status_cell_of (append_inst block i f) s = status_cell_of f s.
Proof. done. Qed.

Lemma lookup_status_cell_of (s' : StatusFlag) v f :
  status f !! s' = Some v → status_cell_of f s' = v.
Proof. intros Hs. unfold status_cell_of. by rewrite Hs. Qed.

Global Arguments append_inst : simpl never.
Global Arguments set_term : simpl never.
Global Arguments alloc_reg : simpl never.
Global Arguments alloc_status : simpl never.

(** Runs the primitive operations at the head of a computation. *)
Ltac run :=
  unfold useStatus, defStatus, NewLoad, NewStore, NewInst, NewCondBr, NewBr,
    NewRet, AppendInst, setTerm, get, throw, panic;
  unfold mbind, M_bind, mret, M_ret; cbn beta iota;
  repeat (progress (rewrite ?status__eq; cbn beta iota));
  repeat (progress
    (rewrite ?status_cell_of_insts, ?status_cell_of_alloc by (by compute))).

(** Reads the block under construction and the cell maps of the state a
    run ended in. *)
Ltac observe Hb :=
  repeat (progress rewrite
    ?ir_at_append_inst, ?ir_at_set_term, ?ir_at_alloc_status,
    ?ir_at_alloc_reg, ?status_append_inst, ?status_set_term,
    ?status_alloc_reg, ?status_alloc_status, ?regs_append_inst,
    ?regs_set_term, ?regs_alloc_status, ?regs_alloc_reg,
    ?Function_append_inst, ?Function_set_term, ?Function_alloc_reg,
    ?Function_alloc_status);
  rewrite ?Hb; cbn [fmap option_fmap option_map];
  unfold ir_setTerm, ir_append; cbn [Insts Term];
  rewrite <-?(assoc_L (++)); cbn [app].

Lemma lookup_alloc_status (s : StatusFlag) f :
  status (alloc_status s (status_cell_of f s) f) !! s = Some (status_cell_of f s).
Proof. rewrite status_alloc_status. apply lookup_insert_eq. Qed.


Section terminators.
Context (ga : Address → Arg → list Address).

Lemma termCondBranch_targets block term f :
  (∀ t, ga (next_addr term) (arg_at term 0) ≠ [t]) →
  termCondBranch ga block term f =
  Err f (ErrTrueBranches (length (ga (next_addr term) (arg_at term 0)))).
Proof.
  intros Hga. unfold termCondBranch. fold (next_addr term).
  destruct (ga _ _) as [|t [|t' l]] eqn:E; try done. by destruct (Hga t).
Qed.

Lemma termCondBranch_no_block block term f t :
  ga (next_addr term) (arg_at term 0) = [t] →
  blocks f !! t = None ∨ blocks f !! next_addr term = None →
  termCondBranch ga block term f = Err f (ErrNoBlock t).
Proof.
  intros Hga Hb. unfold termCondBranch. fold (next_addr term).
  rewrite Hga. run.
  destruct (blocks f !! t); [|done].
  destruct Hb as [|Hb]; [done|]. by rewrite Hb.
Qed.

Lemma termCondBranch_resolved block term f t :
  ga (next_addr term) (arg_at term 0) = [t] →
  is_Some (blocks f !! t) → is_Some (blocks f !! next_addr term) →
  termCondBranch ga block term f =
  (cond ←
     match Op_ term with
     | JL =>
         sf ← useStatus block SF;
         of_ ← useStatus block OF;
         NewInst block (ICmp IntNE sf of_)
     | JG =>
         sf ← useStatus block SF;
         of_ ← useStatus block OF;
         zf ← useStatus block ZF;
         cond1 ← NewInst block (ICmp IntEQ zf ConstFalse);
         cond2 ← NewInst block (ICmp IntEQ sf of_);
         NewInst block (And cond1 cond2)
     | JNE =>
         zf ← useStatus block ZF;
         NewInst block (ICmp IntEQ zf ConstFalse)
     | op => panic (PanicCondBranch op)
     end;
   NewCondBr block cond (BlockAt t) (BlockAt (next_addr term))) f.
Proof.
  intros Hga [b1 Ht] [b2 Hn]. unfold termCondBranch. fold (next_addr term).
  rewrite Hga. unfold get. unfold mbind at 1, M_bind at 1.
  by rewrite Ht, Hn.
Qed.

Lemma termCondBranch_JNE block term f t b :
  ga (next_addr term) (arg_at term 0) = [t] →
  is_Some (blocks f !! t) → is_Some (blocks f !! next_addr term) →
  ir_at f block = Some b →
  Op_ term = JNE →
  ∃ f' zf,
    termCondBranch ga block term f = Ok f' ()
    ∧ status f' !! ZF = Some zf
    ∧ zf = status_cell_of f ZF
    ∧ let z := Load (Alloca zf) in
      let cond := ICmp IntEQ z ConstFalse in
      ir_at f' block =
      Some {| Insts := Insts b ++ [InstValue z; InstValue cond];
              Term := Some (TermCondBr cond (BlockAt t)
                                       (BlockAt (next_addr term))) |}.
Proof.
  intros Hga Ht Hn Hb Hop.
  rewrite (termCondBranch_resolved _ _ _ _ Hga Ht Hn), Hop. run.
  eexists _, _. split; [reflexivity|]. split_and!.
  - observe Hb. apply lookup_insert_eq.
  - reflexivity.
  - observe Hb. reflexivity.
Qed.

Lemma termCondBranch_JL block term f t b :
  ga (next_addr term) (arg_at term 0) = [t] →
  is_Some (blocks f !! t) → is_Some (blocks f !! next_addr term) →
  ir_at f block = Some b →
  Op_ term = JL →
  ∃ f' sf of_,
    termCondBranch ga block term f = Ok f' ()
    ∧ status f' !! SF = Some sf ∧ status f' !! OF = Some of_
    ∧ sf = status_cell_of f SF ∧ of_ = status_cell_of f OF
    ∧ let s := Load (Alloca sf) in
      let o := Load (Alloca of_) in
      let cond := ICmp IntNE s o in
      ir_at f' block =
      Some {| Insts := Insts b ++ [InstValue s; InstValue o; InstValue cond];
              Term := Some (TermCondBr cond (BlockAt t)
                                       (BlockAt (next_addr term))) |}.
Proof.
  intros Hga Ht Hn Hb Hop.
  rewrite (termCondBranch_resolved _ _ _ _ Hga Ht Hn), Hop. run.
  eexists _, _, _. split; [reflexivity|]. split_and!.
  - observe Hb. rewrite lookup_insert_ne by done. apply lookup_insert_eq.
  - observe Hb. apply lookup_insert_eq.
  - reflexivity.
  - reflexivity.
  - observe Hb. reflexivity.
Qed.

Lemma termCondBranch_JG block term f t b :
  ga (next_addr term) (arg_at term 0) = [t] →
  is_Some (blocks f !! t) → is_Some (blocks f !! next_addr term) →
  ir_at f block = Some b →
  Op_ term = JG →
  ∃ f' zf sf of_,
    termCondBranch ga block term f = Ok f' ()
    ∧ status f' !! ZF = Some zf ∧ status f' !! SF = Some sf
    ∧ status f' !! OF = Some of_
    ∧ zf = status_cell_of f ZF ∧ sf = status_cell_of f SF
    ∧ of_ = status_cell_of f OF
    ∧ let z := Load (Alloca zf) in
      let s := Load (Alloca sf) in
      let o := Load (Alloca of_) in
      let cond1 := ICmp IntEQ z ConstFalse in
      let cond2 := ICmp IntEQ s o in
      let cond := And cond1 cond2 in
      ir_at f' block =
      Some {| Insts := Insts b ++
                [InstValue s; InstValue o; InstValue z; InstValue cond1;
                 InstValue cond2; InstValue cond];
              Term := Some (TermCondBr cond (BlockAt t)
                                       (BlockAt (next_addr term))) |}.
Proof.
  intros Hga Ht Hn Hb Hop.
  rewrite (termCondBranch_resolved _ _ _ _ Hga Ht Hn), Hop. run.
  eexists _, _, _, _. split; [reflexivity|]. split_and!.
  - observe Hb. apply lookup_insert_eq.
  - observe Hb. do 2 (rewrite lookup_insert_ne by done). apply lookup_insert_eq.
  - observe Hb. rewrite lookup_insert_ne by done. apply lookup_insert_eq.
  - reflexivity.
  - reflexivity.
  - reflexivity.
  - observe Hb. reflexivity.
Qed.

(** C3. For a conditional branch at address [a] of length [L], the
    true target is what [getAddrs] resolves the operand to against
    [a + L], and the false target is [a + L].  Unless the operand
    resolves to one address and both targets are keys of the block map,
    the translation returns an error and the function is unchanged.
    Otherwise JNE loads ZF and branches on [ZF == false], JG loads SF, OF
    and ZF and branches on [(ZF == false) and (SF == OF)], and JL loads SF
    and OF and branches on [SF != OF]; the branch goes to the block of the
    true target if the condition holds and to the block at [a + L]
    otherwise. *)
Theorem C3_conditional_branch block term f b :
  ir_at f block = Some b →
  let next := next_addr term in
  let targets := ga next (arg_at term 0) in
  ((∀ t, targets ≠ [t]) →
   termCondBranch ga block term f = Err f (ErrTrueBranches (length targets)))
  ∧ (∀ t, targets = [t] →
          blocks f !! t = None ∨ blocks f !! next = None →
          ∃ e, termCondBranch ga block term f = Err f e)
  ∧ (∀ t, targets = [t] →
          is_Some (blocks f !! t) → is_Some (blocks f !! next) →
          (Op_ term = JNE →
           ∃ f' zf,
             termCondBranch ga block term f = Ok f' ()
             ∧ status f' !! ZF = Some zf
             ∧ let z := Load (Alloca zf) in
               let cond := ICmp IntEQ z ConstFalse in
               ir_at f' block =
               Some {| Insts := Insts b ++ [InstValue z; InstValue cond];
                       Term := Some (TermCondBr cond (BlockAt t)
                                                (BlockAt next)) |})
          ∧ (Op_ term = JG →
             ∃ f' zf sf of_,
               termCondBranch ga block term f = Ok f' ()
               ∧ status f' !! ZF = Some zf ∧ status f' !! SF = Some sf
               ∧ status f' !! OF = Some of_
               ∧ let z := Load (Alloca zf) in
                 let s := Load (Alloca sf) in
                 let o := Load (Alloca of_) in
                 let cond1 := ICmp IntEQ z ConstFalse in
                 let cond2 := ICmp IntEQ s o in
                 let cond := And cond1 cond2 in
                 ir_at f' block =
                 Some {| Insts := Insts b ++
                           [InstValue s; InstValue o; InstValue z;
                            InstValue cond1; InstValue cond2;
                            InstValue cond];
                         Term := Some (TermCondBr cond (BlockAt t)
                                                  (BlockAt next)) |})
          ∧ (Op_ term = JL →
             ∃ f' sf of_,
               termCondBranch ga block term f = Ok f' ()
               ∧ status f' !! SF = Some sf ∧ status f' !! OF = Some of_
               ∧ let s := Load (Alloca sf) in
                 let o := Load (Alloca of_) in
                 let cond := ICmp IntNE s o in
                 ir_at f' block =
                 Some {| Insts := Insts b ++
                           [InstValue s; InstValue o; InstValue cond];
                         Term := Some (TermCondBr cond (BlockAt t)
                                                  (BlockAt next)) |})).
Proof.
  intros Hb next targets. split_and!.
  - apply termCondBranch_targets.
  - intros t Ht Hnone. eexists. by apply termCondBranch_no_block.
  - intros t Ht Htrue Hfalse. split_and!; intros Hop.
    + destruct (termCondBranch_JNE block term f t b)
        as (f' & zf & ? & ? & _ & ?); eauto.
    + destruct (termCondBranch_JG block term f t b)
        as (f' & zf & sf & of_ & ? & ? & ? & ? & _ & _ & _ & ?); eauto 10.
    + destruct (termCondBranch_JL block term f t b)
        as (f' & sf & of_ & ? & ? & ? & _ & _ & ?); eauto 10.
Qed.


End terminators.

Lemma lookup_alloc_reg (r : Reg) v f : regs (alloc_reg r v f) !! r = Some v.
Proof. rewrite regs_alloc_reg. apply lookup_insert_eq. Qed.

Section returns.
Context (d : disassembler) (sz : type → Z)
  (tc : Address → instruction → bool).

Lemma useArg_reg block i (r : Reg) typ f :
  reg_type r = Some typ →
  useArg d sz block i (ArgReg r) f =
  Ok (append_inst block (InstValue (Load (Alloca (reg_cell_of f r typ))))
        (alloc_reg r (reg_cell_of f r typ) f))
     (Load (Alloca (reg_cell_of f r typ))).
Proof.
  intros Ht. unfold useArg. run. by rewrite (reg_eq r typ).
Qed.

Lemma termRET_value block term f F b :
  Function f = Some F → is_void (Ret (Sig F)) = false →
  ir_at f block = Some b →
  ∃ f' eax,
    termRET d sz block term f = Ok f' ()
    ∧ regs f' !! EAX = Some eax
    ∧ ir_at f' block =
      Some {| Insts := Insts b ++ [InstValue (Load (Alloca eax))];
              Term := Some (TermRet (Some (Load (Alloca eax)))) |}.
Proof.
  intros HF Hvoid Hb. unfold termRET, getFunction. run. rewrite HF, Hvoid.
  cbn [negb]. rewrite (useArg_reg _ _ EAX I32) by done. run.
  eexists _, _. split; [reflexivity|]. split.
  - observe Hb. apply lookup_insert_eq.
  - observe Hb. reflexivity.
Qed.

Lemma termRET_void block term f F b :
  Function f = Some F → is_void (Ret (Sig F)) = true →
  ir_at f block = Some b →
  ∃ f',
    termRET d sz block term f = Ok f' ()
    ∧ regs f' = regs f
    ∧ ir_at f' block =
      Some {| Insts := Insts b; Term := Some (TermRet None) |}.
Proof.
  intros HF Hvoid Hb. unfold termRET, getFunction. run. rewrite HF, Hvoid.
  cbn [negb]. eexists. split; [reflexivity|]. split.
  - by observe Hb.
  - observe Hb. reflexivity.
Qed.

Lemma termJMP_tail_call block term f :
  tc (entry f) term = true →
  termJMP d sz tc block term f =
  (instCALL d sz block term;; termRET d sz block term) f.
Proof.
  intros Htc. unfold termJMP, termRET, get.
  unfold mbind at 1, M_bind at 1. by rewrite Htc.
Qed.

Lemma termJMP_other block term f :
  tc (entry f) term = false →
  termJMP d sz tc block term f = Panic (PanicTermOp (Op_ term)).
Proof.
  intros Htc. unfold termJMP, get.
  unfold mbind at 1, M_bind at 1. by rewrite Htc.
Qed.

(** C6. A return in a function whose return type is not void loads the
    EAX cell and returns the loaded value; in a function returning void
    it emits no instruction and returns nothing.  A jump recognised as a
    tail call is translated as the call instruction followed by that
    return; any other jump aborts the run as unsupported. *)
Theorem C6_return_and_tail_call block term f F b :
  Function f = Some F →
  ir_at f block = Some b →
  (is_void (Ret (Sig F)) = false →
   ∃ f' eax,
     termRET d sz block term f = Ok f' ()
     ∧ regs f' !! EAX = Some eax
     ∧ ir_at f' block =
       Some {| Insts := Insts b ++ [InstValue (Load (Alloca eax))];
               Term := Some (TermRet (Some (Load (Alloca eax)))) |})
  ∧ (is_void (Ret (Sig F)) = true →
     ∃ f',
       termRET d sz block term f = Ok f' ()
       ∧ regs f' = regs f
       ∧ ir_at f' block =
         Some {| Insts := Insts b; Term := Some (TermRet None) |})
  ∧ (tc (entry f) term = true →
     termJMP d sz tc block term f =
     match instCALL d sz block term f with
     | Ok f1 _ => termRET d sz block term f1
     | Err f1 e => Err f1 e
     | Panic p => Panic p
     end)
  ∧ (tc (entry f) term = false →
     termJMP d sz tc block term f = Panic (PanicTermOp (Op_ term))).
Proof.
  intros HF Hb. split_and!.
  - intros. by eapply termRET_value.
  - intros. by eapply termRET_void.
  - intros Htc. by rewrite termJMP_tail_call.
  - apply termJMP_other.
Qed.
End returns.

(** ** Instructions emitted by the operand resolver *)

Lemma loads_nil block f : loads block [] f f.
Proof.
  split; [|done..]. unfold extends_ir. destruct (ir_at f block) as [[]|]; simpl;
    by rewrite ?app_nil_r.
Qed.

Lemma loads_app block l1 l2 f1 f2 f3 :
  loads block l1 f1 f2 → loads block l2 f2 f3 → loads block (l1 ++ l2) f1 f3.
Proof.
  intros [Hi1 Hp1 Hs1] [Hi2 Hp2 Hs2]. split.
  - rewrite Hi2, Hi1. destruct (ir_at f1 block); [|done]. simpl.
    unfold extends_ir. simpl. by rewrite (assoc_L (++)).
  - by apply Forall_app.
  - congruence.
Qed.

Lemma loads_append_inst block v f :
  loads block [InstValue v] f (append_inst block (InstValue v) f).
Proof. split; [apply ir_at_append_inst|by repeat constructor|done]. Qed.

Lemma loads_alloc_reg block (r : Reg) v f : loads block [] f (alloc_reg r v f).
Proof.
  split; [|done..]. rewrite ir_at_alloc_reg. apply (loads_ir _ _ _ _ (loads_nil block f)).
Qed.

Section operands.
Context (d : disassembler) (sz : type → Z).

Lemma getElementPtr_loads block src t offset f f' v :
  getElementPtr sz block src t offset f = Ok f' v →
  loads block [InstValue v] f f'.
Proof.
  unfold getElementPtr. destruct t; try done.
  destruct (offset <=? 0); [|destruct (gepWalk _ _ _ _); [done|]];
    run; intros [= <- <-]; apply loads_append_inst.
Qed.

Lemma global_loads block a f f' v :
  global d sz block a f = Ok f' v → ∃ l, loads block l f f'.
Proof.
  unfold global. destruct (globals d !! a).
  { run. intros [= <- <-]. eexists. apply loads_nil. }
  destruct (_ && _); [|done]. destruct (globals d !! _); [|done].
  destruct (_ && _); [|done]. intros H. eexists.
  by eapply getElementPtr_loads.
Qed.

Lemma useGlobal_loads block a f f' v :
  useGlobal d sz block a f = Ok f' v → ∃ l, loads block l f f'.
Proof.
  unfold useGlobal. unfold mbind, M_bind.
  destruct (global d sz block a f) as [f1 src| |] eqn:Hg; [|done..].
  apply global_loads in Hg as [l Hl]. run. intros [= <- <-].
  eexists. eapply loads_app; [done|]. apply loads_append_inst.
Qed.

Lemma useArg_loads block i arg f f' v :
  useArg d sz block i arg f = Ok f' v → ∃ l, loads block l f f'.
Proof.
  unfold useArg. destruct arg as [r|m|n|r|].
  - unfold mbind, M_bind, reg.
    destruct (regs f !! r) eqn:Hr; [|destruct (reg_type r); [|done]];
      run; intros [= <- <-]; eexists.
    + apply loads_append_inst.
    + eapply loads_app; [apply loads_alloc_reg|apply loads_append_inst].
  - destruct (bare_disp m); [apply useGlobal_loads|done].
  - run. intros [= <- <-]. eexists. apply loads_nil.
  - destruct i; [|done]. destruct (funcs d !! _).
    + run. intros [= <- <-]. eexists. apply loads_nil.
    + apply useGlobal_loads.
  - done.
Qed.
End operands.

(** ** Cells are not shared *)

Lemma status_name_inj :
  Forall (λ s, Forall (λ s', alloca_name (status_cell s)
                             = alloca_name (status_cell s') → s = s')
                      all_status) all_status.
Proof. apply (bool_decide_unpack _). by vm_compute. Qed.

Lemma status_cell_inj (s s' : StatusFlag) :
  (s ≤ OF)%N → (s' ≤ OF)%N → status_cell s = status_cell s' → s = s'.
Proof.
  intros Hs Hs' Heq. apply elem_of_all_status in Hs, Hs'.
  pose proof status_name_inj as H. rewrite Forall_forall in H.
  specialize (H s Hs). rewrite Forall_forall in H. apply (H s' Hs').
  by rewrite Heq.
Qed.

Lemma reg_type_not_I1 (r : Reg) typ : reg_type r = Some typ → typ ≠ I1.
Proof.
  unfold reg_type. intros Ht.
  repeat match type of Ht with
         | context [if ?b then _ else _] => destruct b
         end; by simplify_eq.
Qed.

(** In a well-formed function a flag cell is the cell of no other flag and
    of no register. *)
Lemma wf_cells_status_inj f (s s' : StatusFlag) v :
  wf_cells f → status f !! s = Some v → status f !! s' = Some v → s = s'.
Proof.
  intros [_ Hwf] Hs Hs'. destruct (Hwf _ _ Hs) as [? ->].
  destruct (Hwf _ _ Hs') as [? Heq]. by apply status_cell_inj.
Qed.

Lemma wf_cells_status_not_reg f (s : StatusFlag) (r : Reg) v :
  wf_cells f → status f !! s = Some v → regs f !! r ≠ Some v.
Proof.
  intros [Hwr Hws] Hs Hr. destruct (Hws _ _ Hs) as [_ ->].
  destruct (Hwr _ _ Hr) as (typ & Ht & Heq).
  apply reg_type_not_I1 in Ht. apply Ht.
  by apply (f_equal alloca_elem) in Heq.
Qed.

Section compare.
Context (d : disassembler) (sz : type → Z).

Lemma sound_instCMP block i : sound (instCMP d sz block i).
Proof.
  unfold instCMP.
  apply sound_bind; [apply sound_useArg|intros x].
  apply sound_bind; [apply sound_useArg|intros y].
  apply sound_updateStatusFlags.
Qed.

(** C5. Translating CMP with operand values [x] and [y]: after the
    instructions that read the operands, none of which is a store, the
    block receives the comparison [x == y], its store into the ZF cell,
    the comparison [x <s y] and its store into the SF cell, and nothing
    else.  The cells of the other flags are the ones the function had
    before; in a well-formed function the two cells written are the cells
    of no other flag and of no register, so that neither an operand nor
    CF, PF, AF or OF is written. *)
Theorem C5_compare_flags block inst f f1 f2 x y b :
  ir_at f block = Some b →
  useArg d sz block (Some inst) (arg_at inst 0) f = Ok f1 x →
  useArg d sz block (Some inst) (arg_at inst 1) f1 = Ok f2 y →
  ∃ f' zf sf reads,
    instCMP d sz block inst f = Ok f' ()
    ∧ Forall (λ i, is_store i = false) reads
    ∧ ir_at f' block =
      Some {| Insts := Insts b ++ reads ++
                [InstValue (ICmp IntEQ x y);
                 InstStore (ICmp IntEQ x y) (Alloca zf);
                 InstValue (ICmp IntSLT x y);
                 InstStore (ICmp IntSLT x y) (Alloca sf)];
              Term := Term b |}
    ∧ status f' !! ZF = Some zf ∧ status f' !! SF = Some sf
    ∧ (∀ s : StatusFlag, s ≠ ZF → s ≠ SF → status f' !! s = status f !! s)
    ∧ regs f' = regs f2
    ∧ (wf_cells f →
       (∀ (s : StatusFlag) v,
           status f' !! s = Some v → (v = zf → s = ZF) ∧ (v = sf → s = SF))
       ∧ (∀ (r : Reg) v, regs f' !! r = Some v → v ≠ zf ∧ v ≠ sf)).
Proof.
  intros Hb Hx Hy.
  destruct (useArg_loads _ _ _ _ _ _ _ _ Hx) as [l1 Hl1].
  destruct (useArg_loads _ _ _ _ _ _ _ _ Hy) as [l2 Hl2].
  pose proof (loads_app _ _ _ _ _ _ Hl1 Hl2) as [Hir Hpure Hst].
  pose proof (sound_instCMP block inst f) as Hsound.
  unfold instCMP in *. unfold mbind at 1, M_bind at 1 in Hsound.
  unfold mbind at 1, M_bind at 1. rewrite Hx in *.
  unfold mbind at 1, M_bind at 1 in Hsound.
  unfold mbind at 1, M_bind at 1. rewrite Hy in *.
  unfold updateStatusFlags in *.
  revert Hsound. run. intros Hsound.
  rewrite Hb in Hir. simpl in Hir.
  eexists _, _, _, (l1 ++ l2). split; [reflexivity|].
  assert (HZF : status
    (append_inst block
       (InstStore (ICmp IntSLT x y) (Alloca (status_cell_of f2 SF)))
       (alloc_status SF (status_cell_of f2 SF)
          (append_inst block (InstValue (ICmp IntSLT x y))
             (append_inst block
                (InstStore (ICmp IntEQ x y) (Alloca (status_cell_of f2 ZF)))
                (alloc_status ZF (status_cell_of f2 ZF)
                   (append_inst block (InstValue (ICmp IntEQ x y)) f2))))))
    !! ZF = Some (status_cell_of f2 ZF)).
  { observe Hir. rewrite lookup_insert_ne by done. apply lookup_insert_eq. }
  assert (HSF : status
    (append_inst block
       (InstStore (ICmp IntSLT x y) (Alloca (status_cell_of f2 SF)))
       (alloc_status SF (status_cell_of f2 SF)
          (append_inst block (InstValue (ICmp IntSLT x y))
             (append_inst block
                (InstStore (ICmp IntEQ x y) (Alloca (status_cell_of f2 ZF)))
                (alloc_status ZF (status_cell_of f2 ZF)
                   (append_inst block (InstValue (ICmp IntEQ x y)) f2))))))
    !! SF = Some (status_cell_of f2 SF)).
  { observe Hir. apply lookup_insert_eq. }
  split_and!; try done.
  - observe Hir. unfold extends_ir. simpl.
    by rewrite <-!(assoc_L (++)).
  - intros s Hz Hs. observe Hir. rewrite !lookup_insert_ne by done.
    by rewrite Hst.
  - intros Hwf. apply Hsound in Hwf. split.
    + intros s v Hv. split; intros ->.
      * eapply wf_cells_status_inj; [apply Hwf|apply Hv|apply HZF].
      * eapply wf_cells_status_inj; [apply Hwf|apply Hv|apply HSF].
    + intros r v Hv. split; intros ->.
      * by eapply wf_cells_status_not_reg; [apply Hwf|apply HZF|].
      * by eapply wf_cells_status_not_reg; [apply Hwf|apply HSF|].
Qed.
End compare.

Section assembler_claims.
Context (d : disassembler) (sz : type → Z) (ga : Address → Arg → list Address)
  (tc : Address → instruction → bool) (dt : instruction → bool).

(** C8. Translating a function whose block map is empty returns the error
    "invalid function definition; missing function body", and the body of
    the function is what it was before: no block is emitted. *)
Theorem C8_missing_function_body f :
  blocks f = ∅ →
  ∃ f', translateFunc d sz ga tc dt f = Err f' ErrMissingBody
        ∧ body f' = body f
        ∧ blocks f' = ∅.
Proof.
  intros Hb. exists (init f). rewrite translateFunc_eq.
  rewrite (blockAddrs_of_empty f Hb). simpl. unfold mret, M_ret.
  split_and!; [done|apply body_init|by rewrite blocks_init].
Qed.

(** C7. In the body emitted for a function whose block map is keyed by
    block address, the translated blocks follow each other in strictly
    increasing address order, every block of the map occurring once; they
    are preceded by nothing but the optional synthetic entry block. *)
Theorem C7_block_order f f' :
  translateFunc d sz ga tc dt f = Ok f' () →
  wf_blocks f →
  ∃ entry keys,
    body f' = body f ++ entry ++ ((λ k, (BlockAt k, ir_of f' k)) <$> keys)
    ∧ StronglySorted Z.lt keys
    ∧ (∀ k, k ∈ keys ↔ is_Some (blocks f !! k))
    ∧ (entry = [] ∨ ∃ b, entry = [(EntryBlock, b)]).
Proof.
  intros Hrun Hwf.
  destruct (translateFunc_body _ _ _ _ _ _ _ Hrun Hwf)
    as (F & _ & _ & _ & _ & _ & _ & _ & Hbody).
  eexists _, (blockAddrs_of f). split_and!.
  - exact Hbody.
  - by apply blockAddrs_of_sorted.
  - intros k. by apply elem_of_blockAddrs_of.
  - destruct (uses_cells f'); eauto.
Qed.

(** C10. When the translation of a function fails, the body of the
    function is what it was before the run (empty, if it was empty): the
    error is returned before any block is appended.  The cells allocated
    by the blocks translated before the failure are still recorded in the
    register and status maps of the function. *)
Theorem C10_error_keeps_cells f f' e :
  translateFunc d sz ga tc dt f = Err f' e →
  body f' = body f
  ∧ regs f ⊆ regs f' ∧ status f ⊆ status f'
  ∧ ∀ done rest f1,
      blockAddrs_of f = done ++ rest →
      forM_ done (translateBlock d sz ga tc dt) (init f) = Ok f1 () →
      regs f1 ⊆ regs f' ∧ status f1 ⊆ status f'.
Proof.
  intros Hrun. apply translateFunc_Err in Hrun as [Hrun|(Hk & -> & ->)].
  - pose proof (sound_blocks d sz ga tc dt (blockAddrs_of f) (init f)) as Hs.
    rewrite Hrun in Hs. destruct Hs as [Hg _].
    split_and!.
    + by rewrite (body_grows _ _ Hg), body_init.
    + rewrite <-(regs_init f). apply Hg.
    + rewrite <-(status_init f). apply Hg.
    + intros done rest f1 Hk Hdone. rewrite Hk, forM__app, Hdone in Hrun.
      pose proof (sound_blocks d sz ga tc dt rest f1) as Hs.
      rewrite Hrun in Hs. destruct Hs as [Hg1 _]. split; apply Hg1.
  - split_and!; [apply body_init|by rewrite regs_init|by rewrite status_init|].
    intros done rest f1 Hk' Hdone. rewrite Hk in Hk'.
    symmetry in Hk'. apply app_eq_nil in Hk' as [-> ->].
    simpl in Hdone. unfold mret, M_ret in Hdone. by simplify_eq.
Qed.

(** C4. After a successful run over a block map keyed by block address:
    if the function has a register or a status cell, the blocks appended
    to the body start with exactly one synthetic entry block, which
    declares every register cell in increasing register order, then every
    status cell in increasing flag order, then, under the fastcall
    convention, stores parameter 0 into the ECX cell and parameter 1 into
    the EDX cell where parameter and cell exist, and ends in a branch to
    the block of lowest address; if the function has no cell, no entry
    block is appended. *)
Theorem C4_entry_block f f' :
  translateFunc d sz ga tc dt f = Ok f' () →
  wf_blocks f → wf_cells f →
  ∃ F real,
    Function f' = Some F
    ∧ Forall (λ b, b.1 ≠ EntryBlock) real
    ∧ ((regs f' = ∅ ∧ status f' = ∅) ∧ body f' = body f ++ real
       ∨
       ∃ rs ss stores target,
         ¬ (regs f' = ∅ ∧ status f' = ∅)
         ∧ body f' =
             body f ++
             (EntryBlock,
              {| Insts := declare (regs f') rs ++ declare (status f') ss
                          ++ stores;
                 Term := Some (TermBr (BlockAt target)) |}) :: real
         ∧ StronglySorted N.lt rs
         ∧ (∀ r, r ∈ rs ↔ is_Some (regs f' !! r))
         ∧ StronglySorted N.lt ss
         ∧ (∀ s, s ∈ ss ↔ is_Some (status f' !! s))
         ∧ stores =
             match Conv F with
             | CallConvX86FastCall =>
                 match Params (Sig F) !! 0%nat, regs f' !! ECX with
                 | Some typ, Some ecx => [InstStore (Param 0 typ) (Alloca ecx)]
                 | _, _ => []
                 end ++
                 match Params (Sig F) !! 1%nat, regs f' !! EDX with
                 | Some typ, Some edx => [InstStore (Param 1 typ) (Alloca edx)]
                 | _, _ => []
                 end
             | _ => []
             end
         ∧ is_Some (blocks f !! target)
         ∧ (∀ k, is_Some (blocks f !! k) → target ≤ k)
         ∧ fst <$> head real = Some (BlockAt target)).
Proof.
  intros Hrun Hwf Hwc.
  destruct (translateFunc_body _ _ _ _ _ _ _ Hrun Hwf)
    as (F & _ & HF & _ & _ & Hwc' & _ & Hne & Hbody).
  specialize (Hwc' Hwc).
  exists (with_Blocks F (body f')), ((λ k, (BlockAt k, ir_of f' k)) <$> blockAddrs_of f).
  split; [done|]. split.
  { apply Forall_fmap, Forall_forall. by intros k _. }
  destruct (uses_cells f') eqn:Hu.
  - right.
    destruct (blockAddrs_of f) as [|target ks] eqn:Hks; [done|].
    pose proof (blockAddrs_of_sorted f Hwf) as Hsorted. rewrite Hks in Hsorted.
    exists (used (regs f') all_regs), (used (status f') all_status),
      (entry_stores F f'), target.
    destruct (used_regs f' Hwc') as [? ?], (used_status f' Hwc') as [? ?].
    split_and!; try done.
    + intros Hempty. apply uses_cells_false in Hempty. congruence.
    + rewrite Hbody. unfold entry_block. rewrite entry_allocas_used.
      simpl. by rewrite <-(assoc_L (++)).
    + apply (elem_of_blockAddrs_of f target Hwf). rewrite Hks. by left.
    + intros k Hk. apply (elem_of_blockAddrs_of f k Hwf) in Hk.
      rewrite Hks in Hk. apply StronglySorted_cons in Hsorted as [Hall _].
      rewrite Forall_forall in Hall.
      apply elem_of_cons in Hk as [->|Hk]; [lia|]. specialize (Hall k Hk). lia.
  - left. split; [by apply uses_cells_false|]. by rewrite Hbody.
Qed.
End assembler_claims.

(** ** Machine arithmetic without wrap-around *)

Lemma wrap64_small x : 0 ≤ x < 2 ^ 64 → wrap64 x = x.
Proof. intros. unfold wrap64. by apply Z.mod_small. Qed.

Lemma swrap64_small x : - 2 ^ 63 ≤ x < 2 ^ 63 → swrap64 x = x.
Proof. intros. unfold swrap64. rewrite Z.mod_small; lia. Qed.

(** ** Binary search *)

Lemma Search_loop_spec fuel (p : Z → bool) i j :
  0 ≤ i ≤ j → j - i ≤ Z.of_nat fuel →
  (∀ x y, i ≤ x ≤ y → y < j → p x = true → p y = true) →
  let r := Search_loop fuel p i j in
  i ≤ r ≤ j ∧ (∀ x, i ≤ x < r → p x = false) ∧ (∀ x, r ≤ x < j → p x = true).
Proof.
  revert i j. induction fuel as [|fuel IH]; intros i j Hij Hfuel Hmono; simpl.
  { split; [lia|]. split; intros; lia. }
  destruct (Z.ltb_spec i j) as [Hlt|Hge]; [|split; [lia|split; intros; lia]].
  rewrite Z.shiftr_div_pow2 by lia. change (2 ^ 1) with 2.
  assert (Hh : i ≤ (i + j) / 2 < j)
    by (split; [apply Z.div_le_lower_bound|apply Z.div_lt_upper_bound]; lia).
  destruct (p ((i + j) / 2)) eqn:Hp; simpl.
  - destruct (IH i ((i + j) / 2)) as (Hr & Hlo & Hhi); [lia|lia| |].
    { intros x y ??. apply Hmono; lia. }
    split; [lia|]. split; [done|]. intros x Hx.
    destruct (Z.lt_ge_cases x ((i + j) / 2)); [apply Hhi; lia|].
    apply (Hmono ((i + j) / 2)); [lia|lia|done].
  - destruct (IH ((i + j) / 2 + 1) j) as (Hr & Hlo & Hhi); [lia|lia| |].
    { intros x y ??. apply Hmono; lia. }
    split; [lia|]. split; [|done]. intros x Hx.
    destruct (Z.lt_ge_cases x ((i + j) / 2 + 1)); [|apply Hlo; lia].
    destruct (p x) eqn:Hpx; [|done].
    rewrite (Hmono x ((i + j) / 2)) in Hp; [done|lia|lia|done].
Qed.

Lemma Search_spec n (p : Z → bool) :
  0 ≤ n →
  (∀ x y, 0 ≤ x ≤ y → y < n → p x = true → p y = true) →
  0 ≤ Search n p ≤ n
  ∧ (∀ x, 0 ≤ x < Search n p → p x = false)
  ∧ (∀ x, Search n p ≤ x < n → p x = true).
Proof. intros Hn Hmono. apply Search_loop_spec; [lia|lia|done]. Qed.

(** ** The sorted addresses of the globals *)

Lemma sorted_lookup_le (l : list Z) (i j : nat) u v :
  StronglySorted Z.le l → l !! i = Some u → l !! j = Some v →
  (i ≤ j)%nat → u ≤ v.
Proof.
  intros Hl. revert i j. induction Hl as [|x l Hl IH Hx]; intros i j Hi Hj Hij.
  { done. }
  destruct i as [|i], j as [|j]; simplify_eq/=; try lia.
  - rewrite Forall_forall in Hx. apply Hx. by eapply list_elem_of_lookup_2.
  - eapply IH; [done..|lia].
Qed.

Lemma elem_of_globalAddrs d k :
  k ∈ globalAddrs d ↔ is_Some (globals d !! k).
Proof.
  unfold globalAddrs. rewrite sortAddresses_perm, list_elem_of_fmap. split.
  - intros [[k' g] [-> Hkg]]. apply elem_of_map_to_list in Hkg. eauto.
  - intros [g Hg]. exists (k, g). split; [done|]. by apply elem_of_map_to_list.
Qed.

Lemma at_index_lookup (l : list Z) (i : Z) :
  0 ≤ i < Z.of_nat (length l) → l !! Z.to_nat i = Some (at_index l i).
Proof.
  intros Hi. unfold at_index.
  destruct (lookup_lt_is_Some_2 l (Z.to_nat i)) as [x Hx]; [lia|].
  by rewrite Hx.
Qed.

Section predecessor.
Context (d : disassembler) (a : Address).

Local Abbreviation l := (globalAddrs d).
Local Abbreviation n := (Z.of_nat (length l)).
Local Abbreviation p := (λ i : Z, a <? at_index l i).

Lemma search_mono x y : 0 ≤ x ≤ y → y < n → p x = true → p y = true.
Proof.
  intros Hxy Hy. rewrite !Z.ltb_lt. intros Hx.
  pose proof (at_index_lookup l x) as Hlx.
  pose proof (at_index_lookup l y) as Hly.
  pose proof (sorted_lookup_le l (Z.to_nat x) (Z.to_nat y) _ _
                (sortAddresses_sorted _) (Hlx ltac:(lia)) (Hly ltac:(lia))).
  lia.
Qed.

(** The index found for an address with no global at or below it. *)
Lemma search_below :
  (∀ k, is_Some (globals d !! k) → a < k) → Search n p = 0.
Proof.
  intros Hall.
  destruct (Search_spec n p) as (Hr & Hlo & _); [lia|apply search_mono|].
  destruct (Z.eq_dec (Search n p) 0) as [|Hne]; [done|].
  specialize (Hlo 0 ltac:(lia)). simpl in Hlo. apply Z.ltb_ge in Hlo.
  pose proof (at_index_lookup l 0 ltac:(lia)) as Hl0.
  apply list_elem_of_lookup_2, elem_of_globalAddrs, Hall in Hl0. lia.
Qed.

(** The index found for an address whose greatest global start below is
    [start]. *)
Lemma search_predecessor start :
  is_Some (globals d !! start) → start ≤ a →
  (∀ k, is_Some (globals d !! k) → k ≤ a → k ≤ start) →
  0 ≤ Search n p - 1 < n ∧ at_index l (Search n p - 1) = start.
Proof.
  intros Hstart Hle Hmax.
  destruct (Search_spec n p) as (Hr & Hlo & Hhi); [lia|apply search_mono|].
  apply elem_of_globalAddrs, list_elem_of_lookup_1 in Hstart as [i Hi].
  pose proof (lookup_lt_Some _ _ _ Hi) as Hlen.
  assert (Hpi : (a <? at_index l (Z.of_nat i)) = false).
  { unfold at_index. rewrite Nat2Z.id, Hi. simpl. by apply Z.ltb_ge. }
  assert (Z.of_nat i < Search n p).
  { destruct (Z.lt_ge_cases (Z.of_nat i) (Search n p)); [done|].
    pose proof (Hhi (Z.of_nat i) ltac:(lia)) as Ht. simpl in *. congruence. }
  split; [lia|].
  pose proof (at_index_lookup l (Search n p - 1) ltac:(lia)) as Hu.
  assert (Hua : at_index l (Search n p - 1) ≤ a).
  { specialize (Hlo (Search n p - 1) ltac:(lia)). simpl in Hlo.
    by apply Z.ltb_ge in Hlo. }
  pose proof (Hmax _ (proj1 (elem_of_globalAddrs d _)
                        (list_elem_of_lookup_2 _ _ _ Hu)) Hua).
  pose proof (sorted_lookup_le l i (Z.to_nat (Search n p - 1)) _ _
                (sortAddresses_sorted _) Hi Hu ltac:(lia)).
  lia.
Qed.
End predecessor.

(** ** Walking into an array *)

Lemma arrayLoop_index (m : nat) (s k j : Z) :
  0 < s → 0 ≤ j ≤ k → k - j < Z.of_nat m → (k + 1) * s < 2 ^ 63 →
  arrayLoop m s (k * s) j (j * s) = (k, k * s).
Proof.
  revert j. induction m as [|m IH]; intros j Hs Hj Hm Hbound; [lia|].
  simpl. unfold add64. rewrite swrap64_small by nia.
  destruct (Z.ltb_spec (k * s) (j * s + s)) as [Hlt|Hge].
  - assert (j = k) as -> by nia. done.
  - replace (j * s + s) with ((j + 1) * s) by lia. apply IH; [done| |lia|done].
    nia.
Qed.

Section global_claims.
Context (d : disassembler) (sz : type → Z).

Lemma gepWalk_done e total offset :
  offset ≤ total → gepWalk sz e total offset = inr [].
Proof.
  intros Hle. destruct e; simpl; by rewrite (proj2 (Z.leb_le _ _) Hle).
Qed.

Lemma gepWalk_array n T k :
  0 < sz T → 1 ≤ k < n → (k + 1) * sz T < 2 ^ 63 →
  gepWalk sz (ArrayType n T) 0 (k * sz T) = inr [ConstInt k I64].
Proof.
  intros Hs Hk Hbound. simpl.
  destruct (Z.leb_spec (k * sz T) 0) as [|_]; [nia|].
  rewrite (arrayLoop_index _ _ k 0) by lia.
  by rewrite gepWalk_done.
Qed.

Lemma global_exact block a g f :
  globals d !! a = Some g → global d sz block a f = Ok f (GlobalRef a).
Proof. intros Hg. unfold global. by rewrite Hg. Qed.

Lemma global_below block a f :
  (∀ k, is_Some (globals d !! k) → a < k) →
  global d sz block a f = Panic (PanicGlobal a).
Proof.
  intros Hall. unfold global.
  destruct (globals d !! a) eqn:Ha.
  { specialize (Hall a ltac:(eauto)). lia. }
  by rewrite (search_below d a Hall).
Qed.

Lemma global_predecessor block a start g f :
  globals d !! a = None → globals d !! start = Some g → start ≤ a →
  (∀ k, is_Some (globals d !! k) → k ≤ a → k ≤ start) →
  global d sz block a f =
  if a <? addr_add start (wrap64 (sz (global_elem g)))
  then getElementPtr sz block (GlobalRef start) (Global_Typ g)
         (swrap64 (addr_sub a start)) f
  else Panic (PanicGlobal a).
Proof.
  intros Ha Hg Hle Hmax. unfold global. rewrite Ha.
  destruct (search_predecessor d a start) as [Hidx ->]; [eauto|done|done|].
  rewrite (proj2 (Z.leb_le _ _) (proj1 Hidx)).
  rewrite (proj2 (Z.ltb_lt _ _) (proj2 Hidx)).
  cbn [andb]. rewrite Hg. rewrite (proj2 (Z.leb_le _ _) Hle). cbn [andb].
  by destruct (a <? _).
Qed.

(** C2, amended. An address that is the start of a global resolves to the
    global itself, without an element path (this is the case [k = 0] of
    an array, and the case of an address in or behind an array at which
    another global starts).  An address at which no global starts is
    resolved through the global with the greatest start address at or
    below it: resolution aborts with "unable to locate global variable"
    if there is none or if the address is not below [start + size];
    otherwise the element path is computed from the offset.  For a global
    of type [T[n]] with element size [s > 0] at [start], and an address
    [start + k*s] at which no global starts and for which [start] is the
    greatest start address at or below it: with [1 ≤ k < n] the address
    yields the element reference with path [0, k], and with [k = n] the
    resolution aborts. *)
Theorem C2_global_resolution block a f :
  (∀ g, globals d !! a = Some g →
        global d sz block a f = Ok f (GlobalRef a))
  ∧ (globals d !! a = None →
     ((∀ k, is_Some (globals d !! k) → a < k) →
      global d sz block a f = Panic (PanicGlobal a))
     ∧ ∀ start g,
         globals d !! start = Some g → start ≤ a →
         (∀ k, is_Some (globals d !! k) → k ≤ a → k ≤ start) →
         let end_ := addr_add start (wrap64 (sz (global_elem g))) in
         (a < end_ →
          global d sz block a f =
          getElementPtr sz block (GlobalRef start) (Global_Typ g)
            (swrap64 (addr_sub a start)) f)
         ∧ (end_ ≤ a → global d sz block a f = Panic (PanicGlobal a))
         ∧ ∀ n T k,
             global_elem g = ArrayType n T →
             sz (ArrayType n T) = n * sz T → 0 < sz T → 0 ≤ n →
             0 ≤ start → start + n * sz T < 2 ^ 64 → n * sz T < 2 ^ 63 →
             a = start + k * sz T →
             (1 ≤ k < n →
              let ref := GetElementPtr (GlobalRef start)
                           [ConstInt 0 I64; ConstInt k I64] in
              global d sz block a f =
              Ok (append_inst block (InstValue ref) f) ref)
             ∧ (k = n → global d sz block a f = Panic (PanicGlobal a))).
Proof.
  split; [intros g; apply global_exact|]. intros Ha.
  split; [apply global_below|]. intros start g Hg Hle Hmax end_.
  pose proof (global_predecessor block a start g f Ha Hg Hle Hmax) as Hglobal.
  fold end_ in Hglobal. split_and!.
  - intros Hlt. by rewrite Hglobal, (proj2 (Z.ltb_lt _ _) Hlt).
  - intros Hge. by rewrite Hglobal, (proj2 (Z.ltb_ge _ _) Hge).
  - intros n T k Helem Hsize Hs Hn Hstart Hend Hoff ->.
    assert (Hend_ : end_ = start + n * sz T).
    { unfold end_, addr_add. rewrite Helem, Hsize.
      rewrite (wrap64_small (n * sz T)) by nia. apply wrap64_small. nia. }
    rewrite Hend_ in Hglobal. split.
    + intros Hk ref.
      assert (Hlt : start + k * sz T < start + n * sz T) by nia.
      rewrite Hglobal, (proj2 (Z.ltb_lt _ _) Hlt).
      unfold addr_sub. replace (start + k * sz T - start) with (k * sz T) by lia.
      rewrite wrap64_small, swrap64_small by nia.
      unfold getElementPtr, Global_Typ. rewrite Helem.
      destruct (Z.leb_spec (k * sz T) 0) as [|_]; [nia|].
      rewrite gepWalk_array by nia. reflexivity.
    + intros ->. rewrite Hglobal. by rewrite Z.ltb_irrefl.
Qed.
End global_claims.

Section failures.
Context (d : disassembler) (sz : type → Z) (ga : Address → Arg → list Address)
  (tc : Address → instruction → bool) (dt : instruction → bool).

Lemma translateTerm_fallthrough_missing block term f :
  dt term = true → blocks f !! inst_addr term = None →
  translateTerm d sz ga tc dt block term f = Err f (ErrNoBlock (inst_addr term)).
Proof.
  intros Hdt Hb. unfold translateTerm. rewrite Hdt. run. by rewrite Hb.
Qed.

Lemma instCALL_invalid_callee block inst f f1 c :
  useArg d sz block (Some inst) (arg_at inst 0) f = Ok f1 c →
  (∀ a, c ≠ FuncRef a) →
  instCALL d sz block inst f = Err f1 (ErrInvalidCallee c).
Proof.
  intros Hc Hnot. unfold instCALL. unfold mbind at 1, M_bind at 1.
  rewrite Hc. destruct c; try done. by destruct (Hnot a).
Qed.

Lemma defArg_not_writable block i arg v f :
  match arg with ArgImm _ | ArgRel _ | ArgNil => True | _ => False end →
  defArg d sz block i arg v f = Panic (PanicArgType arg).
Proof. by destruct arg. Qed.

Lemma translateBlock_term_error block b f f1 f2 e :
  blocks f !! block = Some b →
  forM_ (insts b) (translateInst d sz block) f = Ok f1 () →
  translateTerm d sz ga tc dt block (term b) f1 = Err f2 e →
  translateBlock d sz ga tc dt block f = Err f2 e.
Proof.
  intros Hb Hi Ht. unfold translateBlock, get.
  unfold mbind at 1, M_bind at 1. rewrite Hb.
  unfold mbind, M_bind. by rewrite Hi.
Qed.

Lemma translateBlock_inst_error block b f f1 e :
  blocks f !! block = Some b →
  forM_ (insts b) (translateInst d sz block) f = Err f1 e →
  translateBlock d sz ga tc dt block f = Err f1 e.
Proof.
  intros Hb Hi. unfold translateBlock, get.
  unfold mbind at 1, M_bind at 1. rewrite Hb.
  unfold mbind, M_bind. by rewrite Hi.
Qed.

Lemma translateFunc_block_error f prefix a rest f1 f2 e :
  blockAddrs_of f = prefix ++ a :: rest →
  forM_ prefix (translateBlock d sz ga tc dt) (init f) = Ok f1 () →
  translateBlock d sz ga tc dt a f1 = Err f2 e →
  translateFunc d sz ga tc dt f = Err f2 e.
Proof.
  intros Hk Hp Ha. rewrite translateFunc_eq, Hk, forM__app, Hp.
  simpl. unfold mbind, M_bind. by rewrite Ha.
Qed.

(** C1, amended. A fall-through terminator or a branch whose target is
    not a block, a branch operand that does not resolve to one address, a
    callee that is not a function and an empty block map are reported as
    error values: the failing step returns the error, the translation of
    the block returns it, and [translateFunc] returns it to its caller.
    The error of a missing block carries an address (for the fall-through
    terminator and the true target, the address that was looked up), the
    error of a callee carries the callee, the other two carry no address.
    An address at which no global can be located and a write to an
    immediate or relative operand are not error values: they abort the
    run. *)
Theorem C1_structural_failures block f :
  (∀ term,
      dt term = true → blocks f !! inst_addr term = None →
      translateTerm d sz ga tc dt block term f
      = Err f (ErrNoBlock (inst_addr term)))
  ∧ (∀ term t,
        ga (next_addr term) (arg_at term 0) = [t] →
        (blocks f !! t = None →
         termCondBranch ga block term f = Err f (ErrNoBlock t))
        ∧ (blocks f !! next_addr term = None →
           ∃ a, termCondBranch ga block term f = Err f (ErrNoBlock a)))
  ∧ (∀ term,
        (∀ t, ga (next_addr term) (arg_at term 0) ≠ [t]) →
        termCondBranch ga block term f
        = Err f (ErrTrueBranches
                   (length (ga (next_addr term) (arg_at term 0)))))
  ∧ (∀ inst f1 c,
        useArg d sz block (Some inst) (arg_at inst 0) f = Ok f1 c →
        (∀ a, c ≠ FuncRef a) →
        instCALL d sz block inst f = Err f1 (ErrInvalidCallee c))
  ∧ (blocks f = ∅ →
     translateFunc d sz ga tc dt f = Err (init f) ErrMissingBody)
  ∧ (∀ b f1 f2 e,
        blocks f !! block = Some b →
        forM_ (insts b) (translateInst d sz block) f = Ok f1 () →
        translateTerm d sz ga tc dt block (term b) f1 = Err f2 e →
        translateBlock d sz ga tc dt block f = Err f2 e)
  ∧ (∀ b f1 e,
        blocks f !! block = Some b →
        forM_ (insts b) (translateInst d sz block) f = Err f1 e →
        translateBlock d sz ga tc dt block f = Err f1 e)
  ∧ (∀ prefix a rest f1 f2 e,
        blockAddrs_of f = prefix ++ a :: rest →
        forM_ prefix (translateBlock d sz ga tc dt) (init f) = Ok f1 () →
        translateBlock d sz ga tc dt a f1 = Err f2 e →
        translateFunc d sz ga tc dt f = Err f2 e)
  ∧ (∀ a,
        (∀ k, is_Some (globals d !! k) → a < k) →
        global d sz block a f = Panic (PanicGlobal a))
  ∧ (∀ a start g,
        globals d !! a = None → globals d !! start = Some g → start ≤ a →
        (∀ k, is_Some (globals d !! k) → k ≤ a → k ≤ start) →
        addr_add start (wrap64 (sz (global_elem g))) ≤ a →
        global d sz block a f = Panic (PanicGlobal a))
  ∧ (∀ i arg v,
        match arg with ArgImm _ | ArgRel _ | ArgNil => True | _ => False end →
        defArg d sz block i arg v f = Panic (PanicArgType arg)).
Proof.
  split_and!.
  - intros. by apply translateTerm_fallthrough_missing.
  - intros term t Hga. split; intros Hnone.
    + apply termCondBranch_no_block; auto.
    + eexists. apply termCondBranch_no_block; eauto.
  - intros. by apply termCondBranch_targets.
  - intros. by eapply instCALL_invalid_callee.
  - intros Hb. rewrite translateFunc_eq, (blockAddrs_of_empty f Hb). reflexivity.
  - intros. by eapply translateBlock_term_error.
  - intros. by eapply translateBlock_inst_error.
  - intros. by eapply translateFunc_block_error.
  - intros. by apply global_below.
  - intros a start g Ha Hg Hle Hmax Hend.
    rewrite (global_predecessor d sz block a start g f Ha Hg Hle Hmax).
    by rewrite (proj2 (Z.ltb_ge _ _) Hend).
  - intros. by apply defArg_not_writable.
Qed.
End failures.

(** ** The claims on the example functions *)

Lemma wf_cells_empty F e bs : wf_cells (mkFunction F e bs).
Proof. split; intros ??; simpl; by rewrite lookup_empty. Qed.

Lemma demo_translated : translate_demo demo = Ok (final demo) ().
Proof. by vm_compute. Qed.

Lemma stray_fails : translate_demo stray = Err (final stray) (ErrNoBlock 4228).
Proof. by vm_compute. Qed.

Lemma wf_blocks_demo : wf_blocks demo.
Proof. unfold wf_blocks. apply (bool_decide_unpack _). by vm_compute. Qed.

Example demo_block_order :
  (body (final demo)).*1 = [EntryBlock; BlockAt 4096; BlockAt 4112; BlockAt 4128].
Proof. by vm_compute. Qed.

(** The error for a missing fall-through block names the true target, not
    the address that was looked up. *)
Example gap_error_names_true_target :
  blocks gap !! 4128 = Some (mkBlock 4128 [] demo_ret)
  ∧ blocks gap !! next_addr demo_jne = None
  ∧ next_addr demo_jne = 4112
  ∧ termCondBranch getAddrs_model 4096 demo_jne gap = Err gap (ErrNoBlock 4128).
Proof. by vm_compute. Qed.

Example stray_keeps_eax :
  body (final stray) = []
  ∧ regs (final stray) !! EAX = Some {| alloca_name := "eax"; alloca_elem := I32 |}.
Proof. by vm_compute. Qed.

Lemma wf_blocks_stray : wf_blocks stray.
Proof. unfold wf_blocks. apply (bool_decide_unpack _). by vm_compute. Qed.

Lemma greatest_start (m : gmap Z Global) (a start : Address) :
  map_Forall (λ k _, k ≤ a → k ≤ start) m →
  ∀ k, is_Some (m !! k) → k ≤ a → k ≤ start.
Proof. intros H k [g Hg]. by apply (H k g). Qed.

(** C1 on the examples: the empty function and the stray branch return
    errors, a write to an immediate aborts. *)
Lemma C1_structural_failures_witness :
  translate_demo hollow = Err (init hollow) ErrMissingBody
  ∧ termCondBranch getAddrs_model 4112 stray_jne stray
    = Err stray (ErrNoBlock 4228)
  ∧ defArg no_tables sizeOfType_model 4096 None (ArgImm 5) (ConstInt 0 I32) demo
    = Panic (PanicArgType (ArgImm 5)).
Proof.
  split_and!.
  - apply (C1_structural_failures no_tables sizeOfType_model getAddrs_model
             no_tail_call isDummyTerm_model 4096 hollow).
    reflexivity.
  - apply (C1_structural_failures no_tables sizeOfType_model getAddrs_model
             no_tail_call isDummyTerm_model 4112 stray); reflexivity.
  - apply (C1_structural_failures no_tables sizeOfType_model getAddrs_model
             no_tail_call isDummyTerm_model 4096 demo).
    exact I.
Defined.

(** C1 as stated fails: a write to an immediate operand and an address
    without a global do not produce an error value. *)
Lemma C1_counterexample :
  defArg no_tables sizeOfType_model 4096 None (ArgImm 5) (ConstInt 0 I32) demo
  = Panic (PanicArgType (ArgImm 5))
  ∧ global no_tables sizeOfType_model 4096 8192 demo = Panic (PanicGlobal 8192)
  ∧ ¬ (∃ f' e,
         defArg no_tables sizeOfType_model 4096 None (ArgImm 5)
           (ConstInt 0 I32) demo = Err f' e)
  ∧ ¬ (∃ f' e, global no_tables sizeOfType_model 4096 8192 demo = Err f' e).
Proof.
  split_and!; [reflexivity|by vm_compute| |].
  - by intros (f' & e & H).
  - intros (f' & e & H). vm_compute in H. discriminate.
Qed.

(** C2 on the examples: the third element of the array and the address one
    past its end. *)
Lemma C2_global_resolution_witness :
  let ref := GetElementPtr (GlobalRef 8192) [ConstInt 0 I64; ConstInt 2 I64] in
  global demo_tables sizeOfType_model 4096 (8192 + 2 * 4) demo
  = Ok (append_inst 4096 (InstValue ref) demo) ref
  ∧ global demo_tables sizeOfType_model 4096 (8192 + 4 * 4) demo
    = Panic (PanicGlobal (8192 + 4 * 4)).
Proof.
  split.
  - apply (C2_global_resolution demo_tables sizeOfType_model 4096
             (8192 + 2 * 4) demo)
      with (start := 8192) (g := {| global_elem := ArrayType 4 I32 |})
           (n := 4) (T := I32) (k := 2);
      try reflexivity; try lia.
    apply greatest_start. apply (bool_decide_unpack _). by vm_compute.
  - apply (C2_global_resolution demo_tables sizeOfType_model 4096
             (8192 + 4 * 4) demo)
      with (start := 8192) (g := {| global_elem := ArrayType 4 I32 |})
           (n := 4) (T := I32) (k := 4);
      try reflexivity; try lia.
    apply greatest_start. apply (bool_decide_unpack _). by vm_compute.
Defined.

(** C2 as stated fails at [k = 0]: the address of the array resolves to the
    array itself, not to the element reference with path [0, 0]. *)
Lemma C2_counterexample :
  globals demo_tables !! 8192 = Some {| global_elem := ArrayType 4 I32 |}
  ∧ global demo_tables sizeOfType_model 4096 (8192 + 0 * 4) demo
    = Ok demo (GlobalRef 8192)
  ∧ ¬ (∃ f',
         global demo_tables sizeOfType_model 4096 (8192 + 0 * 4) demo
         = Ok f' (GetElementPtr (GlobalRef 8192)
                    [ConstInt 0 I64; ConstInt 0 I64])).
Proof.
  split_and!; [reflexivity|reflexivity|].
  intros (f' & H). vm_compute in H. discriminate.
Qed.

(** C3 on the first block of the example. *)
Lemma C3_conditional_branch_witness :
  ir_at demo 4096 = Some emptyIR
  ∧ ∃ f' zf,
      termCondBranch getAddrs_model 4096 demo_jne demo = Ok f' ()
      ∧ status f' !! ZF = Some zf
      ∧ ir_at f' 4096 =
        Some {| Insts := [InstValue (Load (Alloca zf));
                          InstValue (ICmp IntEQ (Load (Alloca zf)) ConstFalse)];
                Term := Some (TermCondBr
                                (ICmp IntEQ (Load (Alloca zf)) ConstFalse)
                                (BlockAt 4128) (BlockAt 4112)) |}.
Proof.
  split; [reflexivity|].
  apply (C3_conditional_branch getAddrs_model 4096 demo_jne demo emptyIR
           eq_refl) with (t := 4128); try reflexivity; by eexists.
Defined.

(** C4 on the example. *)
Lemma C4_entry_block_witness :
  translate_demo demo = Ok (final demo) ()
  ∧ wf_blocks demo ∧ wf_cells demo
  ∧ ∃ F real,
      Function (final demo) = Some F
      ∧ Forall (λ b, b.1 ≠ EntryBlock) real
      ∧ ∃ entry, body (final demo) = (EntryBlock, entry) :: real.
Proof.
  split_and!; [apply demo_translated|apply wf_blocks_demo|apply wf_cells_empty|].
  destruct (C4_entry_block no_tables sizeOfType_model getAddrs_model
              no_tail_call isDummyTerm_model demo (final demo)
              demo_translated wf_blocks_demo (wf_cells_empty _ _ _))
    as (F & real & HF & Hreal & [[[Hregs _] _]|H]).
  - exfalso. apply (f_equal (.!! EAX)) in Hregs. vm_compute in Hregs. discriminate.
  - destruct H as (rs & ss & stores & target & _ & Hbody & _).
    exists F, real. split_and!; [done..|]. eexists. exact Hbody.
Defined.

(** C5 on the comparison of the example. *)
Lemma C5_compare_flags_witness :
  ∃ f' zf sf,
    instCMP no_tables sizeOfType_model 4096 demo_cmp demo = Ok f' ()
    ∧ status f' !! ZF = Some zf ∧ status f' !! SF = Some sf
    ∧ status f' !! CF = None ∧ status f' !! PF = None
    ∧ status f' !! AF = None ∧ status f' !! OF = None.
Proof.
  destruct (C5_compare_flags no_tables sizeOfType_model 4096 demo_cmp demo
              _ _ _ _ emptyIR eq_refl eq_refl eq_refl)
    as (f' & zf & sf & reads & Hrun & _ & _ & Hzf & Hsf & Hother & _).
  exists f', zf, sf. split_and!; try done; by rewrite Hother.
Defined.

(** C6 on the last block of the example. *)
Lemma C6_return_and_tail_call_witness :
  Function demo = Some demo_sig ∧ ir_at demo 4128 = Some emptyIR
  ∧ ∃ f' eax,
      termRET no_tables sizeOfType_model 4128 demo_ret demo = Ok f' ()
      ∧ regs f' !! EAX = Some eax
      ∧ ir_at f' 4128 =
        Some {| Insts := [InstValue (Load (Alloca eax))];
                Term := Some (TermRet (Some (Load (Alloca eax)))) |}.
Proof.
  split_and!; [reflexivity..|].
  by apply (C6_return_and_tail_call no_tables sizeOfType_model no_tail_call
              4128 demo_ret demo demo_sig emptyIR eq_refl eq_refl).
Defined.

(** C7 on the example: blocks at 4096 < 4112 < 4128. *)
Lemma C7_block_order_witness :
  translate_demo demo = Ok (final demo) () ∧ wf_blocks demo
  ∧ ∃ entry keys,
      body (final demo) =
      body demo ++ entry ++ ((λ k, (BlockAt k, ir_of (final demo) k)) <$> keys)
      ∧ StronglySorted Z.lt keys
      ∧ (∀ k, k ∈ keys ↔ is_Some (blocks demo !! k))
      ∧ (entry = [] ∨ ∃ b, entry = [(EntryBlock, b)]).
Proof.
  split_and!; [apply demo_translated|apply wf_blocks_demo|].
  exact (C7_block_order no_tables sizeOfType_model getAddrs_model
           no_tail_call isDummyTerm_model demo (final demo)
           demo_translated wf_blocks_demo).
Defined.

(** C8 on the function without blocks. *)
Lemma C8_missing_function_body_witness :
  blocks hollow = ∅
  ∧ ∃ f', translate_demo hollow = Err f' ErrMissingBody
          ∧ body f' = body hollow ∧ blocks f' = ∅.
Proof.
  split; [reflexivity|].
  exact (C8_missing_function_body no_tables sizeOfType_model getAddrs_model
           no_tail_call isDummyTerm_model hollow eq_refl).
Defined.


(** C10 on the function with the stray branch: the cells of the first
    block survive the failure of the second. *)
Lemma C10_error_keeps_cells_witness :
  translate_demo stray = Err (final stray) (ErrNoBlock 4228)
  ∧ body (final stray) = body stray
  ∧ regs stray ⊆ regs (final stray) ∧ status stray ⊆ status (final stray)
  ∧ ∀ done rest f1,
      blockAddrs_of stray = done ++ rest →
      forM_ done (translateBlock no_tables sizeOfType_model getAddrs_model
                    no_tail_call isDummyTerm_model) (init stray) = Ok f1 () →
      regs f1 ⊆ regs (final stray) ∧ status f1 ⊆ status (final stray).
Proof.
  split; [apply stray_fails|].
  exact (C10_error_keeps_cells no_tables sizeOfType_model getAddrs_model
           no_tail_call isDummyTerm_model stray (final stray) _ stray_fails).
Defined.

(** * Further properties of the translator *)

(** ** The register and status-flag store *)

(** X1. [reg] on a register without a cell: registers AL..RIP get a cell of
    their width, every other register aborts the run. *)
Theorem reg_supported_registers (r : Reg) f :
  regs f !! r = None →
  ((AL ≤ r ≤ RIP)%N →
   ∃ typ, typ ∈ [I8; I16; I32; I64]
          ∧ reg r f = Ok (alloc_reg r (reg_cell r typ) f)
                         (Alloca (reg_cell r typ)))
  ∧ (¬ (AL ≤ r ≤ RIP)%N → reg r f = Panic (PanicReg r)).
Proof.
  intros Hnone. unfold reg. rewrite Hnone. split.
  - intros Hrange. destruct (reg_type r) as [typ|] eqn:Ht.
    + exists typ. split; [|done]. revert Ht. unfold reg_type.
      repeat match goal with
             | |- context [if ?b then _ else _] => destruct b
             end; intros [= <-]; clear; set_solver.
    + exfalso. revert Ht. unfold reg_type, AL, R15B, AX, R15W, EAX, R15L, RAX,
        R15, IP, EIP, RIP in *.
      repeat match goal with
             | |- context [if ?b then _ else _] => destruct b eqn:?
             end; try done.
      repeat match goal with
             | H : _ && _ = false |- _ => apply andb_false_iff in H as []
             | H : (_ <=? _)%N = false |- _ => apply N.leb_gt in H
             | H : (_ =? _)%N = false |- _ => apply N.eqb_neq in H
             end; lia.
  - intros Hr. destruct (reg_type r) as [typ|] eqn:Ht; [|done].
    by apply reg_type_range in Ht.
Qed.

(** X2. A register has one cell for the whole translation of a function: once
    [reg] has returned a cell, asking again returns the same cell and
    leaves the function as it is, and the cells of the other registers are
    not touched. *)
Theorem reg_single_allocation (r : Reg) f f1 v :
  reg r f = Ok f1 v →
  reg r f1 = Ok f1 v
  ∧ (∃ c, v = Alloca c ∧ regs f1 !! r = Some c)
  ∧ (∀ r' : Reg, r' ≠ r → regs f1 !! r' = regs f !! r')
  ∧ (is_Some (regs f !! r) → f1 = f)
  ∧ status f1 = status f ∧ blocks f1 = blocks f.
Proof.
  unfold reg. destruct (regs f !! r) as [c|] eqn:Hr.
  - intros [= <- <-]. rewrite Hr. split_and!; eauto.
  - destruct (reg_type r) as [typ|]; [|done]. intros [= <- <-].
    pose proof (lookup_alloc_reg r (reg_cell r typ) f) as Hnew.
    rewrite Hnew. split_and!; eauto; try done.
    intros r' Hne. rewrite regs_alloc_reg. by rewrite lookup_insert_ne.
Qed.

(** X3. [status] never fails; a flag has one cell for the whole translation of
    a function, a one-bit cell named after the flag when it is created, and
    the cells of the other flags and of the registers are not touched. *)
Theorem status_single_allocation (s : StatusFlag) f :
  ∃ f1 c,
    status_ s f = Ok f1 (Alloca c)
    ∧ status_ s f1 = Ok f1 (Alloca c)
    ∧ status f1 !! s = Some c
    ∧ (status f !! s = None → c = status_cell s ∧ alloca_elem c = I1)
    ∧ (∀ v, status f !! s = Some v → c = v ∧ f1 = f)
    ∧ (∀ s' : StatusFlag, s' ≠ s → status f1 !! s' = status f !! s')
    ∧ regs f1 = regs f ∧ blocks f1 = blocks f.
Proof.
  unfold status_. destruct (status f !! s) as [c|] eqn:Hs.
  - exists f, c. rewrite Hs. split_and!; try done. by intros ? [= ->].
  - pose proof (status_alloc_status s (status_cell s) f) as Hm.
    assert (Hnew : status (alloc_status s (status_cell s) f) !! s
                   = Some (status_cell s))
      by (rewrite Hm; apply lookup_insert_eq).
    eexists _, _. split; [reflexivity|]. rewrite Hnew.
    split_and!; try done.
    intros s' Hne. rewrite status_alloc_status. by rewrite lookup_insert_ne.
Qed.

(** ** A logic for the steps of a block translation *)

Global Instance writes_refl block : Reflexive (writes block).
Proof. intros f. split; try done. intros b Hb. exists b. done. Qed.

Global Instance writes_trans block : Transitive (writes block).
Proof.
  intros f1 f2 f3 [Hr1 Hs1 Hf1 Hp1] [Hr2 Hs2 Hf2 Hp2]. split.
  - by etrans.
  - by etrans.
  - intros k Hk. by rewrite Hf2, Hf1.
  - intros b Hb. destruct (Hp1 b Hb) as (b2 & Hb2 & Hpre1).
    destruct (Hp2 b2 Hb2) as (b3 & Hb3 & Hpre2).
    exists b3. split; [done|]. by etrans.
Qed.

Lemma declared_mono block f f' c : writes block f f' → declared f c → declared f' c.
Proof.
  intros [Hr Hs _ _] [[r Hc]|[s Hc]]; [left; exists r|right; exists s];
    eapply lookup_weaken; eauto.
Qed.

(** Induction on values, through the arguments of calls and the indices of
    element references. *)
Lemma value_ind' (P : value → Prop) :
  (∀ x t, P (ConstInt x t)) → (∀ i t, P (Param i t)) →
  (∀ a, P (FuncRef a)) → (∀ a, P (GlobalRef a)) → (∀ c, P (Alloca c)) →
  (∀ src, P src → P (Load src)) →
  (∀ x y, P x → P y → P (Add x y)) → (∀ x y, P x → P y → P (And x y)) →
  (∀ x y, P x → P y → P (Mul x y)) → (∀ x y, P x → P y → P (Xor x y)) →
  (∀ p x y, P x → P y → P (ICmp p x y)) →
  (∀ callee args, Forall P args → P (Call callee args)) →
  (∀ src idx, P src → Forall P idx → P (GetElementPtr src idx)) →
  ∀ v, P v.
Proof.
  intros HC HP HF HG HA HL Hadd Hand Hmul Hxor Hcmp Hcall Hgep.
  fix IH 1. intros [x t|i t|a|a|c|src|x y|x y|x y|x y|p x y|callee args|src idx].
  - apply HC.
  - apply HP.
  - apply HF.
  - apply HG.
  - apply HA.
  - apply HL, IH.
  - apply Hadd; apply IH.
  - apply Hand; apply IH.
  - apply Hmul; apply IH.
  - apply Hxor; apply IH.
  - apply Hcmp; apply IH.
  - apply Hcall. induction args as [|a args IHargs]; constructor; [apply IH|exact IHargs].
  - apply Hgep; [apply IH|].
    induction idx as [|a idx IHidx]; constructor; [apply IH|exact IHidx].
Qed.

Lemma val_cells_all (D : InstAlloca → Prop) (l : list value) :
  (fix all (l : list value) : Prop :=
     match l with
     | [] => True
     | a :: l' => val_cells D a ∧ all l'
     end) l ↔ Forall (val_cells D) l.
Proof.
  induction l as [|a l IH]; [by split|]. rewrite Forall_cons, <-IH. done.
Qed.

Lemma val_cells_Call D callee args :
  val_cells D (Call callee args) ↔ Forall (val_cells D) args.
Proof. apply val_cells_all. Qed.

Lemma val_cells_GetElementPtr D src idx :
  val_cells D (GetElementPtr src idx)
  ↔ val_cells D src ∧ Forall (val_cells D) idx.
Proof. simpl. by rewrite val_cells_all. Qed.

Lemma val_cells_impl (D D' : InstAlloca → Prop) v :
  (∀ c, D c → D' c) → val_cells D v → val_cells D' v.
Proof.
  intros HD. induction v as [| | | | |src IH|x y IHx IHy|x y IHx IHy|x y IHx IHy
                             |x y IHx IHy|p x y IHx IHy|callee args IH|src idx IHs IH]
    using value_ind'; try done; try (simpl; by auto);
    try (simpl; intros [? ?]; split; by auto).
  - rewrite !val_cells_Call. intros Hargs.
    rewrite Forall_forall in *. intros a Ha. apply IH; auto.
  - rewrite !val_cells_GetElementPtr. intros [Hsrc Hidx]. split; [auto|].
    rewrite Forall_forall in *. intros a Ha. apply IH; auto.
Qed.

Lemma inst_cells_impl (D D' : InstAlloca → Prop) i :
  (∀ c, D c → D' c) → inst_cells D i → inst_cells D' i.
Proof.
  intros HD. destruct i; simpl; [|intros []; split]; by eapply val_cells_impl.
Qed.

Lemma term_cells_impl (D D' : InstAlloca → Prop) t :
  (∀ c, D c → D' c) → term_cells D t → term_cells D' t.
Proof.
  intros HD. destruct t as [| |[x|]]; simpl; try done; by eapply val_cells_impl.
Qed.

Lemma ir_cells_impl (D D' : InstAlloca → Prop) b :
  (∀ c, D c → D' c) → ir_cells D b → ir_cells D' b.
Proof.
  intros HD [Hi Ht]. split.
  - eapply Forall_impl; [done|]. intros i. by apply inst_cells_impl.
  - destruct (Term b); [|done]. by eapply term_cells_impl.
Qed.

Lemma recorded_mono block v : mono block (recorded v).
Proof.
  intros f f' Hw. unfold recorded. apply val_cells_impl. intros c.
  by apply (declared_mono block).
Qed.

Lemma recorded_all_mono block (l : list value) :
  mono block (λ f, Forall (λ a, recorded a f) l).
Proof.
  intros f f' Hw Hl. eapply Forall_impl; [exact Hl|]. intros a Ha.
  by apply (recorded_mono block a f).
Qed.

Lemma mono_and block (P Q : function → Prop) :
  mono block P → mono block Q → mono block (λ f, P f ∧ Q f).
Proof. intros HP HQ f f' Hw [? ?]. split; [by eapply HP|by eapply HQ]. Qed.

Lemma mono_True block : mono block (λ _, True).
Proof. done. Qed.

Section triples.
Context (block : Address).

Lemma triple_ret {A} P (a : A) (Q : A → function → Prop) E :
  (∀ f, P f → Q a f) → triple block P (mret a) Q E.
Proof. intros HQ f. unfold mret, M_ret. split; [reflexivity|]. auto. Qed.

Lemma triple_throw {A} P (e : error) (Q : A → function → Prop) (E : error → Prop) :
  E e → triple block P (throw e) Q E.
Proof. intros He f. unfold throw. split; [reflexivity|]. auto. Qed.

Lemma triple_panic {A} P p (Q : A → function → Prop) E :
  triple block P (panic p) Q E.
Proof. intros f. exact I. Qed.

Lemma triple_get P E : triple block P get (λ _ _, True) E.
Proof. intros f. unfold get. split; [reflexivity|]. auto. Qed.

Lemma triple_bind {A B} P (c : M A) (k : A → M B) Q Q' E :
  mono block P →
  triple block P c Q E →
  (∀ a, triple block (λ f, P f ∧ Q a f) (k a) Q' E) →
  triple block P (c ≫= k) Q' E.
Proof.
  intros HP Hc Hk f. unfold mbind, M_bind. specialize (Hc f).
  destruct (c f) as [f1 a|f1 e|]; [|done..].
  destruct Hc as [Hw1 Hc]. specialize (Hk a f1).
  destruct (k a f1) as [f2 b|f2 e|]; [| |done].
  - destruct Hk as [Hw2 Hk]. split; [by etrans|]. intros HPf Hd.
    destruct (Hc HPf Hd) as [Hd1 HQ]. apply Hk; [|done].
    split; [by eapply HP|done].
  - destruct Hk as (Hw2 & He & Hk). split; [by etrans|]. split; [done|].
    intros HPf Hd. destruct (Hc HPf Hd) as [Hd1 HQ]. apply Hk; [|done].
    split; [by eapply HP|done].
Qed.

Lemma triple_pre {A} (P P' : function → Prop) (c : M A) Q E :
  (∀ f, P f → P' f) → triple block P' c Q E → triple block P c Q E.
Proof.
  intros HP Hc f. specialize (Hc f). destruct (c f); [| |done].
  - destruct Hc as [? Hc]. split; [done|]. auto.
  - destruct Hc as (? & ? & Hc). split_and!; [done..|]. auto.
Qed.

Lemma triple_error {A} P (c : M A) Q (E E' : error → Prop) :
  (∀ e, E e → E' e) → triple block P c Q E → triple block P c Q E'.
Proof.
  intros HE Hc f. specialize (Hc f). destruct (c f); [done| |done].
  destruct Hc as (? & ? & ?). auto.
Qed.

Lemma triple_post {A} P (c : M A) (Q Q' : A → function → Prop) E :
  (∀ a f, Q a f → Q' a f) → triple block P c Q E → triple block P c Q' E.
Proof.
  intros HQ Hc f. specialize (Hc f). destruct (c f); [|done..].
  destruct Hc as [? Hc]. split; [done|]. intros ??.
  destruct Hc; [done..|]. auto.
Qed.
End triples.

(** *** The primitive steps *)

Lemma writes_append_inst block i f : writes block f (append_inst block i f).
Proof.
  split; try done.
  - intros k Hk. unfold append_inst. simpl. by rewrite lookup_alter_ne.
  - intros b Hb. rewrite ir_at_append_inst, Hb. eexists. split; [done|].
    simpl. by apply prefix_app_r.
Qed.

Lemma writes_set_term block t f : writes block f (set_term block t f).
Proof.
  split; try done.
  - intros k Hk. unfold set_term. simpl. by rewrite lookup_alter_ne.
  - intros b Hb. rewrite ir_at_set_term, Hb. eexists. split; [done|]. done.
Qed.

Lemma writes_alloc_reg block (r : Reg) v f :
  regs f !! r = None → writes block f (alloc_reg r v f).
Proof.
  intros Hr. split; try done.
  - rewrite regs_alloc_reg. by apply insert_subseteq.
  - intros b Hb. exists b. by rewrite ir_at_alloc_reg.
Qed.

Lemma writes_alloc_status block (s : StatusFlag) v f :
  status f !! s = None → writes block f (alloc_status s v f).
Proof.
  intros Hr. split; try done.
  - rewrite status_alloc_status. by apply insert_subseteq.
  - intros b Hb. exists b. by rewrite ir_at_alloc_status.
Qed.

Lemma decl_cells_le f f' :
  blocks f' = blocks f → (∀ c, declared f c → declared f' c) → decl f → decl f'.
Proof.
  intros Hb Hc Hd k b. rewrite Hb. intros Hk.
  eapply ir_cells_impl; [done|]. by apply (Hd k).
Qed.

Lemma decl_append_inst block i f :
  decl f → inst_cells (declared f) i → decl (append_inst block i f).
Proof.
  intros Hd Hi k b'. unfold append_inst. simpl. rewrite lookup_alter.
  case_decide as Hk; [subst k|by apply Hd].
  destruct (blocks f !! block) as [b|] eqn:Hb; [|done]. intros [= <-].
  destruct (Hd block b Hb) as [Hinsts Hterm]. split; [|done].
  simpl. apply Forall_app. split; [done|]. by constructor.
Qed.

Lemma decl_set_term block t f :
  decl f → term_cells (declared f) t → decl (set_term block t f).
Proof.
  intros Hd Ht k b'. unfold set_term. simpl. rewrite lookup_alter.
  case_decide as Hk; [subst k|by apply Hd].
  destruct (blocks f !! block) as [b|] eqn:Hb; [|done]. intros [= <-].
  destruct (Hd block b Hb) as [Hinsts Hterm]. by split.
Qed.

(** Solves the side conditions of the rules: that a predicate survives the
    writes, and that the values at hand refer to recorded cells. *)
Ltac mono_tac :=
  repeat first
    [ assumption | apply mono_True | apply recorded_mono
    | apply recorded_all_mono | apply mono_and ].

Ltac pre_tac :=
  intros; unfold recorded in *; cbn beta in *; simpl;
  repeat match goal with
         | H : _ ∧ _ |- _ => destruct H
         end;
  repeat split; try assumption; eauto.

Section primitive_triples.
Context (block : Address).

Lemma triple_AppendInst P i E :
  (∀ f, P f → inst_cells (declared f) i) →
  triple block P (AppendInst block i) (λ _ _, True) E.
Proof.
  intros Hi f. unfold AppendInst. split; [apply writes_append_inst|].
  intros HP Hd. split; [|done]. apply decl_append_inst; auto.
Qed.

Lemma triple_setTerm P t E :
  (∀ f, P f → term_cells (declared f) t) →
  triple block P (setTerm block t) (λ _ _, True) E.
Proof.
  intros Ht f. unfold setTerm. split; [apply writes_set_term|].
  intros HP Hd. split; [|done]. apply decl_set_term; auto.
Qed.

Lemma triple_reg P r E : triple block P (reg r) recorded E.
Proof.
  intros f. unfold reg. destruct (regs f !! r) as [c|] eqn:Hr.
  - split; [reflexivity|]. intros _ Hd. split; [done|]. left. eauto.
  - destruct (reg_type r) as [typ|]; [|done]. cbv zeta.
    split; [by apply writes_alloc_reg|]. intros _ Hd. split.
    + apply (decl_cells_le f); [reflexivity| |done]. intros c.
      apply (declared_mono block). by apply writes_alloc_reg.
    + left. exists r. apply lookup_alloc_reg.
Qed.

Lemma triple_status P s E : triple block P (status_ s) recorded E.
Proof.
  intros f. unfold status_. destruct (status f !! s) as [c|] eqn:Hs.
  - split; [reflexivity|]. intros _ Hd. split; [done|]. right. eauto.
  - cbv zeta. split; [by apply writes_alloc_status|]. intros _ Hd. split.
    + apply (decl_cells_le f); [reflexivity| |done]. intros c.
      apply (declared_mono block). by apply writes_alloc_status.
    + right. exists s. rewrite status_alloc_status. apply lookup_insert_eq.
Qed.

Lemma triple_getFunction P E : triple block P getFunction (λ _ _, True) E.
Proof.
  intros f. unfold getFunction. destruct (Function f); [|done].
  split; [reflexivity|]. auto.
Qed.

Lemma triple_NewInst P v E :
  mono block P → (∀ f, P f → recorded v f) →
  triple block P (NewInst block v) recorded E.
Proof.
  intros HP Hv. unfold NewInst.
  eapply triple_bind; [done|by apply triple_AppendInst|].
  intros []. apply triple_ret. intros f [HPf _]. by apply Hv.
Qed.

Lemma triple_NewStore P v dst E :
  (∀ f, P f → recorded v f ∧ recorded dst f) →
  triple block P (NewStore block v dst) (λ _ _, True) E.
Proof. intros Hv. unfold NewStore. by apply triple_AppendInst. Qed.
End primitive_triples.

(** ** Element paths *)

(** Induction on types, through the fields of structures. *)
Lemma type_ind' (P : type → Prop) :
  P Void → (∀ bits, P (IntType bits)) →
  (∀ elem, P elem → P (PointerType elem)) →
  (∀ len elem, P elem → P (ArrayType len elem)) →
  (∀ fields, Forall P fields → P (StructType fields)) →
  (∀ ret params, P ret → Forall P params → P (FuncType ret params)) →
  ∀ t, P t.
Proof.
  intros HV HI HP HA HS HF. fix IH 1.
  intros [|bits|elem|len elem|fields|ret params].
  - apply HV.
  - apply HI.
  - apply HP, IH.
  - apply HA, IH.
  - apply HS. induction fields as [|t fields IHf]; constructor; [apply IH|exact IHf].
  - apply HF; [apply IH|].
    induction params as [|t params IHp]; constructor; [apply IH|exact IHp].
Qed.

Lemma gepWalk_struct sz fields total offset :
  gepWalk sz (StructType fields) total offset =
  if offset <=? total then inr [] else fieldLoop sz offset fields 0 total.
Proof.
  simpl. destruct (offset <=? total); [done|].
  generalize 0. revert total.
  induction fields as [|t fields IH]; intros total j; [done|].
  simpl. destruct (offset <? add64 total (sz t)); [done|]. apply IH.
Qed.

Lemma gepWalk_array_eq sz len elem total offset :
  gepWalk sz (ArrayType len elem) total offset =
  if offset <=? total then inr []
  else
    let '(j, total') := arrayLoop (Z.to_nat len) (sz elem) offset 0 total in
    cons_index j (gepWalk sz elem total' offset).
Proof. done. Qed.

Lemma fits_struct sz fields :
  fits sz (StructType fields)
  ↔ Forall (λ t, 0 ≤ sz t < 2 ^ 62 ∧ fits sz t) fields.
Proof.
  simpl. induction fields as [|t fields IH]; [by split|].
  rewrite Forall_cons, <-IH. done.
Qed.

Lemma cons_index_inr j r l :
  cons_index j r = inr l → ∃ l', r = inr l' ∧ l = ConstInt j I64 :: l'.
Proof. destruct r; simpl; [done|]. intros [= <-]. eauto. Qed.

(** The structural indices are integer constants. *)
Lemma gepWalk_indices sz e total offset path :
  gepWalk sz e total offset = inr path → Forall is_index path.
Proof.
  revert total path.
  induction e as [| | |len elem IH|fields IH|] using type_ind';
    intros total path.
  - simpl. destruct (offset <=? total); [|done]. by intros [= <-].
  - simpl. destruct (offset <=? total); [|done]. by intros [= <-].
  - simpl. destruct (offset <=? total); [|done]. by intros [= <-].
  - rewrite gepWalk_array_eq. destruct (offset <=? total); [by intros [= <-]|].
    destruct (arrayLoop _ _ _ _ _) as [j total'].
    intros (l' & Hl' & ->)%cons_index_inr. constructor; [by eexists|].
    by eapply IH.
  - rewrite gepWalk_struct. destruct (offset <=? total); [by intros [= <-]|].
    generalize 0. revert total.
    induction IH as [|t fields Ht _ IHf]; intros total j; [done|].
    simpl. destruct (offset <? add64 total (sz t)); [|apply IHf].
    intros (l' & Hl' & ->)%cons_index_inr. constructor; [by eexists|].
    by eapply Ht.
  - simpl. destruct (offset <=? total); [|done]. by intros [= <-].
Qed.

Lemma add64_small x y : - 2 ^ 63 ≤ x + y < 2 ^ 63 → add64 x y = x + y.
Proof. intros. unfold add64. by apply swrap64_small. Qed.

Lemma arrayLoop_exact (n : nat) s offset j total :
  0 ≤ s < 2 ^ 62 → offset < 2 ^ 62 → 0 ≤ total ≤ offset →
  ∃ j' total',
    arrayLoop n s offset j total = (j', total')
    ∧ j ≤ j' ∧ total' = total + (j' - j) * s ∧ total' ≤ offset.
Proof.
  intros Hs Hoff. revert j total.
  induction n as [|n IH]; intros j total Ht; simpl.
  { exists j, total. split_and!; [done|lia|lia|lia]. }
  rewrite add64_small by lia.
  destruct (Z.ltb_spec offset (total + s)) as [Hlt|Hge].
  { exists j, total. split_and!; [done|lia|lia|lia]. }
  destruct (IH (j + 1) (total + s)) as (j' & total' & -> & Hj & -> & Hle); [lia|].
  exists j', (total + s + (j' - (j + 1)) * s). split_and!; [done|lia|lia|lia].
Qed.

Lemma sum_sizes_app sz l1 l2 :
  sum_sizes sz (l1 ++ l2) = sum_sizes sz l1 + sum_sizes sz l2.
Proof.
  unfold sum_sizes. rewrite fmap_app, foldr_app.
  induction (sz <$> l1) as [|x l IH]; simpl; [done|]. rewrite IH. lia.
Qed.

Lemma path_offset_nil sz e total offset :
  total ≤ offset → offset ≤ total →
  path_offset sz e [] = Some (offset - total).
Proof. intros. simpl. f_equal. lia. Qed.

(** The field loop lands on the offset, given that the walk into each
    field does. *)
Lemma fieldLoop_exact sz offset total0 fields path :
  offset < 2 ^ 62 →
  ∀ fs pre total,
    fields = pre ++ fs →
    total = total0 + sum_sizes sz pre → 0 ≤ total ≤ offset →
    Forall (λ t, 0 ≤ sz t < 2 ^ 62 ∧ fits sz t) fs →
    Forall (λ t, ∀ total path,
                fits sz t → 0 ≤ total ≤ offset →
                gepWalk sz t total offset = inr path →
                path_offset sz t path = Some (offset - total)) fs →
    fieldLoop sz offset fs (Z.of_nat (length pre)) total = inr path →
    path_offset sz (StructType fields) path = Some (offset - total0).
Proof.
  intros Hoff fs. induction fs as [|t fs IH]; intros pre total Hf Ht Hle Hfits HIH;
    [done|].
  apply Forall_cons in Hfits as [[Hsz Hfit] Hfits].
  apply Forall_cons in HIH as [Hwalk HIH].
  simpl. rewrite add64_small by lia.
  destruct (Z.ltb_spec offset (total + sz t)) as [Hlt|Hge].
  - intros (rest & Hrest & ->)%cons_index_inr.
    specialize (Hwalk total rest Hfit Hle Hrest). cbn [path_offset].
    destruct (Z.ltb_spec (Z.of_nat (length pre)) 0) as [|_]; [lia|].
    rewrite Nat2Z.id, Hf, lookup_app_r, Nat.sub_diag by lia. cbn [lookup list_lookup].
    rewrite take_app_length, Hwalk. simpl. f_equal. lia.
  - replace (Z.of_nat (length pre) + 1) with (Z.of_nat (length (pre ++ [t])))
      by (rewrite length_app; simpl; lia).
    apply IH; [by rewrite <-(assoc_L (++))| |lia|done|done].
    rewrite sum_sizes_app. unfold sum_sizes at 2. simpl. lia.
Qed.

(** The element path computed by the walk selects the byte at which the
    walk was aimed. *)
Lemma gepWalk_exact sz e offset :
  offset < 2 ^ 62 →
  ∀ total path,
    fits sz e → 0 ≤ total ≤ offset →
    gepWalk sz e total offset = inr path →
    path_offset sz e path = Some (offset - total).
Proof.
  intros Hoff.
  induction e as [| | |len elem IH|fields IH|] using type_ind';
    intros total path Hfits Hle.
  - simpl. destruct (Z.leb_spec offset total); [|done].
    intros [= <-]. apply path_offset_nil; lia.
  - simpl. destruct (Z.leb_spec offset total); [|done].
    intros [= <-]. apply path_offset_nil; lia.
  - simpl. destruct (Z.leb_spec offset total); [|done].
    intros [= <-]. apply path_offset_nil; lia.
  - rewrite gepWalk_array_eq. destruct Hfits as [Hsz Hfits].
    destruct (Z.leb_spec offset total); [intros [= <-]; apply path_offset_nil; lia|].
    destruct (arrayLoop_exact (Z.to_nat len) (sz elem) offset 0 total)
      as (j & total' & -> & Hj & -> & Hle'); [done..|].
    intros (rest & Hrest & ->)%cons_index_inr.
    cbn [path_offset]. destruct (Z.ltb_spec j 0) as [|_]; [lia|].
    assert (Hle'' : 0 ≤ total + (j - 0) * sz elem ≤ offset) by nia.
    rewrite (IH _ _ Hfits Hle'' Hrest). simpl. f_equal. lia.
  - rewrite gepWalk_struct.
    destruct (Z.leb_spec offset total); [intros [= <-]; apply path_offset_nil; lia|].
    apply fits_struct in Hfits.
    apply (fieldLoop_exact sz offset total fields path Hoff fields [] total);
      [done|unfold sum_sizes; simpl; lia|lia|done|].
    eapply Forall_impl; [exact IH|]. intros t Ht total' path'. apply Ht.
  - simpl. destruct (Z.leb_spec offset total); [|done].
    intros [= <-]. apply path_offset_nil; lia.
Qed.

(** *** The steps of the translator *)

(** One step of the proof of a [triple]: a rule for the shape of the
    computation, or the triple of the function that is called. *)
Ltac triple_call lemmas :=
  lemmas;
  lazymatch goal with
  | |- mono _ _ => mono_tac
  | |- _ => pre_tac
  end.

Ltac triple_step lemmas :=
  lazymatch goal with
  | |- triple _ _ (_ ≫= _) _ _ =>
      eapply triple_bind; [mono_tac|triple_call lemmas|intros ?]
  | |- triple _ _ (match ?x with _ => _ end) _ _ => destruct x eqn:?
  | |- triple _ _ (mret _) _ _ => apply triple_ret; pre_tac
  | |- triple _ _ (throw _) _ _ => apply triple_throw; eauto
  | |- triple _ _ (panic _) _ _ => apply triple_panic
  | |- triple _ _ _ _ _ =>
      eapply triple_post; cycle 1; [triple_call lemmas|pre_tac]
  end.

Ltac primitive_triples :=
  first [ eapply triple_get | eapply triple_reg | eapply triple_status
        | eapply triple_getFunction | eapply triple_NewInst
        | eapply triple_NewStore | eapply triple_AppendInst
        | eapply triple_setTerm ].

Section translator_triples.
Context (d : disassembler) (sz : type → Z) (ga : Address → Arg → list Address)
  (tc : Address → instruction → bool) (dt : instruction → bool)
  (block : Address).

Lemma triple_useStatus P s E :
  mono block P → triple block P (useStatus block s) recorded E.
Proof.
  intros HP. unfold useStatus, NewLoad. repeat triple_step primitive_triples.
Qed.

Lemma triple_defStatus P s v E :
  mono block P → (∀ f, P f → recorded v f) →
  triple block P (defStatus block s v) (λ _ _, True) E.
Proof.
  intros HP Hv. unfold defStatus. repeat triple_step primitive_triples.
Qed.

Lemma triple_getElementPtr P src t offset E :
  mono block P → (∀ f, P f → recorded src f) →
  triple block P (getElementPtr sz block src t offset) recorded E.
Proof.
  intros HP Hsrc. unfold getElementPtr.
  destruct t; try apply triple_panic.
  destruct (offset <=? 0).
  - apply triple_NewInst; [done|]. intros f Hf. unfold recorded.
    apply val_cells_GetElementPtr. split; [by apply Hsrc|done].
  - destruct (gepWalk sz t 0 offset) as [|indices] eqn:Hwalk;
      [apply triple_panic|].
    apply triple_NewInst; [done|]. intros f Hf. unfold recorded.
    apply val_cells_GetElementPtr. split; [by apply Hsrc|].
    constructor; [done|]. apply gepWalk_indices in Hwalk.
    eapply Forall_impl; [done|]. by intros ? [j ->].
Qed.

Lemma triple_global P a E :
  mono block P → triple block P (global d sz block a) recorded E.
Proof.
  intros HP. unfold global. destruct (globals d !! a).
  { by apply triple_ret. }
  destruct (_ && _); [|apply triple_panic].
  destruct (globals d !! _); [|apply triple_panic].
  destruct (_ && _); [|apply triple_panic].
  by apply triple_getElementPtr.
Qed.

Ltac memory_triples :=
  first [ primitive_triples | eapply triple_useStatus | eapply triple_defStatus
        | eapply triple_global ].

Lemma triple_useGlobal P a E :
  mono block P → triple block P (useGlobal d sz block a) recorded E.
Proof.
  intros HP. unfold useGlobal, NewLoad. repeat triple_step memory_triples.
Qed.

Lemma triple_defGlobal P a v E :
  mono block P → (∀ f, P f → recorded v f) →
  triple block P (defGlobal d sz block a v) (λ _ _, True) E.
Proof.
  intros HP Hv. unfold defGlobal. repeat triple_step memory_triples.
Qed.

Lemma triple_useArg P i arg E :
  mono block P → triple block P (useArg d sz block i arg) recorded E.
Proof.
  intros HP. unfold useArg, NewLoad.
  repeat triple_step ltac:(first [memory_triples | eapply triple_useGlobal]).
Qed.

Lemma triple_defArg P i arg v E :
  mono block P → (∀ f, P f → recorded v f) →
  triple block P (defArg d sz block i arg v) (λ _ _, True) E.
Proof.
  intros HP Hv. unfold defArg.
  repeat triple_step ltac:(first [memory_triples | eapply triple_defGlobal]).
Qed.

Ltac operand_triples :=
  first [ memory_triples | eapply triple_useArg | eapply triple_defArg ].

Lemma triple_updateStatusFlags P x y E :
  mono block P → (∀ f, P f → recorded x f ∧ recorded y f) →
  triple block P (updateStatusFlags block x y) (λ _ _, True) E.
Proof.
  intros HP Hv. unfold updateStatusFlags.
  repeat triple_step operand_triples; apply Hv; assumption.
Qed.

Lemma triple_calleeFunction P a E :
  triple block P (calleeFunction d a) (λ _ _, True) E.
Proof.
  intros f. unfold calleeFunction. destruct (bool_decide _).
  - apply triple_getFunction.
  - destruct (_ ≫= _); [|done]. split; [reflexivity|]. auto.
Qed.

Ltac inst_triples :=
  first [ operand_triples | eapply triple_updateStatusFlags
        | eapply triple_calleeFunction ].

(** The call of a function that is known. *)
Lemma triple_call P callee E :
  mono block P →
  triple block P
    (F ← calleeFunction d callee;
     args ←
       match Conv F with
       | CallConvX86FastCall =>
           let params := Params (Sig F) in
           args0 ← (if (0 <? length params)%nat
                    then arg ← useArg d sz block None (ArgReg ECX); mret [arg]
                    else mret []);
           args1 ← (if (1 <? length params)%nat
                    then arg ← useArg d sz block None (ArgReg EDX); mret [arg]
                    else mret []);
           mret (args0 ++ args1)
       | _ => mret []
       end;
     result ← NewInst block (Call callee args);
     if negb (is_void (Ret (Sig F)))
     then defArg d sz block None (ArgReg EAX) result
     else mret tt) (λ _ _, True) E.
Proof.
  intros HP.
  eapply triple_bind; [mono_tac|apply triple_calleeFunction|intros F].
  eapply (triple_bind _ _ _ _ (λ args f, Forall (λ a, recorded a f) args));
    [mono_tac| |intros args].
  - destruct (Conv F); try (apply triple_ret; intros; constructor).
    cbv zeta.
    eapply (triple_bind _ _ _ _ (λ args f, Forall (λ a, recorded a f) args));
      [mono_tac| |intros args0].
    { destruct (0 <? _)%nat; [|apply triple_ret; constructor].
      eapply triple_bind; [mono_tac|apply triple_useArg; mono_tac|intros arg].
      apply triple_ret. intros f [_ H]. by constructor. }
    eapply (triple_bind _ _ _ _ (λ args f, Forall (λ a, recorded a f) args));
      [mono_tac| |intros args1].
    { destruct (1 <? _)%nat; [|apply triple_ret; constructor].
      eapply triple_bind; [mono_tac|apply triple_useArg; mono_tac|intros arg].
      apply triple_ret. intros f [_ H]. by constructor. }
    apply triple_ret. intros f [[_ H0] H1]. by apply Forall_app.
  - eapply triple_bind; [mono_tac| |intros result].
    { apply triple_NewInst; [mono_tac|]. intros f [_ H]. unfold recorded.
      apply val_cells_Call. exact H. }
    destruct (negb _); [|by apply triple_ret].
    apply triple_defArg; [mono_tac|]. by intros f [_ H].
Qed.

Lemma triple_instCALL P inst :
  mono block P →
  triple block P (instCALL d sz block inst) (λ _ _, True) invalid_callee.
Proof.
  intros HP. unfold instCALL.
  eapply triple_bind; [done|by apply triple_useArg|intros c].
  destruct c; try (apply triple_throw; by eexists).
  apply triple_call. mono_tac.
Qed.

(** The instructions other than calls return no error. *)
Lemma triple_translateInst_other P inst E :
  mono block P → Op_ inst ≠ CALL →
  triple block P (translateInst d sz block inst) (λ _ _, True) E.
Proof.
  intros HP Hop. unfold translateInst.
  destruct (Op_ inst); try apply triple_panic; try (by apply triple_ret);
    try done;
    unfold instADD, instAND, instCMP, instIMUL, instINC, instMOV, instXOR;
    cbv zeta; repeat triple_step inst_triples.
Qed.

Lemma triple_translateInst P inst :
  mono block P →
  triple block P (translateInst d sz block inst) (λ _ _, True) invalid_callee.
Proof.
  intros HP. destruct (Op_ inst) eqn:Hop;
    try (apply triple_translateInst_other; [done|by rewrite Hop]).
  unfold translateInst. rewrite Hop. by apply triple_instCALL.
Qed.

Lemma triple_forM_ {A} P (l : list A) (k : A → M unit) E :
  mono block P →
  (∀ x, x ∈ l → triple block P (k x) (λ _ _, True) E) →
  triple block P (forM_ l k) (λ _ _, True) E.
Proof.
  intros HP. induction l as [|x l IH]; intros Hk; simpl.
  - by apply triple_ret.
  - eapply triple_bind; [done|apply Hk; left|intros []].
    eapply triple_pre; [|apply IH].
    + by intros f [? _].
    + intros y Hy. apply Hk. by right.
Qed.

Lemma triple_return P (F : irFunction) E :
  mono block P →
  triple block P
    (if negb (is_void (Ret (Sig F)))
     then result ← useArg d sz block None (ArgReg EAX);
          NewRet block (Some result)
     else NewRet block None) (λ _ _, True) E.
Proof.
  intros HP. unfold NewRet. destruct (negb _).
  - repeat triple_step operand_triples.
  - by apply triple_setTerm.
Qed.

Lemma triple_termRET P term E :
  mono block P → triple block P (termRET d sz block term) (λ _ _, True) E.
Proof.
  intros HP. unfold termRET.
  eapply triple_bind; [done|apply triple_getFunction|intros F].
  apply triple_return. mono_tac.
Qed.

Lemma triple_termJMP P term :
  mono block P →
  triple block P (termJMP d sz tc block term) (λ _ _, True) invalid_callee.
Proof.
  intros HP. unfold termJMP.
  eapply triple_bind; [done|apply triple_get|intros f].
  destruct (tc _ _); [|apply triple_panic].
  eapply triple_bind; [mono_tac|apply triple_instCALL; mono_tac|intros []].
  eapply triple_bind; [mono_tac|apply triple_getFunction|intros F].
  apply triple_return. mono_tac.
Qed.

Lemma triple_termCondBranch P term :
  mono block P →
  triple block P (termCondBranch ga block term) (λ _ _, True) branch_error.
Proof.
  intros HP. unfold termCondBranch, NewCondBr. cbv zeta.
  destruct (ga _ _) as [|a [|a' l]] eqn:Hga;
    try (apply triple_throw; right; by eexists).
  eapply triple_bind; [done|apply triple_get|intros f].
  destruct (blocks f !! a); [|apply triple_throw; left; by eexists].
  destruct (blocks f !! _); [|apply triple_throw; left; by eexists].
  eapply (triple_bind _ _ _ _ recorded); [mono_tac| |intros cond].
  - destruct (Op_ term); try apply triple_panic;
      repeat triple_step memory_triples.
  - apply triple_setTerm. by intros f' [_ Hcond].
Qed.

Lemma triple_translateTerm P term :
  mono block P →
  triple block P (translateTerm d sz ga tc dt block term) (λ _ _, True)
    (λ e, branch_error e ∨ invalid_callee e).
Proof.
  intros HP. unfold translateTerm, NewBr. destruct (dt term).
  - eapply triple_bind; [done|apply triple_get|intros f].
    destruct (blocks f !! _); [by apply triple_setTerm|].
    apply triple_throw. left. left. by eexists.
  - destruct (Op_ term); try apply triple_panic;
      try (by apply triple_termRET);
      try (eapply triple_error; [|by apply triple_termJMP]; by right);
      (eapply triple_error; [|by apply triple_termCondBranch]; by left).
Qed.

Lemma triple_translateBlock P :
  mono block P →
  triple block P (translateBlock d sz ga tc dt block) (λ _ _, True)
    (λ e, branch_error e ∨ invalid_callee e).
Proof.
  intros HP. unfold translateBlock.
  eapply triple_bind; [done|apply triple_get|intros f].
  destruct (blocks f !! block) as [b|]; [|apply triple_panic].
  eapply triple_bind; [mono_tac| |intros []].
  - apply triple_forM_; [mono_tac|]. intros inst _.
    eapply triple_error; [|apply triple_translateInst; mono_tac]. by right.
  - apply triple_translateTerm. mono_tac.
Qed.
End translator_triples.

(** ** Properties of the instruction and block translators *)

Section instruction_errors.
Context (d : disassembler) (sz : type → Z).

(** X4. The only instruction whose translation returns an error is a call, and
    only when its operand does not resolve to a function; the error carries
    that operand, and the function is left as the operand read left it.
    Reading and writing operands, arithmetic and comparisons return no
    error. *)
Theorem translateInst_error_only_call block inst f f' e :
  translateInst d sz block inst f = Err f' e →
  Op_ inst = CALL
  ∧ ∃ c, e = ErrInvalidCallee c ∧ (∀ a, c ≠ FuncRef a)
         ∧ useArg d sz block (Some inst) (arg_at inst 0) f = Ok f' c.
Proof.
  intros Hrun. destruct (Op_ inst) eqn:Hop;
    try (exfalso;
         pose proof (triple_translateInst_other d sz block (λ _, True) inst
                       (λ _, False) (mono_True block)) as Hother;
         rewrite Hop in Hother; specialize (Hother ltac:(done) f);
         rewrite Hrun in Hother; tauto).
  split; [done|]. revert Hrun. unfold translateInst. rewrite Hop.
  unfold instCALL. unfold mbind at 1, M_bind at 1.
  pose proof (triple_useArg d sz block (λ _, True) (Some inst) (arg_at inst 0)
                (λ _, False) (mono_True block) f) as Harg.
  destruct (useArg _ _ _ _ _ f) as [f1 c|f1 e1|]; [|tauto|done].
  destruct c;
    try (intros [= <- <-]; eexists; split_and!; [reflexivity|done|reflexivity]).
  intros Hrun. exfalso.
  pose proof (triple_call d sz block (λ _, True) a (λ _, False)
                (mono_True block) f1) as Hcall.
  cbv zeta in Hrun, Hcall. rewrite Hrun in Hcall. tauto.
Qed.

End instruction_errors.

Section translator_properties.
Context (d : disassembler) (sz : type → Z) (ga : Address → Arg → list Address)
  (tc : Address → instruction → bool) (dt : instruction → bool).

(** X5. The translation of a block writes into that block only: whether it
    succeeds or returns an error, the other blocks are as they were, the
    block keeps the instructions it had and receives new ones after them,
    the cells recorded for registers and flags are kept, and the block map
    has the same addresses, instructions and terminators to translate. *)
Theorem translateBlock_writes_own_block block f f' :
  (translateBlock d sz ga tc dt block f = Ok f' ()
   ∨ ∃ e, translateBlock d sz ga tc dt block f = Err f' e) →
  (∀ k, k ≠ block → blocks f' !! k = blocks f !! k)
  ∧ (∀ b, ir_at f block = Some b →
          ∃ b', ir_at f' block = Some b' ∧ Insts b `prefix_of` Insts b')
  ∧ regs f ⊆ regs f' ∧ status f ⊆ status f'
  ∧ Function f' = Function f
  ∧ static <$> blocks f' = static <$> blocks f.
Proof.
  intros Hrun.
  pose proof (triple_translateBlock d sz ga tc dt block (λ _, True)
                (mono_True block) f) as Ht.
  pose proof (sound_translateBlock d sz ga tc dt block f) as Hs.
  assert (writes block f f' ∧ step f f') as [Hw [Hg _]].
  { destruct Hrun as [Hrun|[e Hrun]]; rewrite Hrun in Ht, Hs; tauto. }
  destruct Hw, Hg. done.
Qed.
End translator_properties.

(** ** The cause of a missing-block error *)

Section missing_blocks.
Context (d : disassembler) (sz : type → Z) (ga : Address → Arg → list Address)
  (tc : Address → instruction → bool) (dt : instruction → bool).

Lemma lookup_None_grows f f' k :
  grows f f' → blocks f' !! k = None → blocks f !! k = None.
Proof.
  intros Hg Hk. apply eq_None_not_Some. intros Hs.
  apply (is_Some_blocks_grows f f' k Hg) in Hs. rewrite Hk in Hs.
  by destruct Hs.
Qed.

Lemma missing_block_grows f f' term a :
  grows f f' → missing_block ga dt f' term a → missing_block ga dt f term a.
Proof.
  intros Hg [(Hd & Ha & Hn)|(Hd & Hga & [Hn|Hn])]; [left|right..];
    split_and!; eauto using lookup_None_grows.
Qed.

Lemma term_grows f f' k b' :
  grows f f' → blocks f' !! k = Some b' →
  ∃ b, blocks f !! k = Some b ∧ term b = term b'.
Proof.
  intros Hg Hb'. pose proof (f_equal (.!! k) (grows_blocks _ _ Hg)) as Hk.
  simpl in Hk. rewrite !lookup_fmap, Hb' in Hk.
  destruct (blocks f !! k) as [b|]; [|done]. exists b. split; [done|].
  simpl in Hk. by injection Hk as _ _ ->.
Qed.

(** The condition of a conditional branch and its terminator return no
    error. *)
Lemma condition_no_error block term (t n : Address) f f' e :
  (cond ←
     match Op_ term with
     | JL =>
         sf ← useStatus block SF;
         of_ ← useStatus block OF;
         NewInst block (ICmp IntNE sf of_)
     | JG =>
         sf ← useStatus block SF;
         of_ ← useStatus block OF;
         zf ← useStatus block ZF;
         cond1 ← NewInst block (ICmp IntEQ zf ConstFalse);
         cond2 ← NewInst block (ICmp IntEQ sf of_);
         NewInst block (And cond1 cond2)
     | JNE =>
         zf ← useStatus block ZF;
         NewInst block (ICmp IntEQ zf ConstFalse)
     | op => panic (PanicCondBranch op)
     end;
   NewCondBr block cond (BlockAt t) (BlockAt n)) f ≠ Err f' e.
Proof.
  intros Hrun. revert Hrun. unfold mbind at 1, M_bind at 1.
  destruct (Op_ term); try done; run; done.
Qed.

Lemma termCondBranch_ErrNoBlock block term f f' a :
  termCondBranch ga block term f = Err f' (ErrNoBlock a) →
  ga (next_addr term) (arg_at term 0) = [a]
  ∧ (blocks f !! a = None ∨ blocks f !! next_addr term = None).
Proof.
  unfold termCondBranch. fold (next_addr term). cbv zeta.
  destruct (ga _ _) as [|t [|t' l]]; try done.
  unfold get. unfold mbind at 1, M_bind at 1.
  destruct (blocks f !! t) eqn:Ht; [|intros [= _ <-]; auto].
  destruct (blocks f !! next_addr term) eqn:Hn; [|intros [= _ <-]; auto].
  intros Hrun. by apply condition_no_error in Hrun.
Qed.

Lemma translateTerm_ErrNoBlock block term f f' a :
  translateTerm d sz ga tc dt block term f = Err f' (ErrNoBlock a) →
  missing_block ga dt f term a.
Proof.
  unfold translateTerm, missing_block. destruct (dt term) eqn:Hd.
  - unfold get, NewBr, setTerm, mbind, M_bind.
    destruct (blocks f !! inst_addr term) eqn:Ha; [done|].
    intros [= _ <-]. by left.
  - intros Hrun. right. split; [done|].
    destruct (Op_ term); try done;
      try (by apply (termCondBranch_ErrNoBlock block term f f')).
    + pose proof (triple_termJMP d sz tc block (λ _, True) term
                    (mono_True block) f) as Ht.
      rewrite Hrun in Ht. by destruct Ht as (_ & (c & ? & _) & _).
    + pose proof (triple_termRET d sz block (λ _, True) term (λ _, False)
                    (mono_True block) f) as Ht.
      rewrite Hrun in Ht. tauto.
Qed.

Lemma translateBlock_ErrNoBlock k f f' a :
  translateBlock d sz ga tc dt k f = Err f' (ErrNoBlock a) →
  ∃ b, blocks f !! k = Some b ∧ missing_block ga dt f (term b) a.
Proof.
  unfold translateBlock, get. unfold mbind at 1, M_bind at 1.
  destruct (blocks f !! k) as [b|] eqn:Hb; [|done].
  unfold mbind, M_bind.
  pose proof (sound_forM_ (insts b) (translateInst d sz k)
                (sound_translateInst d sz k) f) as Hs.
  pose proof (triple_forM_ k (λ _, True) (insts b) (translateInst d sz k)
                invalid_callee (mono_True k)
                (λ x _, triple_translateInst d sz k (λ _, True) x
                          (mono_True k)) f) as Ht.
  destruct (forM_ _ _ f) as [f1 []|f1 e|].
  - intros Hrun. exists b. split; [done|].
    apply (missing_block_grows f f1); [apply Hs|].
    by apply (translateTerm_ErrNoBlock k (term b) f1 f').
  - intros [= _ ->]. by destruct Ht as (_ & (c & ? & _) & _).
  - done.
Qed.

Lemma forM_blocks_ErrNoBlock l f f' a :
  forM_ l (translateBlock d sz ga tc dt) f = Err f' (ErrNoBlock a) →
  ∃ k b, blocks f !! k = Some b ∧ missing_block ga dt f (term b) a.
Proof.
  revert f. induction l as [|x l IH]; intros f; simpl; [done|].
  unfold mbind, M_bind.
  pose proof (sound_translateBlock d sz ga tc dt x f) as Hs.
  destruct (translateBlock _ _ _ _ _ x f) as [f1 []|f1 e1|] eqn:Hx; [| |done].
  - intros Hrun. destruct (IH f1 Hrun) as (k & b1 & Hb1 & Hcause).
    destruct (term_grows f f1 k b1 (step_grows _ _ Hs) Hb1) as (b & Hb & Ht).
    exists k, b. split; [done|]. rewrite Ht.
    by apply (missing_block_grows f f1); [apply Hs|].
  - intros [= <- ->]. exists x. by apply (translateBlock_ErrNoBlock x f f1).
Qed.
End missing_blocks.

(** ** Properties of the translation of a function *)

Lemma blocks_set_Function G f : blocks (set_Function G f) = blocks f.
Proof. reflexivity. Qed.

Lemma regs_set_Function G f : regs (set_Function G f) = regs f.
Proof. reflexivity. Qed.

Lemma status_set_Function G f : status (set_Function G f) = status f.
Proof. reflexivity. Qed.

Lemma blockAddrs_of_nil f : blockAddrs_of f = [] → blocks f = ∅.
Proof.
  unfold blockAddrs_of. intros Hnil. apply map_to_list_empty_iff.
  pose proof (sortAddresses_perm (addr <$> (map_to_list (blocks f)).*2)) as Hp.
  rewrite Hnil in Hp. symmetry in Hp. apply Permutation_nil_r in Hp.
  apply fmap_nil_inv in Hp. by apply fmap_nil_inv in Hp.
Qed.

Lemma is_block_grows f f' r : grows f f' → is_block f r → is_block f' r.
Proof.
  intros Hg. destruct r as [|a]; [done|]. simpl.
  by rewrite (is_Some_blocks_grows f f' a Hg).
Qed.

Lemma terminated_set_term block t f :
  is_Some (blocks f !! block) → Forall (is_block f) (term_targets t) →
  terminated (set_term block t f) block.
Proof.
  intros [b Hb] Ht. exists (ir_setTerm t (BasicBlock b)), t.
  rewrite ir_at_set_term. unfold ir_at. rewrite Hb. split_and!; [done..|].
  eapply Forall_impl; [exact Ht|]. intros r.
  apply is_block_grows. apply step_grows. apply (sound_setTerm block t f).
Qed.

(** A computation followed by the terminator built from its value. *)
Lemma terminated_after {A} (c : M A) (t : A → terminator) block f f' :
  sound c → (x ← c; setTerm block (t x)) f = Ok f' () →
  is_Some (blocks f !! block) →
  (∀ x, Forall (is_block f) (term_targets (t x))) →
  terminated f' block.
Proof.
  intros Hc Hrun Hb Ht. unfold mbind, M_bind in Hrun. specialize (Hc f).
  destruct (c f) as [f1 x| |]; [|done..]. injection Hrun as <-.
  destruct Hc as [Hg _]. apply terminated_set_term.
  - by apply (is_Some_blocks_grows f f1 block Hg).
  - eapply Forall_impl; [apply Ht|]. intros r. by apply is_block_grows.
Qed.

Lemma elem_of_declare (m : gmap N InstAlloca) (keys : list N) (i : inst) :
  i ∈ declare m keys → ∃ c k, i = InstValue (Alloca c) ∧ m !! k = Some c.
Proof.
  unfold declare. intros (c & -> & Hc)%list_elem_of_fmap.
  apply list_elem_of_omap in Hc as (k & _ & Hk). by exists c, k.
Qed.

(** The entry block refers to recorded cells only. *)
Lemma entry_block_cells (D : InstAlloca → Prop) F f target :
  (∀ c, declared f c → D c) → ir_cells D (entry_block F f target).
Proof.
  intros Hall. split; [|exact I]. unfold entry_block. cbn [Insts].
  apply Forall_app_2.
  - apply Forall_forall. intros i Hi. rewrite entry_allocas_used in Hi.
    apply elem_of_app in Hi as [Hi|Hi];
      apply elem_of_declare in Hi as (c & k & -> & Hk);
      apply Hall; [left|right]; by exists k.
  - unfold entry_stores, entry_param.
    destruct (Conv F); try apply Forall_nil_2.
    apply Forall_app_2.
    + destruct (Params (Sig F) !! 0%nat); [|apply Forall_nil_2].
      destruct (regs f !! ECX) eqn:Hreg; [|apply Forall_nil_2].
      apply Forall_singleton. split; [exact I|].
      apply Hall. left. exists ECX. exact Hreg.
    + destruct (Params (Sig F) !! 1%nat); [|apply Forall_nil_2].
      destruct (regs f !! EDX) eqn:Hreg; [|apply Forall_nil_2].
      apply Forall_singleton. split; [exact I|].
      apply Hall. left. exists EDX. exact Hreg.
Qed.

Section function_properties.
Context (d : disassembler) (sz : type → Z) (ga : Address → Arg → list Address)
  (tc : Address → instruction → bool) (dt : instruction → bool).

Lemma return_terminated block (F : irFunction) f f' :
  (if negb (is_void (Ret (Sig F)))
   then result ← useArg d sz block None (ArgReg EAX);
        NewRet block (Some result)
   else NewRet block None) f = Ok f' () →
  is_Some (blocks f !! block) → terminated f' block.
Proof.
  destruct (negb _); intros Hrun Hb.
  - refine (terminated_after _ (λ x, TermRet (Some x)) block f f' _ Hrun Hb _);
      [apply sound_useArg|by constructor].
  - injection Hrun as <-. by apply terminated_set_term.
Qed.

Lemma translateTerm_terminated block term f f' :
  translateTerm d sz ga tc dt block term f = Ok f' () →
  is_Some (blocks f !! block) → terminated f' block.
Proof.
  intros Hrun Hb. revert Hrun. unfold translateTerm. destruct (dt term).
  { unfold get, NewBr, setTerm, mbind, M_bind.
    destruct (blocks f !! inst_addr term) eqn:Ha; [|done].
    intros [= <-]. apply terminated_set_term; [done|].
    constructor; [|done]. simpl. by rewrite Ha. }
  destruct (Op_ term) eqn:Hop; try done.
  all: try
    (unfold termCondBranch; cbv zeta;
     destruct (ga _ _) as [|t [|t' l]]; try done;
     unfold get; unfold mbind at 1, M_bind at 1;
     destruct (blocks f !! t) eqn:Ht; [|done];
     destruct (blocks f !! addr_add _ _) eqn:Hn; [|done];
     unfold NewCondBr; intros Hrun;
     refine (terminated_after _ (λ x, TermCondBr x _ _) block f f' _ Hrun Hb _);
     [ rewrite Hop; cbv iota; try apply sound_panic;
       repeat match goal with
              | |- sound (_ ≫= _) => apply sound_bind; [|intros ?]
              end;
       first [by apply sound_useStatus|apply sound_NewInst]
     | intros x; repeat constructor; simpl; by rewrite ?Ht, ?Hn ]).
  - unfold termJMP, get. unfold mbind at 1, M_bind at 1.
    destruct (tc _ _); [|done]. unfold mbind at 1, M_bind at 1.
    pose proof (sound_instCALL d sz block term f) as Hs.
    destruct (instCALL _ _ _ _ f) as [f1 []| |]; [|done..].
    unfold getFunction. unfold mbind at 1, M_bind at 1.
    destruct (Function f1); [|done]. intros Hrun.
    apply (return_terminated block i f1); [done|].
    by apply (is_Some_blocks_grows f f1 block (step_grows _ _ Hs)).
  - unfold termRET, getFunction. unfold mbind at 1, M_bind at 1.
    destruct (Function f); [|done]. intros Hrun.
    by apply (return_terminated block i f).
Qed.
Lemma translateBlock_terminated block f f' :
  translateBlock d sz ga tc dt block f = Ok f' () → terminated f' block.
Proof.
  unfold translateBlock, get. unfold mbind at 1, M_bind at 1.
  destruct (blocks f !! block) as [b|] eqn:Hb; [|done].
  unfold mbind, M_bind.
  pose proof (sound_forM_ (insts b) (translateInst d sz block)
                (sound_translateInst d sz block) f) as Hs.
  destruct (forM_ _ _ f) as [f1 []| |]; [|done..]. intros Hrun.
  apply (translateTerm_terminated block (term b) f1 f' Hrun).
  by apply (is_Some_blocks_grows f f1 block (step_grows _ _ Hs)).
Qed.

Lemma terminated_writes block k f f' :
  writes block f f' → grows f f' → k ≠ block →
  terminated f k → terminated f' k.
Proof.
  intros Hw Hg Hne (b & t & Hb & Ht & Htargets). exists b, t.
  split_and!; [|done|].
  - unfold ir_at in *. by rewrite (writes_frame _ _ _ Hw k Hne).
  - eapply Forall_impl; [exact Htargets|]. intros r. by apply is_block_grows.
Qed.

Lemma translateBlock_keeps_terminated block k f f' :
  translateBlock d sz ga tc dt block f = Ok f' () →
  terminated f k → terminated f' k.
Proof.
  intros Hrun Hk. destruct (decide (k = block)) as [->|Hne].
  - by apply (translateBlock_terminated block f f').
  - pose proof (triple_translateBlock d sz ga tc dt block (λ _, True)
                  (mono_True block) f) as Ht.
    pose proof (sound_translateBlock d sz ga tc dt block f) as Hs.
    rewrite Hrun in Ht, Hs. destruct Ht as [Hw _], Hs as [Hg _].
    by apply (terminated_writes block k f f').
Qed.

Lemma forM_blocks_keeps_terminated l k f f' :
  forM_ l (translateBlock d sz ga tc dt) f = Ok f' () →
  terminated f k → terminated f' k.
Proof.
  revert f. induction l as [|x l IH]; intros f; simpl.
  - by intros [= <-].
  - unfold mbind, M_bind.
    destruct (translateBlock _ _ _ _ _ x f) as [f1 []| |] eqn:Hx; [|done..].
    intros Hrun Hk. apply (IH f1 Hrun).
    by apply (translateBlock_keeps_terminated x k f f1).
Qed.

Lemma forM_blocks_terminated l f f' :
  forM_ l (translateBlock d sz ga tc dt) f = Ok f' () →
  ∀ k, k ∈ l → terminated f' k.
Proof.
  revert f. induction l as [|x l IH]; intros f; simpl.
  - intros _ k Hk. by apply elem_of_nil in Hk.
  - unfold mbind, M_bind.
    destruct (translateBlock _ _ _ _ _ x f) as [f1 []| |] eqn:Hx; [|done..].
    intros Hrun k [->|Hk]%elem_of_cons.
    + apply (forM_blocks_keeps_terminated l x f1 f' Hrun).
      by apply (translateBlock_terminated x f f1).
    + by apply (IH f1).
Qed.

Lemma forM_blocks_decl l f f' :
  forM_ l (translateBlock d sz ga tc dt) f = Ok f' () → decl f → decl f'.
Proof.
  revert f. induction l as [|x l IH]; intros f; simpl.
  - by intros [= <-].
  - unfold mbind, M_bind.
    pose proof (triple_translateBlock d sz ga tc dt x (λ _, True)
                  (mono_True x) f) as Ht.
    destruct (translateBlock _ _ _ _ _ x f) as [f1 []| |]; [|done..].
    intros Hrun Hd. apply (IH f1 Hrun). by apply Ht.
Qed.

Lemma forM_blocks_error l f f' e :
  forM_ l (translateBlock d sz ga tc dt) f = Err f' e →
  branch_error e ∨ invalid_callee e.
Proof.
  revert f. induction l as [|x l IH]; intros f; simpl; [done|].
  unfold mbind, M_bind.
  pose proof (triple_translateBlock d sz ga tc dt x (λ _, True)
                (mono_True x) f) as Ht.
  destruct (translateBlock _ _ _ _ _ x f) as [f1 []|f1 e1|]; [| |done].
  - apply IH.
  - intros [= <- <-]. apply Ht.
Qed.

(** X6. The cause of every error of [translateFunc] is in its input: the
    missing-body error is returned exactly for a function without blocks
    (and then the function is only given its IR function), the callee of
    the invalid-callee error is no function, the number of true branches
    reported is not one, and the address of a missing-block error comes
    from the terminator of a block of the function: it is the address of
    a fall-through terminator and no block, or the true target of a
    conditional branch of which the true target or the address that
    follows the branch is no block.  In the last case the address reported
    may itself be a block. *)
Theorem translateFunc_error_cause f f' e :
  translateFunc d sz ga tc dt f = Err f' e →
  (e = ErrMissingBody ↔ blocks f = ∅)
  ∧ (e = ErrMissingBody → f' = init f)
  ∧ (∀ c, e = ErrInvalidCallee c → ∀ a, c ≠ FuncRef a)
  ∧ (∀ n, e = ErrTrueBranches n → n ≠ 1%nat)
  ∧ (∀ a, e = ErrNoBlock a →
       ∃ k b, blocks f !! k = Some b ∧ missing_block ga dt f (term b) a).
Proof.
  intros Hrun. destruct (translateFunc_Err d sz ga tc dt f f' e Hrun)
    as [Hblocks|(Hnil & -> & ->)].
  - apply forM_blocks_error in Hblocks as Hcause. split_and!.
    + split.
      * intros ->. destruct Hcause as [[[a ?]|(n & ? & _)]|(c & ? & _)]; done.
      * intros Hempty. revert Hblocks.
        by rewrite (blockAddrs_of_empty f Hempty).
    + intros ->. destruct Hcause as [[[a ?]|(n & ? & _)]|(c & ? & _)]; done.
    + intros c ->. destruct Hcause as [[[a ?]|(n & ? & _)]|(c' & [= <-] & ?)];
        done.
    + intros n ->. destruct Hcause as [[[a ?]|(n' & [= <-] & ?)]|(c & ? & _)];
        done.
    + intros a ->.
      destruct (forM_blocks_ErrNoBlock d sz ga tc dt _ _ _ _ Hblocks)
        as (k & b & Hb & Hmiss).
      rewrite blocks_init in Hb. exists k, b. split; [done|].
      unfold missing_block in *. by rewrite !blocks_init in Hmiss.
  - split_and!; try done. split; [|done]. intros _.
    by apply blockAddrs_of_nil.
Qed.

Lemma declared_allocated f c :
  wf_cells f → declared f c →
  uses_cells f = true ∧ InstValue (Alloca c) ∈ entry_allocas f.
Proof.
  intros Hwf Hc. split.
  - destruct (uses_cells f) eqn:Hu; [done|].
    apply uses_cells_false in Hu as [Hr Hs].
    destruct Hc as [[r Hc]|[s Hc]]; [rewrite Hr in Hc|rewrite Hs in Hc];
      by rewrite lookup_empty in Hc.
  - unfold entry_allocas. apply elem_of_app.
    destruct Hc as [[r Hc]|[s Hc]]; [left|right].
    + apply list_elem_of_fmap. exists c. split; [reflexivity|].
      apply list_elem_of_omap. exists r. split; [|exact Hc].
      assert (r ∈ used (regs f) all_regs) as Hu
        by (apply (used_regs f Hwf); eauto).
      unfold used in Hu. by apply list_elem_of_filter in Hu as [_ Hin].
    + apply list_elem_of_fmap. exists c. split; [reflexivity|].
      apply list_elem_of_omap. exists s. split; [|exact Hc].
      assert (s ∈ used (status f) all_status) as Hu
        by (apply (used_status f Hwf); eauto).
      unfold used in Hu. by apply list_elem_of_filter in Hu as [_ Hin].
Qed.
(** The body that a successful run appends, with the state [f1] in which
    the last block left the function. *)
Lemma translateFunc_new_blocks f f' :
  wf_blocks f → translateFunc d sz ga tc dt f = Ok f' () →
  ∃ f1 F target,
    forM_ (blockAddrs_of f) (translateBlock d sz ga tc dt) (init f) = Ok f1 ()
    ∧ step (init f) f1
    ∧ blocks f' = blocks f1 ∧ regs f' = regs f1 ∧ status f' = status f1
    ∧ target ∈ blockAddrs_of f
    ∧ body f' =
        body f ++
        (if uses_cells f' then [(EntryBlock, entry_block F f' target)] else [])
        ++ ((λ k, (BlockAt k, ir_of f' k)) <$> blockAddrs_of f).
Proof.
  intros Hwf Hrun.
  destruct (translateFunc_body d sz ga tc dt f f' Hrun Hwf)
    as (F & _ & _ & _ & _ & _ & _ & Hne & Hbody).
  destruct (translateFunc_Ok d sz ga tc dt f f' Hrun)
    as (f1 & F1 & Hblocks & _ & Hstep & _ & _ & Hf').
  exists f1, F, (default 0 (head (blockAddrs_of f))).
  split_and!; [done|done|by rewrite Hf'..| |exact Hbody].
  destruct (blockAddrs_of f); [done|]. by left.
Qed.

(** X7. The code that a successful run emits refers only to stack cells that
    its entry block allocates: every cell that occurs in an instruction or
    in a terminator of an emitted block is the cell of an [alloca] of the
    first emitted block, the entry block.  The function given to
    [translateFunc] must itself refer to recorded cells only, as an
    untranslated function does. *)
Theorem translateFunc_cells_allocated f f' :
  wf_blocks f → wf_cells f → decl f →
  translateFunc d sz ga tc dt f = Ok f' () →
  ∃ new,
    body f' = body f ++ new
    ∧ ∀ ref b, (ref, b) ∈ new → ir_cells (allocated new) b.
Proof.
  intros Hwf Hcells Hdecl Hrun.
  destruct (translateFunc_new_blocks f f' Hwf Hrun)
    as (f1 & F & target & Hblocks & Hstep & Hb & Hr & Hs & _ & Hbody).
  eexists. split; [exact Hbody|].
  assert (Hdecl1 : decl f1).
  { apply (forM_blocks_decl _ _ _ Hblocks). intros k b.
    rewrite blocks_init. intros Hk. specialize (Hdecl k b Hk).
    eapply ir_cells_impl; [|exact Hdecl]. intros c. unfold declared.
    by rewrite regs_init, status_init. }
  assert (Hcells' : wf_cells f').
  { assert (wf_cells f1) as [H1 H2].
    { apply (step_wf _ _ Hstep). destruct Hcells. split;
        by rewrite ?regs_init, ?status_init. }
    split; by rewrite ?Hr, ?Hs. }
  assert (Hall : ∀ c, declared f' c →
            allocated
              ((if uses_cells f'
                then [(EntryBlock, entry_block F f' target)] else [])
               ++ ((λ k, (BlockAt k, ir_of f' k)) <$> blockAddrs_of f)) c).
  { intros c Hc. destruct (declared_allocated f' c Hcells' Hc) as [-> Hin].
    eexists. split; [reflexivity|]. unfold entry_block. cbn [Insts].
    apply elem_of_app. by left. }
  
  intros ref b [Hin|Hin]%elem_of_app.
  - destruct (uses_cells f') eqn:Hu; [|by apply elem_of_nil in Hin].
    apply list_elem_of_singleton in Hin. injection Hin as -> ->.
    apply entry_block_cells. exact Hall.
  - apply list_elem_of_fmap in Hin as (k & [= -> ->] & _).
    apply (ir_cells_impl (declared f')); [exact Hall|].
    unfold ir_of. destruct (blocks f' !! k) as [b|] eqn:Hk; simpl.
    + rewrite Hb in Hk. specialize (Hdecl1 k b Hk).
      eapply ir_cells_impl; [|exact Hdecl1]. intros c. unfold declared.
      by rewrite Hr, Hs.
    + split; [apply Forall_nil_2|done].
Qed.

(** X8. The control-flow graph that a successful run emits is closed: every
    emitted block ends in a terminator, and every block a terminator
    branches to is one of the emitted blocks. *)
Theorem translateFunc_branches_closed f f' :
  wf_blocks f → translateFunc d sz ga tc dt f = Ok f' () →
  ∃ new,
    body f' = body f ++ new
    ∧ ∀ ref b, (ref, b) ∈ new →
        ∃ t, Term b = Some t ∧ ∀ r, r ∈ term_targets t → r ∈ new.*1.
Proof.
  intros Hwf Hrun.
  destruct (translateFunc_new_blocks f f' Hwf Hrun)
    as (f1 & F & target & Hblocks & Hstep & Hb & _ & _ & Htarget & Hbody).
  eexists. split; [exact Hbody|].
  assert (Hreal : ∀ k, k ∈ blockAddrs_of f →
            BlockAt k ∈
              ((if uses_cells f'
                then [(EntryBlock, entry_block F f' target)] else [])
               ++ ((λ k, (BlockAt k, ir_of f' k)) <$> blockAddrs_of f)).*1).
  { intros k Hk. rewrite fmap_app. apply elem_of_app. right.
    rewrite <-list_fmap_compose. apply list_elem_of_fmap. by exists k. }
  intros ref b [Hin|Hin]%elem_of_app.
  - destruct (uses_cells f') eqn:Hu; [|by apply elem_of_nil in Hin].
    apply list_elem_of_singleton in Hin. injection Hin as -> ->.
    eexists. split; [reflexivity|]. intros r Hr.
    apply list_elem_of_singleton in Hr as ->. by apply Hreal.
  - apply list_elem_of_fmap in Hin as (k & [= -> ->] & Hk).
    destruct (forM_blocks_terminated _ _ _ Hblocks k Hk)
      as (b & t & Hir & Ht & Htargets).
    exists t. split.
    { unfold ir_at in Hir. unfold ir_of. rewrite Hb, Hir. exact Ht. }
    intros r Hr.
    rewrite Forall_forall in Htargets. specialize (Htargets r Hr).
    destruct r as [|a]; [done|]. apply Hreal.
    apply (elem_of_blockAddrs_of f a Hwf). rewrite <-blocks_init.
    by apply (is_Some_blocks_grows (init f) f1 a (step_grows _ _ Hstep)).
Qed.
End function_properties.

(** ** Element references into globals *)

Section element_references.
Context (d : disassembler) (sz : type → Z).

(** X9. When the resolution of an address that is not the start of a
    global returns a value (it may also abort, as for an address inside a
    scalar element), the value is an element reference into the global at
    [start] that contains the address, its indices are 64-bit constants,
    and it is the one instruction appended to the block.  If moreover the
    sizes of the components are non-negative and the offset is below
    [2^62], so that the 64-bit sums of the search do not wrap around, the
    indices are the index 0 followed by a path that selects exactly the
    addressed byte: the byte offset of the element that the path selects
    (index [j] of an array skips [j] elements, index [j] of a structure
    skips its first [j] fields) is [a - start]. *)
Theorem global_element_offset block a f f' v :
  globals d !! a = None →
  global d sz block a f = Ok f' v →
  ∃ start g indices,
    globals d !! start = Some g
    ∧ start ≤ a < addr_add start (wrap64 (sz (global_elem g)))
    ∧ v = GetElementPtr (GlobalRef start) indices
    ∧ Forall is_index indices
    ∧ f' = append_inst block (InstValue v) f
    ∧ (a - start < 2 ^ 62 → fits sz (global_elem g) →
       ∃ path,
         indices = ConstInt 0 I64 :: path
         ∧ path_offset sz (global_elem g) path = Some (a - start)).
Proof.
  intros Hnone. unfold global. rewrite Hnone. cbv zeta.
  destruct (_ && _); [|done].
  set (start := at_index _ _).
  destruct (globals d !! start) as [g|] eqn:Hg; [|done].
  destruct (_ && _) eqn:Hin; [|done].
  apply andb_true_iff in Hin as [Hle%Z.leb_le Hlt%Z.ltb_lt].
  intros Hrun. exists start, g.
  assert (Hne : start ≠ a) by (intros ->; congruence).
  revert Hrun. unfold Global_Typ, getElementPtr.
  destruct (_ <=? 0) eqn:Hoff.
  - unfold NewInst, AppendInst, mbind, M_bind, mret, M_ret.
    intros [= <- <-]. exists []. split_and!; [done..|].
    intros Hsmall _. exfalso.
    apply Z.leb_le in Hoff. unfold addr_sub in Hoff.
    rewrite wrap64_small, swrap64_small in Hoff; lia.
  - destruct (gepWalk _ _ _ _) as [|path] eqn:Hwalk; [done|].
    unfold NewInst, AppendInst, mbind, M_bind, mret, M_ret.
    intros [= <- <-]. exists (ConstInt 0 I64 :: path).
    split_and!; [done..| |done|].
    + constructor; [by eexists|]. by apply gepWalk_indices in Hwalk.
    + intros Hsmall Hfits. exists path. split; [done|].
      unfold addr_sub in Hwalk.
      rewrite wrap64_small, swrap64_small in Hwalk by lia.
      rewrite (gepWalk_exact sz (global_elem g) (a - start) Hsmall 0 path);
        [f_equal; lia|done|lia|done].
Qed.
End element_references.

(** ** The shape of the translated instructions *)

(** What [reg] returns: the cell recorded for the register in the state it
    leaves, in which only that cell may be new. *)
Lemma reg_Ok (r : Reg) f f1 v :
  reg r f = Ok f1 v →
  ∃ c, v = Alloca c ∧ regs f1 !! r = Some c ∧ regs f ⊆ regs f1
       ∧ status f1 = status f ∧ blocks f1 = blocks f.
Proof.
  unfold reg. destruct (regs f !! r) as [c|] eqn:Hr.
  - intros [= <- <-]. by exists c.
  - destruct (reg_type r) as [typ|]; [|done]. intros [= <- <-].
    exists (reg_cell r typ). split_and!; try done.
    + apply lookup_alloc_reg.
    + rewrite regs_alloc_reg. by apply insert_subseteq.
Qed.


Section instruction_shapes.
Context (d : disassembler) (sz : type → Z).

(** Reading a register: the load of its cell is appended to the block. *)
Lemma useArg_register block i (r : Reg) f f' v :
  useArg d sz block i (ArgReg r) f = Ok f' v →
  ∃ c, v = Load (Alloca c) ∧ regs f' !! r = Some c ∧ regs f ⊆ regs f'
       ∧ status f' = status f
       ∧ ir_at f' block = extends_ir [InstValue v] <$> ir_at f block.
Proof.
  unfold useArg. unfold mbind, M_bind.
  destruct (reg r f) as [f0 src| |] eqn:Hreg; [|done..].
  apply reg_Ok in Hreg as (c & -> & Hc & Hsub & Hs & Hb).
  run. intros [= <- <-]. exists c. split_and!; try done.
  rewrite ir_at_append_inst. unfold ir_at. rewrite Hb.
  by destruct (blocks f !! block) as [[[]]|].
Qed.




(** X11. MOV into a register writes without reading the destination: the block
    receives the instructions that read the source operand, none of them a
    store, and then one store of the value read into the cell of the
    register.  The flags are left as they are. *)
Theorem mov_register block inst (r : Reg) f f' :
  Op_ inst = MOV → arg_at inst 0 = ArgReg r →
  translateInst d sz block inst f = Ok f' () →
  ∃ f1 y l c,
    useArg d sz block (Some inst) (arg_at inst 1) f = Ok f1 y
    ∧ ir_at f1 block = extends_ir l <$> ir_at f block
    ∧ Forall (λ i, is_store i = false) l
    ∧ regs f' !! r = Some c
    ∧ ir_at f' block =
        extends_ir (l ++ [InstStore y (Alloca c)]) <$> ir_at f block
    ∧ status f' = status f.
Proof.
  intros Hop Harg. unfold translateInst. rewrite Hop. unfold instMOV.
  rewrite Harg. unfold mbind at 1, M_bind at 1.
  destruct (useArg _ _ _ _ (arg_at inst 1) f) as [f1 y| |] eqn:Hy; [|done..].
  apply useArg_loads in Hy as [l [Hir1 Hpure Hs1]].
  unfold defArg. unfold mbind, M_bind.
  destruct (reg r f1) as [f2 dst| |] eqn:Hreg; [|done..].
  apply reg_Ok in Hreg as (c & -> & Hc & _ & Hs2 & Hb2).
  unfold NewStore, AppendInst. intros [= <-].
  exists f1, y, l, c. split_and!; try done.
  - rewrite ir_at_append_inst. unfold ir_at at 1. rewrite Hb2.
    fold (ir_at f1 block). rewrite Hir1.
    destruct (ir_at f block) as [[insts0 term0]|]; [|done].
    unfold extends_ir, ir_append. simpl. f_equal. f_equal.
    by rewrite <-!(assoc_L (++)).
  - rewrite status_append_inst. congruence.
Qed.

Lemma relative_target (x len rel : Z) :
  0 ≤ x + len + rel < 2 ^ 64 →
  addr_add (addr_add x (wrap64 len)) (wrap64 rel) = x + len + rel.
Proof.
  intros Hrange. unfold addr_add, wrap64.
  rewrite Zplus_mod_idemp_r, Zplus_mod_idemp_l.
  replace (x + len `mod` 2 ^ 64 + rel) with (x + rel + len `mod` 2 ^ 64)
    by lia.
  rewrite Zplus_mod_idemp_r.
  replace (x + rel + len) with (x + len + rel) by lia.
  by apply Z.mod_small.
Qed.

Lemma reg_cell_of_known (r : Reg) typ c f f' :
  regs f !! r = Some c → regs f ⊆ regs f' → reg_cell_of f' r typ = c.
Proof.
  intros Hr Hsub. unfold reg_cell_of.
  by rewrite (lookup_weaken _ _ _ _ Hr Hsub).
Qed.

(** Reading a register of known width succeeds. *)
Lemma useArg_register_Ok block i (r : Reg) typ f :
  reg_type r = Some typ →
  ∃ f' c,
    useArg d sz block i (ArgReg r) f = Ok f' (Load (Alloca c))
    ∧ regs f' !! r = Some c ∧ regs f ⊆ regs f'
    ∧ Function f' = Function f
    ∧ ir_at f' block = extends_ir [InstValue (Load (Alloca c))] <$> ir_at f block.
Proof.
  intros Ht. pose proof (useArg_reg d sz block i r typ f Ht) as Hrun.
  destruct (useArg_register block i r _ _ _ Hrun)
    as (c & [= Hc] & Hr & Hsub & _ & Hir).
  rewrite <-Hc in Hr. eexists _, _. split; [exact Hrun|].
  split_and!; [exact Hr|exact Hsub| |exact Hir].
  by rewrite Function_append_inst, Function_alloc_reg.
Qed.

(** Writing a register of known width succeeds. *)
Lemma defArg_register_Ok block i (r : Reg) typ v f :
  reg_type r = Some typ →
  ∃ f' c,
    defArg d sz block i (ArgReg r) v f = Ok f' ()
    ∧ regs f' !! r = Some c ∧ regs f ⊆ regs f'
    ∧ ir_at f' block = extends_ir [InstStore v (Alloca c)] <$> ir_at f block.
Proof.
  intros Ht. unfold defArg. unfold mbind, M_bind.
  rewrite (reg_eq r typ f Ht). unfold NewStore, AppendInst.
  eexists _, _. split; [reflexivity|]. split_and!.
  - rewrite regs_append_inst. apply lookup_alloc_reg.
  - rewrite regs_append_inst, regs_alloc_reg. unfold reg_cell_of.
    destruct (regs f !! r) as [c|] eqn:Hr; simpl.
    + by rewrite insert_id.
    + by apply insert_subseteq.
  - rewrite ir_at_append_inst, ir_at_alloc_reg.
    by destruct (ir_at f block) as [[]|].
Qed.

(** The arguments of a call are read from ECX and EDX. *)
Lemma call_arguments_Ok block (F : irFunction) f b :
  ir_at f block = Some b →
  ∃ f1 args,
    match Conv F with
    | CallConvX86FastCall =>
        let params := Params (Sig F) in
        args0 ← (if (0 <? length params)%nat
                 then arg ← useArg d sz block None (ArgReg ECX); mret [arg]
                 else mret []);
        args1 ← (if (1 <? length params)%nat
                 then arg ← useArg d sz block None (ArgReg EDX); mret [arg]
                 else mret []);
        mret (args0 ++ args1)
    | _ => mret []
    end f = Ok f1 args
    ∧ regs f ⊆ regs f1
    ∧ ir_at f1 block = Some (extends_ir (InstValue <$> args) b)
    ∧ ∀ f', regs f1 ⊆ regs f' → args = call_args F f'.
Proof.
  intros Hb. unfold call_args.
  assert (Hnil : ir_at f block = Some (extends_ir (InstValue <$> []) b)).
  { rewrite Hb. unfold extends_ir. simpl. rewrite app_nil_r. by destruct b. }
  destruct (Conv F); try (by exists f, []).
  cbv zeta. generalize (length (Params (Sig F))). intros n.
  destruct (Nat.ltb_spec 0 n) as [H0|H0], (Nat.ltb_spec 1 n) as [H1|H1];
    try lia.
  - destruct (useArg_register_Ok block None ECX I32 f eq_refl)
      as (f1 & c & Hrun & Hc & Hsub & _ & Hir).
    destruct (useArg_register_Ok block None EDX I32 f1 eq_refl)
      as (f2 & c' & Hrun' & Hc' & Hsub' & _ & Hir').
    exists f2, [Load (Alloca c); Load (Alloca c')]. unfold mbind, M_bind.
    rewrite Hrun. unfold mret, M_ret. rewrite Hrun'.
    split_and!; [done|by etrans| |].
    + rewrite Hir', Hir, Hb. simpl. f_equal. unfold extends_ir. simpl.
      by rewrite <-(assoc_L (++)).
    + intros f' Hsub''.
      rewrite (reg_cell_of_known ECX I32 c f1 f'),
        (reg_cell_of_known EDX I32 c' f2 f'); [|done..|by etrans].
      by rewrite take_ge by (simpl; lia).
  - destruct (useArg_register_Ok block None ECX I32 f eq_refl)
      as (f1 & c & Hrun & Hc & Hsub & _ & Hir).
    exists f1, [Load (Alloca c)]. unfold mbind, M_bind.
    rewrite Hrun. unfold mret, M_ret. split_and!; [done..| |].
    + by rewrite Hir, Hb.
    + intros f' Hsub'. rewrite (reg_cell_of_known ECX I32 c f1 f') by done.
      by replace n with 1%nat by lia.
  - exists f, []. unfold mbind, M_bind, mret, M_ret.
    split_and!; [done..|]. intros f' _. by replace n with 0%nat by lia.
Qed.

(** A relative operand that names a function: the function at the address
    that follows the instruction plus the displacement. *)
Lemma useArg_relative block inst rel f g :
  0 ≤ inst_addr inst + Len inst + rel < 2 ^ 64 →
  funcs d !! (inst_addr inst + Len inst + rel) = Some g →
  useArg d sz block (Some inst) (ArgRel rel) f
  = Ok f (FuncRef (inst_addr inst + Len inst + rel)).
Proof.
  intros Hrange Hg. unfold useArg. cbv zeta.
  by rewrite (relative_target _ _ _ Hrange), Hg.
Qed.

Lemma calleeFunction_eq a f :
  calleeFunction d a f =
  match callee_ir d f a with
  | Some F => Ok f F
  | None => Panic PanicNilDeref
  end.
Proof.
  unfold calleeFunction, callee_ir, getFunction.
  by destruct (bool_decide (a = entry f)).
Qed.

(** X12. A direct call of a function of the table of the disassembler: the
    callee is the function at the address that follows the call plus the
    displacement, also for a negative displacement.  If the callee has
    its IR function (for a call of the function under translation, the IR
    function of that function) the call succeeds: the block receives the
    loads of the arguments (for the fastcall convention ECX and EDX, as
    many as the callee has parameters, in this order; none otherwise),
    the call with these arguments and, unless the callee returns void, the
    store of the result into the cell of EAX.  If the callee has no IR
    function the run aborts on the nil pointer. *)
Theorem instCALL_direct block inst rel f b g :
  arg_at inst 0 = ArgRel rel →
  0 ≤ inst_addr inst + Len inst + rel < 2 ^ 64 →
  funcs d !! (inst_addr inst + Len inst + rel) = Some g →
  ir_at f block = Some b →
  match callee_ir d f (inst_addr inst + Len inst + rel) with
  | Some F =>
      ∃ f',
        instCALL d sz block inst f = Ok f' ()
        ∧ ir_at f' block =
            Some (extends_ir
                    ((InstValue <$> call_args F f')
                     ++ InstValue
                          (Call (inst_addr inst + Len inst + rel)
                             (call_args F f'))
                     :: call_result F f'
                          (Call (inst_addr inst + Len inst + rel)
                             (call_args F f'))) b)
  | None => instCALL d sz block inst f = Panic PanicNilDeref
  end.
Proof.
  intros Harg Hrange Hg Hb.
  destruct (callee_ir d f _) as [F|] eqn:HF.
  2: { unfold instCALL. rewrite Harg. unfold mbind at 1, M_bind at 1.
       rewrite (useArg_relative block inst rel f g Hrange Hg). cbv zeta.
       unfold mbind at 1, M_bind at 1. by rewrite calleeFunction_eq, HF. }
  unfold instCALL. rewrite Harg. unfold mbind at 1, M_bind at 1.
  rewrite (useArg_relative block inst rel f g Hrange Hg). cbv zeta.
  unfold mbind at 1, M_bind at 1. rewrite calleeFunction_eq, HF.
  unfold mbind at 1, M_bind at 1.
  destruct (call_arguments_Ok block F f b Hb)
    as (f1 & args & Hrun & Hsub & Hir & Hargs).
  cbv zeta in Hrun. rewrite Hrun.
  unfold NewInst, AppendInst. unfold mbind, M_bind, mret, M_ret.
  unfold call_result. destruct (is_void (Ret (Sig F))); simpl.
  - eexists. split; [reflexivity|].
    rewrite <-(Hargs (append_inst _ _ f1)) by done.
    rewrite ir_at_append_inst, Hir. simpl. f_equal.
    unfold extends_ir, ir_append. simpl. by rewrite <-(assoc_L (++)).
  - destruct (defArg_register_Ok block None EAX I32
                (Call (inst_addr inst + Len inst + rel) args)
                (append_inst block
                   (InstValue (Call (inst_addr inst + Len inst + rel) args))
                   f1) eq_refl)
      as (f' & c & Hdef & Hc & Hsub' & Hir').
    exists f'. split; [exact Hdef|].
    rewrite <-(Hargs f') by done.
    rewrite (reg_cell_of_known EAX I32 c f' f') by done.
    rewrite Hir', ir_at_append_inst, Hir. simpl. f_equal.
    unfold extends_ir, ir_append. simpl. f_equal.
    rewrite <-!(assoc_L (++)). done.
Qed.

(** X13. IMUL is translated in its three-operand form only: the translator
    multiplies the second and the third operand, so that an IMUL without a
    third operand aborts the run, whatever its other operands are. *)
Theorem imul_needs_three_operands block inst f :
  Op_ inst = IMUL → arg_at inst 2 = ArgNil →
  ∃ p, translateInst d sz block inst f = Panic p.
Proof.
  intros Hop Harg. unfold translateInst. rewrite Hop. unfold instIMUL.
  rewrite Harg. unfold mbind at 1, M_bind at 1.
  pose proof (triple_useArg d sz block (λ _, True) (Some inst)
                (arg_at inst 1) (λ _, False) (mono_True block) f) as Hx.
  destruct (useArg _ _ _ _ (arg_at inst 1) f) as [f1 x|f1 e|p];
    [|tauto|by exists p].
  by eexists.
Qed.
End instruction_shapes.

(** ** The names of the cells *)

Lemma reg_name_inj :
  Forall (λ r, Forall (λ r', ToLower (Reg_String r) = ToLower (Reg_String r')
                             → r = r') all_regs) all_regs.
Proof. apply (bool_decide_unpack _). by vm_compute. Qed.

Lemma reg_name_not_status :
  Forall (λ r, Forall (λ s, ToLower (Reg_String r)
                            ≠ ToLower (StatusFlag_String s)) all_status)
    all_regs.
Proof. apply (bool_decide_unpack _). by vm_compute. Qed.

Lemma StronglySorted_lt_NoDup (l : list N) : StronglySorted N.lt l → NoDup l.
Proof.
  induction 1 as [|x l Hs IH Hall]; constructor; [|done].
  intros Hin. rewrite Forall_forall in Hall. specialize (Hall x Hin). lia.
Qed.

Lemma NoDup_declare_names (m : gmap N InstAlloca) (keys : list N) :
  NoDup keys →
  (∀ k k' c c', k ∈ keys → k' ∈ keys → m !! k = Some c → m !! k' = Some c' →
                alloca_name c = alloca_name c' → k = k') →
  NoDup (inst_name <$> declare m keys).
Proof.
  unfold declare. induction keys as [|k keys IH]; intros Hnd Hinj; simpl.
  { constructor. }
  apply NoDup_cons in Hnd as [Hk Hnd].
  assert (IH' : NoDup (inst_name <$> ((InstValue ∘ Alloca) <$> omap (m !!.) keys))).
  { apply IH; [done|]. intros k1 k2 c1 c2 H1 H2. apply Hinj; by right. }
  destruct (m !! k) as [c|] eqn:Hc; [|exact IH']. simpl.
  constructor; [|exact IH']. intros Hin.
  apply list_elem_of_fmap in Hin as (i & Hi & Hin).
  apply list_elem_of_fmap in Hin as (c' & -> & Hin).
  apply list_elem_of_omap in Hin as (k' & Hk' & Hc').
  simpl in Hi. injection Hi as Hi.
  assert (k = k') as ->; [|done].
  apply (Hinj k k' c c'); [by left|by right|done..].
Qed.

(** X14. The cells that the entry block allocates have pairwise distinct names:
    a cell is named after its register or status flag in lower case, and
    no two of the registers AL..RIP and of the flags CF..OF share a name.
    The cells of the function are the ones [reg] and [status] create, as
    they are throughout a translation. *)
Theorem entry_allocas_distinct_names f :
  wf_cells f →
  Forall (λ i, is_Some (inst_name i)) (entry_allocas f)
  ∧ ∀ (i j : nat) x y,
      entry_allocas f !! i = Some x → entry_allocas f !! j = Some y →
      inst_name x = inst_name y → i = j.
Proof.
  intros Hwf. split.
  - apply Forall_forall. intros i Hi. rewrite entry_allocas_used in Hi.
    apply elem_of_app in Hi as [Hi|Hi];
      apply elem_of_declare in Hi as (c & k & -> & _); by eexists.
  - assert (Hnd : NoDup (inst_name <$> entry_allocas f)).
    { rewrite entry_allocas_used, fmap_app.
      destruct (used_regs f Hwf) as [Hsr Hur].
      destruct (used_status f Hwf) as [Hss Hus].
      destruct Hwf as [Hwr Hws].
      assert (Hregs : ∀ r c, regs f !! r = Some c →
                r ∈ all_regs ∧ alloca_name c = ToLower (Reg_String r)).
      { intros r c Hc. destruct (Hwr r c Hc) as (typ & Ht & ->).
        split; [|done]. apply elem_of_all_regs.
        apply reg_type_range in Ht. unfold AL, RIP, TR7 in *. lia. }
      assert (Hstat : ∀ s c, status f !! s = Some c →
                s ∈ all_status ∧ alloca_name c = ToLower (StatusFlag_String s)).
      { intros s c Hc. destruct (Hws s c Hc) as [Hs ->].
        split; [|done]. by apply elem_of_all_status. }
      apply NoDup_app. split_and!.
      - apply NoDup_declare_names.
        + by apply StronglySorted_lt_NoDup.
        + intros r r' c c' _ _ Hc Hc' Hn.
          destruct (Hregs r c Hc) as [Hr Hname].
          destruct (Hregs r' c' Hc') as [Hr' Hname'].
          pose proof reg_name_inj as Hinj. rewrite Forall_forall in Hinj.
          specialize (Hinj r Hr). rewrite Forall_forall in Hinj.
          apply (Hinj r' Hr'). congruence.
      - intros n Hn Hn'.
        apply list_elem_of_fmap in Hn as (i & -> & Hi).
        apply list_elem_of_fmap in Hn' as (i' & Heq & Hi').
        apply elem_of_declare in Hi as (c & r & -> & Hc).
        apply elem_of_declare in Hi' as (c' & s & -> & Hc').
        simpl in Heq. injection Heq as Heq.
        destruct (Hregs r c Hc) as [Hr Hname].
        destruct (Hstat s c' Hc') as [Hs Hname'].
        pose proof reg_name_not_status as Hdis. rewrite Forall_forall in Hdis.
        specialize (Hdis r Hr). rewrite Forall_forall in Hdis.
        apply (Hdis s Hs). congruence.
      - apply NoDup_declare_names.
        + by apply StronglySorted_lt_NoDup.
        + intros s s' c c' _ _ Hc Hc' Hn.
          destruct (Hws s c Hc) as [Hs ->]. destruct (Hws s' c' Hc') as [Hs' ->].
          apply elem_of_all_status in Hs, Hs'.
          pose proof status_name_inj as Hinj. rewrite Forall_forall in Hinj.
          specialize (Hinj s Hs). rewrite Forall_forall in Hinj.
          by apply (Hinj s' Hs'). }
    intros i j x y Hx Hy Hname.
    apply (NoDup_lookup _ i j (inst_name x) Hnd).
    + by rewrite list_lookup_fmap, Hx.
    + by rewrite list_lookup_fmap, Hy, Hname.
Qed.

(** ** The IR function of a translated function *)

Lemma digit_value_hex_digit (n : N) : (n < 16)%N → digit_value (hex_digit n) = n.
Proof.
  intros Hn.
  assert (Hall : Forall (λ k, digit_value (hex_digit k) = k)
                   (N.of_nat <$> seq 0 16)).
  { apply (bool_decide_unpack _). by vm_compute. }
  rewrite Forall_forall in Hall. apply Hall.
  apply list_elem_of_fmap. exists (N.to_nat n). split; [lia|].
  apply elem_of_seq. lia.
Qed.

Lemma unhex_app (s1 s2 : string) (v : N) :
  unhex (s1 +:+ s2) v = unhex s2 (unhex s1 v).
Proof. revert v. induction s1 as [|c s1 IH]; intros v; simpl; [done|apply IH]. Qed.

Lemma unhex_zeros (k : nat) (v : N) : unhex (zeros k) v = (16 ^ N.of_nat k * v)%N.
Proof.
  revert v. induction k as [|k IH]; intros v.
  - simpl. lia.
  - cbn [zeros unhex]. rewrite IH.
    change (digit_value "0") with 0%N.
    rewrite Nat2N.inj_succ, N.pow_succ_r'. lia.
Qed.

Lemma hex_loop_acc (fuel : nat) (n : N) (acc : string) :
  hex_loop fuel n acc = hex_loop fuel n EmptyString +:+ acc.
Proof.
  revert n acc. induction fuel as [|fuel IH]; intros n acc; [done|].
  cbn [hex_loop]. destruct (n / 16 =? 0)%N; [done|].
  rewrite (IH _ (String _ acc)), (IH _ (String _ EmptyString)).
  generalize (hex_loop fuel (n / 16) ""). intros s.
  induction s as [|c s IHs]; [done|].
  change (String c s +:+ ?t) with (String c (s +:+ t)). by rewrite IHs.
Qed.

(** The digits written for [n] denote [n]. *)
Lemma unhex_hex_loop (fuel : nat) (n : N) :
  (n < 16 ^ N.of_nat fuel)%N → unhex (hex_loop fuel n EmptyString) 0 = n.
Proof.
  revert n. induction fuel as [|fuel IH]; intros n Hn.
  { simpl in *. lia. }
  cbn [hex_loop]. pose proof (N.mod_lt n 16 ltac:(lia)) as Hmod.
  pose proof (N.div_mod n 16 ltac:(lia)) as Hdiv.
  destruct (N.eqb_spec (n / 16) 0) as [Hz|Hnz].
  - cbn [unhex]. rewrite digit_value_hex_digit by done. lia.
  - rewrite hex_loop_acc, unhex_app. cbn [unhex].
    rewrite digit_value_hex_digit by done. rewrite IH; [lia|].
    rewrite Nat2N.inj_succ, N.pow_succ_r' in Hn.
    apply N.Div0.div_lt_upper_bound. lia.
Qed.

(** X15. The name given to a function without IR function determines its entry
    address: the address is the hexadecimal number in the name.  Functions
    at different addresses therefore get different names. *)
Theorem func_name_address (entry : Address) :
  0 ≤ entry < 2 ^ 64 → name_address (func_name entry) = Z.to_N entry.
Proof.
  intros Hrange. unfold func_name. cbv zeta.
  change ("f_" +:+ ?s) with (String "f" (String "_" s)).
  cbn [name_address]. rewrite unhex_app, unhex_zeros, N.mul_0_r.
  apply unhex_hex_loop. change (16 ^ N.of_nat 16)%N with (Z.to_N (2 ^ 64)).
  lia.
Qed.

Section signature.
Context (d : disassembler) (sz : type → Z) (ga : Address → Arg → list Address)
  (tc : Address → instruction → bool) (dt : instruction → bool).

(** X16. A successful translation changes nothing but the cells and the IR of
    the blocks: the entry address and the machine code of the blocks are
    kept, the IR function keeps its name, signature and calling convention
    and its blocks are only followed by new ones; a function that had no IR
    function receives one that returns void, takes no parameters, has the
    default calling convention and is named after the entry address. *)
Theorem translateFunc_keeps_signature f f' :
  translateFunc d sz ga tc dt f = Ok f' () →
  ∃ F',
    Function f' = Some F'
    ∧ entry f' = entry f
    ∧ static <$> blocks f' = static <$> blocks f
    ∧ match Function f with
      | Some F =>
          Name F' = Name F ∧ Sig F' = Sig F ∧ Conv F' = Conv F
          ∧ Blocks F `prefix_of` Blocks F'
      | None =>
          Name F' = func_name (entry f)
          ∧ Sig F' = {| Ret := Void; Params := [] |}
          ∧ Conv F' = CallConvNone
      end.
Proof.
  intros Hrun.
  destruct (translateFunc_Ok d sz ga tc dt f f' Hrun)
    as (f1 & F & _ & _ & [[HgF Hge _ _ Hgb] _] & HF & _ & Hf').
  eexists. rewrite Hf'. split; [reflexivity|].
  rewrite blocks_set_Function, blocks_init in *.
  split; [|split; [exact Hgb|]].
  { change (entry (set_Function ?G f1)) with (entry f1). rewrite Hge.
    unfold init. by destruct (Function f). }
  rewrite HF in HgF. unfold init in HgF.
  cbn [with_Blocks Name Sig Conv Blocks].
  destruct (Function f) as [F0|] eqn:HF0.
  - rewrite HF0 in HgF. injection HgF as ->.
    split_and!; [done..|]. by apply prefix_app_r.
  - cbn [Function set_Function] in HgF. injection HgF as ->. done.
Qed.
End signature.

(** ** The further properties on the example functions *)

Lemma nameless_translated : translate_demo nameless = Ok (final nameless) ().
Proof. by vm_compute. Qed.

Lemma wf_blocks_nameless : wf_blocks nameless.
Proof. unfold wf_blocks. apply (bool_decide_unpack _). by vm_compute. Qed.

(** An untranslated function refers to no cell. *)
Lemma decl_untranslated F e (bs : gmap Z basicBlock) :
  map_Forall (λ _ b, BasicBlock b = emptyIR) bs → decl (mkFunction F e bs).
Proof.
  intros Hbs k b Hk. simpl in Hk. rewrite (Hbs k b Hk). by split.
Qed.

Lemma demo_blocks_empty : map_Forall (λ _ b, BasicBlock b = emptyIR) demo_blocks.
Proof.
  unfold demo_blocks. repeat apply map_Forall_insert_2; try done.
Qed.

Lemma wf_cells_final_demo : wf_cells (final demo).
Proof.
  destruct (translateFunc_body no_tables sizeOfType_model getAddrs_model
              no_tail_call isDummyTerm_model demo (final demo)
              demo_translated wf_blocks_demo)
    as (F & _ & _ & _ & _ & Hwf & _).
  apply Hwf, wf_cells_empty.
Qed.

(** X1 on the examples. *)
Lemma reg_supported_registers_witness :
  regs demo !! EAX = None
  ∧ (∃ typ, typ ∈ [I8; I16; I32; I64]
            ∧ reg EAX demo = Ok (alloc_reg EAX (reg_cell EAX typ) demo)
                                (Alloca (reg_cell EAX typ)))
  ∧ reg F0 demo = Panic (PanicReg F0).
Proof.
  split; [reflexivity|]. split.
  - apply (reg_supported_registers EAX demo); [reflexivity|].
    unfold AL, EAX, RIP. lia.
  - apply (reg_supported_registers F0 demo); [reflexivity|].
    unfold AL, F0, RIP. lia.
Defined.

(** X2 on the examples. *)
Lemma reg_single_allocation_witness :
  reg EAX demo = Ok (state_of (reg EAX demo) demo)
                    (Alloca {| alloca_name := "eax"; alloca_elem := I32 |})
  ∧ reg EAX (state_of (reg EAX demo) demo)
    = Ok (state_of (reg EAX demo) demo)
         (Alloca {| alloca_name := "eax"; alloca_elem := I32 |}).
Proof.
  split; [reflexivity|].
  apply (reg_single_allocation EAX demo). reflexivity.
Defined.

(** The address one past the end of an array at which another global
    starts resolves to that global, and an address inside an element of
    the array aborts. *)
Example adjacent_global_resolves :
  global adjacent_tables sizeOfType_model 4096 (8192 + 4 * 4) demo
  = Ok demo (GlobalRef 8208)
  ∧ global adjacent_tables sizeOfType_model 4096 8194 demo
    = Panic (PanicIndexType I32).
Proof. by vm_compute. Qed.

(** X9 on the examples. *)
Lemma global_element_offset_witness :
  let ref := GetElementPtr (GlobalRef 12288)
               [ConstInt 0 I64; ConstInt 1 I64; ConstInt 2 I64] in
  globals nested_tables !! 12300 = None
  ∧ global nested_tables sizeOfType_model 4096 12300 demo
    = Ok (append_inst 4096 (InstValue ref) demo) ref
  ∧ ∃ start g indices,
      globals nested_tables !! start = Some g
      ∧ start ≤ 12300 < addr_add start (wrap64 (sizeOfType_model (global_elem g)))
      ∧ ref = GetElementPtr (GlobalRef start) indices
      ∧ Forall is_index indices
      ∧ (12300 - start < 2 ^ 62 → fits sizeOfType_model (global_elem g) →
         ∃ path,
           indices = ConstInt 0 I64 :: path
           ∧ path_offset sizeOfType_model (global_elem g) path
             = Some (12300 - start)).
Proof.
  intros ref.
  assert (Hnone : globals nested_tables !! 12300 = None) by reflexivity.
  assert (Hrun : global nested_tables sizeOfType_model 4096 12300 demo
                 = Ok (append_inst 4096 (InstValue ref) demo) ref)
    by (by vm_compute).
  split; [exact Hnone|]. split; [exact Hrun|].
  destruct (global_element_offset nested_tables sizeOfType_model 4096 12300
              demo _ _ Hnone Hrun)
    as (start & g & indices & Hg & Hin & Hv & Hidx & _ & Hpath).
  exists start, g, indices.
  exact (conj Hg (conj Hin (conj Hv (conj Hidx Hpath)))).
Defined.

(** X4 on the examples. *)
Lemma translateInst_error_only_call_witness :
  translate_inst_demo 4096 bad_call demo
  = Err demo (ErrInvalidCallee (ConstInt 5 I32))
  ∧ Op_ bad_call = CALL
  ∧ ∃ c, ErrInvalidCallee (ConstInt 5 I32) = ErrInvalidCallee c
         ∧ (∀ a, c ≠ FuncRef a)
         ∧ useArg no_tables sizeOfType_model 4096 (Some bad_call)
             (arg_at bad_call 0) demo = Ok demo c.
Proof.
  split; [reflexivity|].
  apply (translateInst_error_only_call no_tables sizeOfType_model 4096
           bad_call demo demo (ErrInvalidCallee (ConstInt 5 I32))).
  reflexivity.
Defined.

(** X5 on the examples. *)
Lemma translateBlock_writes_own_block_witness :
  translate_block_demo 4112 demo
  = Ok (state_of (translate_block_demo 4112 demo) demo) ()
  ∧ blocks (state_of (translate_block_demo 4112 demo) demo) !! 4096
    = blocks demo !! 4096
  ∧ blocks (state_of (translate_block_demo 4112 demo) demo) !! 4128
    = blocks demo !! 4128.
Proof.
  assert (Hrun : translate_block_demo 4112 demo
                 = Ok (state_of (translate_block_demo 4112 demo) demo) ())
    by (by vm_compute).
  split; [exact Hrun|].
  destruct (translateBlock_writes_own_block no_tables sizeOfType_model
              getAddrs_model no_tail_call isDummyTerm_model 4112 demo _
              (or_introl Hrun)) as (Hframe & _).
  split; by apply Hframe.
Defined.

(** X6 on the examples: the function without blocks, the stray branch,
    and the branch whose fall-through block is missing, for which the
    address reported is a block. *)
Lemma translateFunc_error_cause_witness :
  translate_demo hollow = Err (init hollow) ErrMissingBody
  ∧ translate_demo stray = Err (final stray) (ErrNoBlock 4228)
  ∧ translate_demo gap = Err (final gap) (ErrNoBlock 4128)
  ∧ blocks hollow = ∅ ∧ blocks stray ≠ ∅
  ∧ is_Some (blocks gap !! 4128)
  ∧ ∃ k b,
      blocks gap !! k = Some b
      ∧ missing_block getAddrs_model isDummyTerm_model gap (term b) 4128.
Proof.
  assert (Hhollow : translate_demo hollow = Err (init hollow) ErrMissingBody)
    by reflexivity.
  assert (Hgap : translate_demo gap = Err (final gap) (ErrNoBlock 4128))
    by (by vm_compute).
  split; [exact Hhollow|]. split; [exact stray_fails|].
  split; [exact Hgap|]. split_and!.
  - by apply (translateFunc_error_cause no_tables sizeOfType_model
                getAddrs_model no_tail_call isDummyTerm_model hollow _ _
                Hhollow).
  - intros Hempty.
    by apply (translateFunc_error_cause no_tables sizeOfType_model
                getAddrs_model no_tail_call isDummyTerm_model stray _ _
                stray_fails) in Hempty.
  - by eexists.
  - by apply (translateFunc_error_cause no_tables sizeOfType_model
                getAddrs_model no_tail_call isDummyTerm_model gap _ _ Hgap).
Defined.

(** X7 on the examples. *)
Lemma translateFunc_cells_allocated_witness :
  wf_blocks demo ∧ wf_cells demo ∧ decl demo
  ∧ translate_demo demo = Ok (final demo) ()
  ∧ ∃ new,
      body (final demo) = body demo ++ new
      ∧ ∀ ref b, (ref, b) ∈ new → ir_cells (allocated new) b.
Proof.
  assert (Hdecl : decl demo) by apply decl_untranslated, demo_blocks_empty.
  split_and!;
    [apply wf_blocks_demo|apply wf_cells_empty|exact Hdecl
    |apply demo_translated|].
  exact (translateFunc_cells_allocated no_tables sizeOfType_model
           getAddrs_model no_tail_call isDummyTerm_model demo (final demo)
           wf_blocks_demo (wf_cells_empty _ _ _) Hdecl demo_translated).
Defined.

(** X8 on the examples. *)
Lemma translateFunc_branches_closed_witness :
  wf_blocks demo ∧ translate_demo demo = Ok (final demo) ()
  ∧ ∃ new,
      body (final demo) = body demo ++ new
      ∧ ∀ ref b, (ref, b) ∈ new →
          ∃ t, Term b = Some t ∧ ∀ r, r ∈ term_targets t → r ∈ new.*1.
Proof.
  split_and!; [apply wf_blocks_demo|apply demo_translated|].
  exact (translateFunc_branches_closed no_tables sizeOfType_model
           getAddrs_model no_tail_call isDummyTerm_model demo (final demo)
           wf_blocks_demo demo_translated).
Defined.


(** X11 on the examples. *)
Lemma mov_register_witness :
  Op_ demo_mov = MOV ∧ arg_at demo_mov 0 = ArgReg EAX
  ∧ translate_inst_demo 4096 demo_mov demo
    = Ok (state_of (translate_inst_demo 4096 demo_mov demo) demo) ()
  ∧ ∃ f1 y l c,
      useArg no_tables sizeOfType_model 4096 (Some demo_mov)
        (arg_at demo_mov 1) demo = Ok f1 y
      ∧ Forall (λ i, is_store i = false) l
      ∧ ir_at (state_of (translate_inst_demo 4096 demo_mov demo) demo) 4096
        = extends_ir (l ++ [InstStore y (Alloca c)]) <$> ir_at demo 4096.
Proof.
  assert (Hrun : translate_inst_demo 4096 demo_mov demo
                 = Ok (state_of (translate_inst_demo 4096 demo_mov demo) demo) ())
    by (by vm_compute).
  split_and!; [reflexivity|reflexivity|exact Hrun|].
  destruct (mov_register no_tables sizeOfType_model 4096 demo_mov EAX demo _
              eq_refl eq_refl Hrun)
    as (f1 & y & l & c & Hy & _ & Hl & _ & Hir & _).
  by exists f1, y, l, c.
Defined.

(** X12 on the examples: the call of a fastcall function, and the call of
    a function without IR function. *)
Lemma instCALL_direct_witness :
  let f' := state_of (instCALL call_tables sizeOfType_model 4096 back_call demo)
              demo in
  arg_at back_call 0 = ArgRel (-4101)
  ∧ inst_addr back_call + Len back_call + -4101 = 8192
  ∧ funcs call_tables !! 8192 = Some callee
  ∧ callee_ir call_tables demo 8192 = Some demo_sig
  ∧ callee_ir bare_tables demo 8192 = None
  ∧ ir_at demo 4096 = Some emptyIR
  ∧ instCALL call_tables sizeOfType_model 4096 back_call demo = Ok f' ()
  ∧ call_args demo_sig f'
    = [Load (Alloca {| alloca_name := "ecx"; alloca_elem := I32 |});
       Load (Alloca {| alloca_name := "edx"; alloca_elem := I32 |})]
  ∧ ir_at f' 4096 =
      Some (extends_ir
              ((InstValue <$> call_args demo_sig f')
               ++ InstValue (Call 8192 (call_args demo_sig f'))
               :: call_result demo_sig f'
                    (Call 8192 (call_args demo_sig f'))) emptyIR)
  ∧ instCALL bare_tables sizeOfType_model 4096 back_call demo
    = Panic PanicNilDeref.
Proof.
  intros f'. split_and!; [reflexivity..| | | |].
  - by vm_compute.
  - by vm_compute.
  - pose proof (instCALL_direct call_tables sizeOfType_model 4096 back_call
                  (-4101) demo emptyIR callee eq_refl) as Hcall.
    change (callee_ir call_tables demo
              (inst_addr back_call + Len back_call + -4101))
      with (Some demo_sig) in Hcall.
    destruct Hcall as (f1 & Hrun & Hir); [by vm_compute|reflexivity..|].
    assert (Hf : f' = f1) by (unfold f'; by rewrite Hrun).
    rewrite Hf. exact Hir.
  - pose proof (instCALL_direct bare_tables sizeOfType_model 4096 back_call
                  (-4101) demo emptyIR (mkFunction None 8192 ∅) eq_refl)
      as Hcall.
    change (callee_ir bare_tables demo
              (inst_addr back_call + Len back_call + -4101))
      with (@None irFunction) in Hcall.
    apply Hcall; [by vm_compute|reflexivity..].
Defined.

(** X13 on the examples. *)
Lemma imul_needs_three_operands_witness :
  Op_ demo_imul = IMUL ∧ arg_at demo_imul 2 = ArgNil
  ∧ ∃ p, translate_inst_demo 4096 demo_imul demo = Panic p.
Proof.
  split_and!; [reflexivity..|].
  by apply (imul_needs_three_operands no_tables sizeOfType_model 4096
              demo_imul demo).
Defined.

(** X14 on the examples. *)
Lemma entry_allocas_distinct_names_witness :
  wf_cells (final demo)
  ∧ inst_name <$> entry_allocas (final demo)
    = [Some "eax"; Some "ecx"; Some "zf"; Some "sf"]%string
  ∧ ∀ (i j : nat) x y,
      entry_allocas (final demo) !! i = Some x →
      entry_allocas (final demo) !! j = Some y →
      inst_name x = inst_name y → i = j.
Proof.
  split; [apply wf_cells_final_demo|]. split; [by vm_compute|].
  apply (entry_allocas_distinct_names (final demo) wf_cells_final_demo).
Defined.

(** X15 on the examples. *)
Lemma func_name_address_witness :
  func_name 4096 = "f_001000"%string
  ∧ name_address (func_name 4096) = 4096%N.
Proof.
  split; [reflexivity|]. apply (func_name_address 4096). lia.
Defined.

(** X16 on the examples. *)
Lemma translateFunc_keeps_signature_witness :
  Function nameless = None
  ∧ translate_demo nameless = Ok (final nameless) ()
  ∧ ∃ F',
      Function (final nameless) = Some F'
      ∧ Name F' = "f_001000"%string
      ∧ Sig F' = {| Ret := Void; Params := [] |}
      ∧ Conv F' = CallConvNone.
Proof.
  split; [reflexivity|]. split; [apply nameless_translated|].
  destruct (translateFunc_keeps_signature no_tables sizeOfType_model
              getAddrs_model no_tail_call isDummyTerm_model nameless
              (final nameless) nameless_translated)
    as (F' & HF & _ & _ & Hname & Hsig & Hconv).
  by exists F'.
Defined.

(** ** The translation of a block is local *)

Section agreement.
Context (block : Address).

Lemma agree_ret {A} (a : A) : agree block (mret a).
Proof. by intros f g Hs. Qed.

Lemma agree_throw {A} (e : error) : agree block (@throw A e).
Proof. by intros f g Hs. Qed.

Lemma agree_panic {A} (p : abort) : agree block (@panic A p).
Proof. by intros f g Hs. Qed.

Lemma agree_bind {A B} (c : M A) (k : A → M B) :
  agree block c → (∀ a, agree block (k a)) → agree block (c ≫= k).
Proof.
  intros Hc Hk f g Hs. unfold mbind, M_bind. specialize (Hc f g Hs).
  unfold same_outcome in Hc.
  destruct (c f) as [f1 a| |], (c g) as [g1 b| |]; try done.
  destruct Hc as [<- Hs1]. by apply Hk.
Qed.

Lemma sim_step f g f' g' :
  sim block f g → step f f' → step g g' →
  blocks f' !! block = blocks g' !! block →
  sim block f' g'.
Proof.
  intros [Hwf Hwg HF He Hb Hd] [Hg1 Hw1] [Hg2 Hw2] Hb'.
  split; [by apply Hw1|by apply Hw2| | |done|].
  - rewrite (grows_Function _ _ Hg1), (grows_Function _ _ Hg2). exact HF.
  - rewrite (grows_entry _ _ Hg1), (grows_entry _ _ Hg2). exact He.
  - intros k.
    rewrite (is_Some_blocks_grows f f' k Hg1), (is_Some_blocks_grows g g' k Hg2).
    apply Hd.
Qed.

Lemma agree_AppendInst i : agree block (AppendInst block i).
Proof.
  intros f g Hs. unfold AppendInst. split; [done|].
  apply (sim_step f g); [done|apply (sound_AppendInst block i f)
                        |apply (sound_AppendInst block i g)|].
  unfold append_inst. simpl. rewrite !lookup_alter_eq. by rewrite (sim_block _ _ _ Hs).
Qed.

Lemma agree_setTerm t : agree block (setTerm block t).
Proof.
  intros f g Hs. unfold setTerm. split; [done|].
  apply (sim_step f g); [done|apply (sound_setTerm block t f)
                        |apply (sound_setTerm block t g)|].
  unfold set_term. simpl. rewrite !lookup_alter_eq. by rewrite (sim_block _ _ _ Hs).
Qed.

Lemma agree_getFunction : agree block getFunction.
Proof.
  intros f g Hs. unfold getFunction. rewrite (sim_Function _ _ _ Hs).
  by destruct (Function g).
Qed.

Lemma agree_reg (r : Reg) : agree block (reg r).
Proof.
  intros f g Hs. pose proof (sound_reg r f) as Hf.
  pose proof (sound_reg r g) as Hg. revert Hf Hg. unfold reg.
  destruct (regs f !! r) as [c|] eqn:Hc, (regs g !! r) as [c'|] eqn:Hc'.
  - intros _ _. destruct (proj1 (sim_wf_l _ _ _ Hs) r c Hc) as (t & Ht & ->).
    destruct (proj1 (sim_wf_r _ _ _ Hs) r c' Hc') as (t' & Ht' & ->).
    split; [congruence|done].
  - destruct (proj1 (sim_wf_l _ _ _ Hs) r c Hc) as (t & Ht & ->).
    rewrite Ht. cbv zeta. intros _ Hg. split; [done|].
    apply (sim_step f g); [done|reflexivity|done|].
    exact (sim_block _ _ _ Hs).
  - destruct (proj1 (sim_wf_r _ _ _ Hs) r c' Hc') as (t & Ht & ->).
    rewrite Ht. cbv zeta. intros Hf _. split; [done|].
    apply (sim_step f g); [done|done|reflexivity|].
    exact (sim_block _ _ _ Hs).
  - destruct (reg_type r) as [t|]; [|done]. cbv zeta. intros Hf Hg.
    split; [done|]. apply (sim_step f g); [done..|].
    exact (sim_block _ _ _ Hs).
Qed.

Lemma agree_status (s : StatusFlag) : (s ≤ OF)%N → agree block (status_ s).
Proof.
  intros Hle f g Hs. pose proof (sound_status s Hle f) as Hf.
  pose proof (sound_status s Hle g) as Hg. revert Hf Hg. unfold status_.
  destruct (status f !! s) as [c|] eqn:Hc, (status g !! s) as [c'|] eqn:Hc';
    cbv zeta; intros Hf Hg.
  - destruct (proj2 (sim_wf_l _ _ _ Hs) s c Hc) as [_ ->].
    destruct (proj2 (sim_wf_r _ _ _ Hs) s c' Hc') as [_ ->]. done.
  - destruct (proj2 (sim_wf_l _ _ _ Hs) s c Hc) as [_ ->].
    split; [done|]. apply (sim_step f g); [done..|].
    exact (sim_block _ _ _ Hs).
  - destruct (proj2 (sim_wf_r _ _ _ Hs) s c' Hc') as [_ ->].
    split; [done|]. apply (sim_step f g); [done..|].
    exact (sim_block _ _ _ Hs).
  - split; [done|]. apply (sim_step f g); [done..|].
    exact (sim_block _ _ _ Hs).
Qed.
End agreement.

Lemma sim_lookup block f g k :
  sim block f g →
  (∃ b b', blocks f !! k = Some b ∧ blocks g !! k = Some b')
  ∨ (blocks f !! k = None ∧ blocks g !! k = None).
Proof.
  intros Hs. pose proof (sim_dom _ _ _ Hs k) as [H1 H2].
  destruct (blocks f !! k) as [b|], (blocks g !! k) as [b'|]; eauto.
  - destruct H1 as [? ?]; [eauto|done].
  - destruct H2 as [? ?]; [eauto|done].
Qed.

(** A computation that starts by reading the state. *)
Lemma agree_get_bind {A} block (k : function → M A) :
  (∀ f g, sim block f g → same_outcome block (k f f) (k g g)) →
  agree block (get ≫= k).
Proof. intros Hk f g Hs. unfold get, mbind, M_bind. by apply Hk. Qed.

(** The two runs of one computation, from states that agree. *)
Ltac agree_at f g Hs :=
  lazymatch goal with
  | |- same_outcome ?block (?c f) (?c g) =>
      let Hc := fresh "Hc" in
      assert (Hc : agree block c); [|exact (Hc f g Hs)]
  end.

(** One step of an agreement proof. *)
Ltac agree_step lemmas :=
  lazymatch goal with
  | |- agree _ (_ ≫= _) => apply agree_bind; [|intros ?]
  | |- agree _ (match ?x with _ => _ end) => destruct x
  | |- agree _ (mret _) => apply agree_ret
  | |- agree _ (throw _) => apply agree_throw
  | |- agree _ (panic _) => apply agree_panic
  | |- agree _ _ => lemmas
  end.

Ltac primitive_agree :=
  first [ apply agree_reg | apply agree_status; by compute
        | apply agree_getFunction | apply agree_AppendInst
        | apply agree_setTerm ].

Section translator_agreement.
Context (d : disassembler) (sz : type → Z) (ga : Address → Arg → list Address)
  (tc : Address → instruction → bool) (dt : instruction → bool)
  (block : Address).

Lemma agree_NewInst v : agree block (NewInst block v).
Proof. unfold NewInst. repeat agree_step primitive_agree. Qed.

Lemma agree_NewStore v dst : agree block (NewStore block v dst).
Proof. apply agree_AppendInst. Qed.

Ltac emit_agree :=
  first [ primitive_agree | apply agree_NewInst | apply agree_NewStore ].

Lemma agree_useStatus s : (s ≤ OF)%N → agree block (useStatus block s).
Proof.
  intros Hs. unfold useStatus, NewLoad.
  apply agree_bind; [by apply agree_status|intros ?]. apply agree_NewInst.
Qed.

Lemma agree_defStatus s v : (s ≤ OF)%N → agree block (defStatus block s v).
Proof.
  intros Hs. unfold defStatus.
  apply agree_bind; [by apply agree_status|intros ?]. apply agree_NewStore.
Qed.

Lemma agree_getElementPtr src t offset :
  agree block (getElementPtr sz block src t offset).
Proof. unfold getElementPtr. repeat agree_step emit_agree. Qed.

Lemma agree_global a : agree block (global d sz block a).
Proof.
  unfold global. cbv zeta.
  repeat agree_step ltac:(first [emit_agree | apply agree_getElementPtr]).
Qed.

Lemma agree_useGlobal a : agree block (useGlobal d sz block a).
Proof.
  unfold useGlobal, NewLoad.
  repeat agree_step ltac:(first [emit_agree | apply agree_global]).
Qed.

Lemma agree_defGlobal a v : agree block (defGlobal d sz block a v).
Proof.
  unfold defGlobal.
  repeat agree_step ltac:(first [emit_agree | apply agree_global]).
Qed.

Lemma agree_useArg i arg : agree block (useArg d sz block i arg).
Proof.
  unfold useArg, NewLoad. cbv zeta.
  repeat agree_step ltac:(first [emit_agree | apply agree_useGlobal]).
Qed.

Lemma agree_defArg i arg v : agree block (defArg d sz block i arg v).
Proof.
  unfold defArg.
  repeat agree_step ltac:(first [emit_agree | apply agree_defGlobal]).
Qed.

Lemma agree_updateStatusFlags x y : agree block (updateStatusFlags block x y).
Proof.
  unfold updateStatusFlags.
  repeat agree_step ltac:(first [emit_agree | apply agree_defStatus; by compute]).
Qed.

Lemma agree_calleeFunction a : agree block (calleeFunction d a).
Proof.
  intros f g Hs. unfold calleeFunction. rewrite (sim_entry _ _ _ Hs).
  destruct (bool_decide _).
  - by apply agree_getFunction.
  - by destruct (funcs d !! a ≫= Function).
Qed.

Ltac operand_agree :=
  first [ emit_agree | apply agree_useArg | apply agree_defArg
        | apply agree_updateStatusFlags | apply agree_calleeFunction ].

Lemma agree_instCALL inst : agree block (instCALL d sz block inst).
Proof. unfold instCALL. cbv zeta. repeat agree_step operand_agree. Qed.

Lemma agree_translateInst inst : agree block (translateInst d sz block inst).
Proof.
  unfold translateInst, instADD, instAND, instCMP, instIMUL, instINC,
    instMOV, instXOR. cbv zeta.
  repeat agree_step ltac:(first [operand_agree | apply agree_instCALL]).
Qed.

Lemma agree_forM_ {A} (l : list A) (k : A → M unit) :
  (∀ x, agree block (k x)) → agree block (forM_ l k).
Proof.
  intros Hk. induction l as [|x l IH]; simpl.
  - apply agree_ret.
  - apply agree_bind; [apply Hk|intros _; exact IH].
Qed.

Lemma agree_return (F : irFunction) :
  agree block
    (if negb (is_void (Ret (Sig F)))
     then result ← useArg d sz block None (ArgReg EAX);
          NewRet block (Some result)
     else NewRet block None).
Proof. unfold NewRet. repeat agree_step operand_agree. Qed.

Lemma agree_termRET term : agree block (termRET d sz block term).
Proof.
  unfold termRET. apply agree_bind; [apply agree_getFunction|intros F].
  apply agree_return.
Qed.

Lemma agree_termJMP term : agree block (termJMP d sz tc block term).
Proof.
  unfold termJMP. apply agree_get_bind. intros f g Hs.
  rewrite (sim_entry _ _ _ Hs). destruct (tc _ _); [|reflexivity].
  agree_at f g Hs.
  apply agree_bind; [apply agree_instCALL|intros _].
  apply agree_bind; [apply agree_getFunction|intros F]. apply agree_return.
Qed.

Lemma agree_termCondBranch term : agree block (termCondBranch ga block term).
Proof.
  unfold termCondBranch. cbv zeta.
  destruct (ga _ _) as [|t [|t' l]]; try apply agree_throw.
  apply agree_get_bind. intros f g Hs.
  destruct (sim_lookup block f g t Hs) as [(b & b' & -> & ->)|[-> ->]];
    [|by apply agree_throw].
  destruct (sim_lookup block f g
              (addr_add (inst_addr term) (wrap64 (Len term))) Hs)
    as [(b1 & b1' & -> & ->)|[-> ->]]; [|by apply agree_throw].
  agree_at f g Hs. unfold NewCondBr.
  apply agree_bind; [|intros cond; apply agree_setTerm].
  destruct (Op_ term); try apply agree_panic;
    repeat agree_step
      ltac:(first [emit_agree | apply agree_useStatus; by compute]).
Qed.

Lemma agree_translateTerm term :
  agree block (translateTerm d sz ga tc dt block term).
Proof.
  unfold translateTerm. destruct (dt term).
  - apply agree_get_bind. intros f g Hs.
    destruct (sim_lookup block f g (inst_addr term) Hs)
      as [(b & b' & -> & ->)|[-> ->]]; [|by apply agree_throw].
    by apply agree_setTerm.
  - destruct (Op_ term); try apply agree_panic;
      first [apply agree_termCondBranch|apply agree_termJMP
            |apply agree_termRET].
Qed.

Lemma agree_translateBlock :
  agree block (translateBlock d sz ga tc dt block).
Proof.
  unfold translateBlock. apply agree_get_bind. intros f g Hs.
  rewrite (sim_block _ _ _ Hs).
  destruct (blocks g !! block) as [b|]; [|reflexivity].
  agree_at f g Hs.
  apply agree_bind; [|intros _; apply agree_translateTerm].
  apply agree_forM_. intros inst. apply agree_translateInst.
Qed.
End translator_agreement.

Section locality.
Context (d : disassembler) (sz : type → Z) (ga : Address → Arg → list Address)
  (tc : Address → instruction → bool) (dt : instruction → bool).

(** X17. The translation of a block depends only on the block itself, on the IR
    function and the entry address of the function, and on the set of block
    addresses: from two functions that agree on these, and whose cells are
    the ones [reg] and [status] create, it ends in the same way (success,
    the same error or the same abort) and leaves the same IR in the
    block.  The IR of the other blocks and the cells recorded so far make
    no difference. *)
Theorem translateBlock_local block f g :
  wf_cells f → wf_cells g →
  Function f = Function g → entry f = entry g →
  blocks f !! block = blocks g !! block →
  (∀ k, is_Some (blocks f !! k) ↔ is_Some (blocks g !! k)) →
  match translateBlock d sz ga tc dt block f,
        translateBlock d sz ga tc dt block g with
  | Ok f' _, Ok g' _ => blocks f' !! block = blocks g' !! block
  | Err f' e, Err g' e' => e = e' ∧ blocks f' !! block = blocks g' !! block
  | Panic p, Panic q => p = q
  | _, _ => False
  end.
Proof.
  intros Hwf Hwg HF He Hb Hd.
  pose proof (agree_translateBlock d sz ga tc dt block f g
                (Build_sim block f g Hwf Hwg HF He Hb Hd)) as Hsame.
  unfold same_outcome in Hsame.
  destruct (translateBlock _ _ _ _ _ _ f) as [f' []|f' e|p],
           (translateBlock _ _ _ _ _ _ g) as [g' []|g' e'|q]; try done.
  - destruct Hsame as [_ Hs]. exact (sim_block _ _ _ Hs).
  - destruct Hsame as [-> Hs]. split; [done|]. exact (sim_block _ _ _ Hs).
Qed.

Lemma StronglySorted_Zlt_NoDup (l : list Z) : StronglySorted Z.lt l → NoDup l.
Proof.
  induction 1 as [|x l Hs IH Hall]; constructor; [|done].
  intros Hin. rewrite Forall_forall in Hall. specialize (Hall x Hin). lia.
Qed.

(** The blocks that a run over other blocks leaves alone. *)
Lemma forM_blocks_frame l k f f' :
  forM_ l (translateBlock d sz ga tc dt) f = Ok f' () → k ∉ l →
  blocks f' !! k = blocks f !! k.
Proof.
  revert f. induction l as [|x l IH]; intros f; simpl.
  - by intros [= <-].
  - unfold mbind, M_bind.
    pose proof (triple_translateBlock d sz ga tc dt x (λ _, True)
                  (mono_True x) f) as Ht.
    destruct (translateBlock _ _ _ _ _ x f) as [f1 []| |]; [|done..].
    intros Hrun Hk. apply not_elem_of_cons in Hk as [Hne Hk].
    rewrite (IH f1 Hrun Hk). destruct Ht as [Hw _].
    by apply (writes_frame _ _ _ Hw).
Qed.

(** X18. In the function that [translateFunc] returns, every block has the IR
    that the translation of this block alone gives, from the function as
    it was given: the blocks are translated independently of each other,
    whatever their order. *)
Theorem translateFunc_blocks_independent f f' k :
  wf_blocks f → wf_cells f →
  translateFunc d sz ga tc dt f = Ok f' () →
  is_Some (blocks f !! k) →
  ∃ g',
    translateBlock d sz ga tc dt k (init f) = Ok g' ()
    ∧ ir_at f' k = ir_at g' k.
Proof.
  intros Hwf Hcells Hrun Hk.
  destruct (translateFunc_new_blocks d sz ga tc dt f f' Hwf Hrun)
    as (f3 & F & target & Hblocks & _ & Hb & _).
  pose proof (blockAddrs_of_sorted f Hwf) as Hsorted.
  apply (elem_of_blockAddrs_of f k Hwf) in Hk.
  apply list_elem_of_split in Hk as (l1 & l2 & Hl).
  rewrite Hl in Hblocks, Hsorted. rewrite forM__app in Hblocks.
  pose proof (sound_blocks d sz ga tc dt l1 (init f)) as Hs1.
  destruct (forM_ l1 _ (init f)) as [f1 []| |] eqn:Hrun1; [|done..].
  simpl in Hblocks. unfold mbind, M_bind in Hblocks.
  destruct (translateBlock _ _ _ _ _ k f1) as [f2 []| |] eqn:Hrun2; [|done..].
  assert (Hnot : (k ∉ l1) ∧ (k ∉ l2)).
  { apply StronglySorted_Zlt_NoDup, NoDup_app in Hsorted as (_ & Hdis & Hnd).
    apply NoDup_cons in Hnd as [Hk2 _]. split; [|done].
    intros Hin. apply (Hdis k Hin). by left. }
  destruct Hnot as [Hk1 Hk2].
  assert (Hinit : wf_cells (init f)).
  { destruct Hcells. split; by rewrite ?regs_init, ?status_init. }
  assert (Hsim : sim k (init f) f1).
  { split.
    - exact Hinit.
    - by apply (step_wf _ _ Hs1).
    - symmetry. apply (grows_Function _ _ (step_grows _ _ Hs1)).
    - symmetry. apply (grows_entry _ _ (step_grows _ _ Hs1)).
    - symmetry. by apply (forM_blocks_frame l1 k (init f) f1).
    - intros k'. symmetry.
      apply (is_Some_blocks_grows _ _ k' (step_grows _ _ Hs1)). }
  pose proof (agree_translateBlock d sz ga tc dt k (init f) f1 Hsim) as Hsame.
  rewrite Hrun2 in Hsame. unfold same_outcome in Hsame.
  destruct (translateBlock _ _ _ _ _ k (init f)) as [g' []| |]; [|done..].
  destruct Hsame as [_ Hs2]. exists g'. split; [done|].
  unfold ir_at. rewrite Hb, (forM_blocks_frame l2 k f2 f3 Hblocks Hk2).
  by rewrite (sim_block _ _ _ Hs2).
Qed.
End locality.

Section canonical_cells.
Context (d : disassembler) (sz : type → Z) (ga : Address → Arg → list Address)
  (tc : Address → instruction → bool) (dt : instruction → bool).

(** X19. The cells of a function stay the ones [reg] and [status] create,
    whether [translateFunc] succeeds or returns an error: the cell of a
    register is named after the register in lower case and has the width
    of the register, the cell of a flag is named after the flag and has
    one bit.  In particular this holds for a function given without
    cells. *)
Theorem translateFunc_cells_canonical f f' :
  wf_cells f →
  (translateFunc d sz ga tc dt f = Ok f' ()
   ∨ ∃ e, translateFunc d sz ga tc dt f = Err f' e) →
  (∀ (r : Reg) c, regs f' !! r = Some c →
     ∃ typ, reg_type r = Some typ
            ∧ c = {| alloca_name := ToLower (Reg_String r);
                     alloca_elem := typ |})
  ∧ (∀ (s : StatusFlag) c, status f' !! s = Some c →
       (s ≤ OF)%N
       ∧ c = {| alloca_name := ToLower (StatusFlag_String s);
                alloca_elem := I1 |}).
Proof.
  intros Hwf Hrun.
  assert (Hinit : wf_cells (init f)).
  { destruct Hwf. split; by rewrite ?regs_init, ?status_init. }
  enough (wf_cells f') as [Hr Hs] by (split; [exact Hr|exact Hs]).
  destruct Hrun as [Hrun|[e Hrun]].
  - destruct (translateFunc_Ok d sz ga tc dt f f' Hrun)
      as (f1 & F & _ & _ & Hstep & _ & _ & ->).
    destruct (step_wf _ _ Hstep Hinit) as [Hr Hs]. by split.
  - destruct (translateFunc_Err d sz ga tc dt f f' e Hrun)
      as [Hblocks|(_ & -> & _)]; [|done].
    pose proof (sound_blocks d sz ga tc dt (blockAddrs_of f) (init f)) as Hs.
    rewrite Hblocks in Hs. by apply (step_wf _ _ Hs).
Qed.
End canonical_cells.

Lemma first_done_translated :
  translate_block_demo 4096 demo = Ok first_done ().
Proof. by vm_compute. Qed.

Lemma step_first_done : step demo first_done.
Proof.
  pose proof (sound_translateBlock no_tables sizeOfType_model getAddrs_model
                no_tail_call isDummyTerm_model 4096 demo) as Hs.
  fold (translate_block_demo 4096 demo) in Hs.
  by rewrite first_done_translated in Hs.
Qed.

(** X17 on the examples: the second block of the example, before and after
    the translation of the first. *)
Lemma translateBlock_local_witness :
  status demo = ∅ ∧ status first_done ≠ ∅
  ∧ ir_at demo 4096 ≠ ir_at first_done 4096
  ∧ translate_block_demo 4112 demo
    = Ok (state_of (translate_block_demo 4112 demo) demo) ()
  ∧ translate_block_demo 4112 first_done
    = Ok (state_of (translate_block_demo 4112 first_done) first_done) ()
  ∧ blocks (state_of (translate_block_demo 4112 demo) demo) !! 4112
    = blocks (state_of (translate_block_demo 4112 first_done) first_done)
      !! 4112.
Proof.
  assert (H1 : translate_block_demo 4112 demo
               = Ok (state_of (translate_block_demo 4112 demo) demo) ())
    by (by vm_compute).
  assert (H2 : translate_block_demo 4112 first_done
               = Ok (state_of (translate_block_demo 4112 first_done)
                       first_done) ())
    by (by vm_compute).
  split_and!; [reflexivity|by vm_compute|by vm_compute|exact H1|exact H2|].
  pose proof (translateBlock_local no_tables sizeOfType_model getAddrs_model
                no_tail_call isDummyTerm_model 4112 demo first_done
                (wf_cells_empty _ _ _)
                (step_wf _ _ step_first_done (wf_cells_empty _ _ _))
                eq_refl eq_refl eq_refl
                (λ k, symmetry
                        (is_Some_blocks_grows demo first_done k
                           (step_grows _ _ step_first_done)))) as Hlocal.
  fold (translate_block_demo 4112 demo) in Hlocal.
  fold (translate_block_demo 4112 first_done) in Hlocal.
  rewrite H1, H2 in Hlocal. exact Hlocal.
Defined.

(** X18 on the examples. *)
Lemma translateFunc_blocks_independent_witness :
  wf_blocks demo ∧ wf_cells demo
  ∧ translate_demo demo = Ok (final demo) ()
  ∧ is_Some (blocks demo !! 4112)
  ∧ ∃ g',
      translate_block_demo 4112 (init demo) = Ok g' ()
      ∧ ir_at (final demo) 4112 = ir_at g' 4112.
Proof.
  split_and!;
    [apply wf_blocks_demo|apply wf_cells_empty|apply demo_translated
    |by eexists|].
  apply (translateFunc_blocks_independent no_tables sizeOfType_model
           getAddrs_model no_tail_call isDummyTerm_model demo (final demo)
           4112 wf_blocks_demo (wf_cells_empty _ _ _) demo_translated).
  by eexists.
Defined.

(** X19 on the examples: the cells after the failure of the stray
    branch. *)
Lemma translateFunc_cells_canonical_witness :
  wf_cells stray
  ∧ translate_demo stray = Err (final stray) (ErrNoBlock 4228)
  ∧ regs (final stray) !! EAX
    = Some {| alloca_name := "eax"; alloca_elem := I32 |}
  ∧ ∀ (r : Reg) c, regs (final stray) !! r = Some c →
      ∃ typ, reg_type r = Some typ
             ∧ c = {| alloca_name := ToLower (Reg_String r);
                      alloca_elem := typ |}.
Proof.
  split_and!; [apply wf_cells_empty|apply stray_fails|by vm_compute|].
  apply (translateFunc_cells_canonical no_tables sizeOfType_model
           getAddrs_model no_tail_call isDummyTerm_model stray (final stray)
           (wf_cells_empty _ _ _)).
  right. eexists. apply stray_fails.
Defined.
